(** * Investment fee calculator: month stepper, TWRR and MWRR

    A shallow embedding of [InvestmentCalculator] (investmentCalculator.ts)
    and of the parts of its environment it relies on:

    - [Decimal]: the decimal.js values the calculator computes with, at the
      library's default configuration (20 significant digits, rounding
      half-up);
    - [JSHost]: what the JavaScript host supplies (the calendar of [Date],
      [Math.pow], the conversions between decimals and binary64 numbers);
    - the calculator itself, one definition per method, with the table
      ([tableData]) passed explicitly and exceptions as a [result]. *)

From Stdlib Require Import ZArith NArith Lia Bool String Floats.
From stdpp Require Import base option list pretty.

Set Warnings "-inexact-float".

Local Open Scope Z_scope.

(** ** decimal.js values *)

Module Decimal.

(** A decimal.js value: NaN, an infinity, or a sign, a coefficient and a
    power of ten. [Fin neg c e] stands for (-1)^neg * c * 10^e; zero keeps
    its sign, as in the library. The library's bounds on the exponent
    (9e15 either way, beyond which it gives Infinity or zero) are left out:
    exponents are unbounded here. *)
Inductive t : Type :=
| NaN
| Inf (neg : bool)
| Fin (neg : bool) (c : N) (e : Z).

(** Default [Decimal.precision]. *)
Definition precision : N := 20.

(** Drop digits beyond the 21st by truncation: half-up rounding to 20
    digits reads the 21st digit only. *)
Fixpoint truncTo21 (fuel : nat) (c : N) (e : Z) : N * Z :=
  match fuel with
  | O => (c, e)
  | S f => if (10 ^ (precision + 1) <=? c)%N
           then truncTo21 f (c / 10)%N (e + 1)
           else (c, e)
  end.

(** Rounding of a coefficient to 20 significant digits, mode ROUND_HALF_UP
    (ties away from zero; the sign is kept apart). *)
Definition roundHalfUp (c : N) (e : Z) : N * Z :=
  let '(c1, e1) := truncTo21 (N.size_nat c) c e in
  if (10 ^ precision <=? c1)%N then (((c1 + 5) / 10)%N, e1 + 1)
  else (c1, e1).

(** The library keeps no trailing zeros in a coefficient. *)
Fixpoint stripZeros (fuel : nat) (c : N) (e : Z) : N * Z :=
  match fuel with
  | O => (c, e)
  | S f => if (c mod 10 =? 0)%N then stripZeros f (c / 10)%N (e + 1)
           else (c, e)
  end.

Definition normalise (c : N) (e : Z) : N * Z :=
  if (c =? 0)%N then (0%N, 0) else stripZeros (N.size_nat c) c e.

(** [new Decimal(z)] for an integer [z]; [dec neg c e] is the decimal
    [(-1)^neg * c * 10^e] as the constructor stores it (no rounding). *)
Definition dec (neg : bool) (c : N) (e : Z) : t :=
  let '(c', e') := normalise c e in Fin neg c' e'.

Definition ofZ (z : Z) : t := dec (z <? 0) (Z.abs_N z) 0.

(** [finalise]: round to the precision, then normalise. *)
Definition finalise (neg : bool) (c : N) (e : Z) : t :=
  let '(c1, e1) := roundHalfUp c e in
  let '(c2, e2) := normalise c1 e1 in
  Fin neg c2 e2.

Definition signed (neg : bool) (c : N) : Z :=
  if neg then - Z.of_N c else Z.of_N c.

(** [c * 10^(e - E)], for [E <= e]: the coefficient at the exponent [E]. *)
Definition scale (c : N) (e E : Z) : N := (c * 10 ^ Z.to_N (e - E))%N.

Definition negate (x : t) : t :=
  match x with
  | NaN => NaN
  | Inf n => Inf (negb n)
  | Fin n c e => Fin (negb n) c e
  end.

(** [x.plus(y)]: the exact sum rounded. A zero sum is +0 unless both
    operands are -0. *)
Definition plus (x y : t) : t :=
  match x, y with
  | NaN, _ | _, NaN => NaN
  | Inf a, Inf b => if Bool.eqb a b then Inf a else NaN
  | Inf a, Fin _ _ _ => Inf a
  | Fin _ _ _, Inf b => Inf b
  | Fin n1 c1 e1, Fin n2 c2 e2 =>
      let E := Z.min e1 e2 in
      let s := signed n1 (scale c1 e1 E) + signed n2 (scale c2 e2 E) in
      if s =? 0
      then Fin (n1 && n2 && (c1 =? 0)%N && (c2 =? 0)%N) 0 0
      else finalise (s <? 0) (Z.abs_N s) E
  end.

(** [x.minus(y)]. *)
Definition minus (x y : t) : t := plus x (negate y).

(** [x.mul(y)]: the exact product rounded. *)
Definition mul (x y : t) : t :=
  match x, y with
  | NaN, _ | _, NaN => NaN
  | Inf a, Inf b => Inf (xorb a b)
  | Inf a, Fin n c _ | Fin n c _, Inf a =>
      if (c =? 0)%N then NaN else Inf (xorb a n)
  | Fin n1 c1 e1, Fin n2 c2 e2 => finalise (xorb n1 n2) (c1 * c2) (e1 + e2)
  end.

(** [x.div(y)]: the quotient is developed to more than 21 digits and
    rounded. *)
Definition div (x y : t) : t :=
  match x, y with
  | NaN, _ | _, NaN => NaN
  | Inf _, Inf _ => NaN
  | Inf a, Fin n _ _ => Inf (xorb a n)
  | Fin n _ _, Inf b => Fin (xorb n b) 0 0
  | Fin n1 c1 e1, Fin n2 c2 e2 =>
      if (c2 =? 0)%N then (if (c1 =? 0)%N then NaN else Inf (xorb n1 n2))
      else if (c1 =? 0)%N then Fin (xorb n1 n2) 0 0
      else
        let k := (precision + 1 + N.size c2)%N in
        finalise (xorb n1 n2) (c1 * 10 ^ k / c2) (e1 - e2 - Z.of_N k)
  end.

(** [x.cmp(y)]: [None] is the library's NaN answer. *)
Definition cmp (x y : t) : option comparison :=
  match x, y with
  | NaN, _ | _, NaN => None
  | Inf a, Inf b =>
      Some (if Bool.eqb a b then Eq else if a then Lt else Gt)
  | Inf a, Fin _ _ _ => Some (if a then Lt else Gt)
  | Fin _ _ _, Inf b => Some (if b then Gt else Lt)
  | Fin n1 c1 e1, Fin n2 c2 e2 =>
      let E := Z.min e1 e2 in
      Some (signed n1 (scale c1 e1 E) ?= signed n2 (scale c2 e2 E))
  end.

Definition gt (x y : t) : bool :=
  match cmp x y with Some Gt => true | _ => false end.

Definition lt (x y : t) : bool :=
  match cmp x y with Some Lt => true | _ => false end.

Definition gte (x y : t) : bool :=
  match cmp x y with Some Gt | Some Eq => true | _ => false end.

Definition isZero (x : t) : bool :=
  match x with Fin _ c _ => (c =? 0)%N | _ => false end.

Definition isNaN (x : t) : bool :=
  match x with NaN => true | _ => false end.

(** A decimal that is a number, not -Infinity, and whose coefficient has
    at most 20 digits: what an operation rounds to. *)
Definition wellRounded (x : t) : bool :=
  match x with
  | NaN => false
  | Inf neg => negb neg
  | Fin _ c _ => (c <? 10 ^ precision)%N
  end.

(** [s1 * 10^e1 <= s2 * 10^e2], over the integers. *)
Definition valLe (s1 e1 s2 e2 : Z) : Prop :=
  if e1 <=? e2 then s1 <= s2 * 10 ^ (e2 - e1)
  else s1 * 10 ^ (e1 - e2) <= s2.

End Decimal.

Abbreviation Decimal := Decimal.t.

(** ** Exceptions *)

(** What a method can throw: [new Error(msg)], or the engine's [TypeError]
    on reading a property of [undefined]. *)
Inductive exn : Type :=
| Error (msg : string)
| TypeError.

Inductive result (A : Type) : Type :=
| Ok (a : A)
| Throw (e : exn).
Arguments Ok {A} a.
Arguments Throw {A} e.

#[global] Instance result_ret : MRet result := fun _ a => Ok a.
#[global] Instance result_bind : MBind result := fun _ _ f m =>
  match m with
  | Ok a => f a
  | Throw e => Throw e
  end.
#[global] Instance result_fmap : FMap result := fun _ _ f m =>
  match m with
  | Ok a => Ok (f a)
  | Throw e => Throw e
  end.

(** Reading a property of a value that may be [undefined]. *)
Definition defined {A : Type} (o : option A) : result A :=
  match o with
  | Some a => Ok a
  | None => Throw TypeError
  end.

(** ** What the host supplies *)

(** A [Date] is its time value, the milliseconds since the epoch (the
    invalid date is left out); [getTime] reads it as a number. *)
Definition Date : Type := Z.

Definition floatOfZ (z : Z) : float :=
  SF2Prim (binary_normalize prec emax z 0 false).

Definition getTime (date : Date) : float := floatOfZ date.

(** The calendar methods of [Date] that the calculator calls (they read the
    time zone of the host), [Math.pow], and the two conversions of
    decimal.js between decimals and numbers. [float] is binary64, the
    JavaScript number type. *)
Class JSHost : Type := {
  getFullYear : Date -> Z;
  getMonth : Date -> Z;
  setMonth : Date -> Z -> Date;
  Math_pow : float -> float -> float;
  toNumber : Decimal -> float;
  ofNumber : float -> Decimal;
}.

(** ** Types of the calculator (types.ts) *)

Module Fee.
Record t : Type := {
  name : string;
  description : string;
  type : string;
  value : Decimal;
  quote_time_unit : string;
  applied_time_unit : Decimal;
}.
End Fee.

Module Returns.
Record t : Type := {
  type : string;
  value : Decimal;
  quote_time_unit : string;
  applied_time_unit : Decimal;
}.
End Returns.

Module MonthlyReturn.
(** [isEmpty] is the marker the calculator reads through [as any]; an
    entry without it has [isEmpty = false]. *)
Record t : Type := {
  month : Z;
  value : Decimal;
  date : option string;
  isEmpty : bool;
}.
End MonthlyReturn.

Module Global.
Record t : Type := {
  time_unit : string;
  start_date : Date;
  end_date : Date;
  starting_principle : Decimal;
  quote_currency : string;
  monthly_contribution : Decimal;
  num_months : Z;
}.
End Global.

Module InvestmentConfig.
Record t : Type := {
  fees : list Fee.t;
  returns : Returns.t;
  monthlyReturns : option (list MonthlyReturn.t);
  global : Global.t;
}.
End InvestmentConfig.

Module TableRow.
Record t : Type := {
  month : Z;
  date : Date;
  startingPrinciple : Decimal;
  endingPrinciple : Decimal;
  returns : Decimal;
  fees : Decimal;
  valueWithoutFees : Decimal;
  cumulativeFees : Decimal;
  cumulativeContributions : Decimal;
  feesPercentage : Decimal;
  momGrossReturnRate : Decimal;
  totalGrossReturnRate : Decimal;
  momNetReturnRate : Decimal;
  momNetExclContribReturnRate : Decimal;
  totalNetReturnRate : Decimal;
  timeWeightedReturn : Decimal;
  moneyWeightedReturn : Decimal;
}.

(** [row.timeWeightedReturn = v] *)
Definition set_timeWeightedReturn (v : Decimal) (r : t) : t :=
  {| month := month r; date := date r;
     startingPrinciple := startingPrinciple r;
     endingPrinciple := endingPrinciple r;
     returns := returns r; fees := fees r;
     valueWithoutFees := valueWithoutFees r;
     cumulativeFees := cumulativeFees r;
     cumulativeContributions := cumulativeContributions r;
     feesPercentage := feesPercentage r;
     momGrossReturnRate := momGrossReturnRate r;
     totalGrossReturnRate := totalGrossReturnRate r;
     momNetReturnRate := momNetReturnRate r;
     momNetExclContribReturnRate := momNetExclContribReturnRate r;
     totalNetReturnRate := totalNetReturnRate r;
     timeWeightedReturn := v;
     moneyWeightedReturn := moneyWeightedReturn r |}.

(** [row.moneyWeightedReturn = v] *)
Definition set_moneyWeightedReturn (v : Decimal) (r : t) : t :=
  {| month := month r; date := date r;
     startingPrinciple := startingPrinciple r;
     endingPrinciple := endingPrinciple r;
     returns := returns r; fees := fees r;
     valueWithoutFees := valueWithoutFees r;
     cumulativeFees := cumulativeFees r;
     cumulativeContributions := cumulativeContributions r;
     feesPercentage := feesPercentage r;
     momGrossReturnRate := momGrossReturnRate r;
     totalGrossReturnRate := totalGrossReturnRate r;
     momNetReturnRate := momNetReturnRate r;
     momNetExclContribReturnRate := momNetExclContribReturnRate r;
     totalNetReturnRate := totalNetReturnRate r;
     timeWeightedReturn := timeWeightedReturn r;
     moneyWeightedReturn := v |}.
End TableRow.

(** [a[i]] for a JavaScript array and a number index: [undefined] outside
    the array. *)
Definition at_index {A : Type} (a : list A) (i : Z) : option A :=
  if i <? 0 then None else a !! Z.to_nat i.

(** ** The calculator (investmentCalculator.ts) *)

Section InvestmentCalculator.
Context `{JSHost}.

Import Decimal.

(** The fields of the class: [config], and the two values the constructor
    derives from it, are read only; [tableData] is the table the methods
    push to and patch. *)
Record InvestmentCalculator : Type := {
  config : InvestmentConfig.t;
  monthDiff : Z;
  defaultMonthlyReturnRate : Decimal;
  tableData : list TableRow.t;
}.

Definition with_tableData (this : InvestmentCalculator)
    (rows : list TableRow.t) : InvestmentCalculator :=
  {| config := config this; monthDiff := monthDiff this;
     defaultMonthlyReturnRate := defaultMonthlyReturnRate this;
     tableData := rows |}.

Definition calculateMonthDifference (cfg : InvestmentConfig.t) : Z :=
  let global := InvestmentConfig.global cfg in
  if 0 <? Global.num_months global then Global.num_months global
  else (getFullYear (Global.end_date global)
        - getFullYear (Global.start_date global)) * 12
       + (getMonth (Global.end_date global)
          - getMonth (Global.start_date global)).

Definition calculateDefaultMonthlyReturnRate (cfg : InvestmentConfig.t)
    : Decimal :=
  let returns := InvestmentConfig.returns cfg in
  div (Returns.value returns) (Returns.applied_time_unit returns).

(** [new InvestmentCalculator(config)] *)
Definition new (cfg : InvestmentConfig.t) : InvestmentCalculator :=
  {| config := cfg;
     monthDiff := calculateMonthDifference cfg;
     defaultMonthlyReturnRate := calculateDefaultMonthlyReturnRate cfg;
     tableData := [] |}.

Definition getMonthlyReturnRate (this : InvestmentCalculator) (month : Z)
    : Decimal :=
  match InvestmentConfig.monthlyReturns (config this) with
  | Some monthlyReturns =>
      if 0 <? Z.of_nat (length monthlyReturns) then
        match List.find (fun r => MonthlyReturn.month r =? month)
                        monthlyReturns with
        | Some monthlyReturn =>
            if MonthlyReturn.isEmpty monthlyReturn then ofZ 0
            else div (MonthlyReturn.value monthlyReturn) (ofZ 100)
        | None => defaultMonthlyReturnRate this
        end
      else defaultMonthlyReturnRate this
  | None => defaultMonthlyReturnRate this
  end.

Definition initializeTable (this : InvestmentCalculator)
    : InvestmentCalculator :=
  let global := InvestmentConfig.global (config this) in
  let starting_principle := Global.starting_principle global in
  let start_date := Global.start_date global in
  with_tableData this
    [ {| TableRow.month := 0;
         TableRow.date := start_date;
         TableRow.startingPrinciple := starting_principle;
         TableRow.endingPrinciple := starting_principle;
         TableRow.returns := ofZ 0;
         TableRow.fees := ofZ 0;
         TableRow.valueWithoutFees := starting_principle;
         TableRow.cumulativeFees := ofZ 0;
         TableRow.cumulativeContributions := starting_principle;
         TableRow.feesPercentage := ofZ 0;
         TableRow.momGrossReturnRate := ofZ 0;
         TableRow.totalGrossReturnRate := ofZ 0;
         TableRow.momNetReturnRate := ofZ 0;
         TableRow.momNetExclContribReturnRate := ofZ 0;
         TableRow.totalNetReturnRate := ofZ 0;
         TableRow.timeWeightedReturn := ofZ 0;
         TableRow.moneyWeightedReturn := ofZ 0 |} ].

Definition addTableRow (this : InvestmentCalculator)
    (month : Z) (date : Date)
    (startingPrinciple endingPrinciple returns fees valueWithoutFees
     cumulativeFees cumulativeContributions momGrossReturnRate
     totalGrossReturnRate momNetReturnRate momNetExclContribReturnRate
     totalNetReturnRate timeWeightedReturn moneyWeightedReturn : Decimal)
    : InvestmentCalculator :=
  with_tableData this
    (tableData this ++
     [ {| TableRow.month := month;
          TableRow.date := date;
          TableRow.startingPrinciple := startingPrinciple;
          TableRow.endingPrinciple := endingPrinciple;
          TableRow.returns := returns;
          TableRow.fees := fees;
          TableRow.valueWithoutFees := valueWithoutFees;
          TableRow.cumulativeFees := cumulativeFees;
          TableRow.cumulativeContributions := cumulativeContributions;
          TableRow.feesPercentage :=
            mul (div fees startingPrinciple) (ofZ 100);
          TableRow.momGrossReturnRate := momGrossReturnRate;
          TableRow.totalGrossReturnRate := totalGrossReturnRate;
          TableRow.momNetReturnRate := momNetReturnRate;
          TableRow.momNetExclContribReturnRate :=
            momNetExclContribReturnRate;
          TableRow.totalNetReturnRate := totalNetReturnRate;
          TableRow.timeWeightedReturn := timeWeightedReturn;
          TableRow.moneyWeightedReturn := moneyWeightedReturn |} ]).

(** [this.config.fees.reduce(..., new Decimal(0))] *)
Definition calculateMonthlyFees (this : InvestmentCalculator)
    (principle : Decimal) : Decimal :=
  foldl (fun total fee =>
           let monthlyFeeRate :=
             div (Fee.value fee) (Fee.applied_time_unit fee) in
           plus total (mul principle monthlyFeeRate))
        (ofZ 0) (InvestmentConfig.fees (config this)).

(** *** Money-weighted return *)

Definition MILLISECONDS_PER_YEAR : float :=
  (365.25 * 24 * 60 * 60 * 1000)%float.

Definition datesToYearFractions (dates : list Date) : list float :=
  match dates with
  | [] => []
  | firstDate :: _ =>
      map (fun date =>
             let diffMs := (getTime date - getTime firstDate)%float in
             (diffMs / MILLISECONDS_PER_YEAR)%float)
          dates
  end.

(** The body of the loop over [i]; [yearFractions] is read in step with
    [cashFlows], and a missing entry ([undefined]) behaves as NaN in the
    arithmetic and in [t !== 0]. *)
Fixpoint npvAndDerivativeFrom (cashFlows yearFractions : list float)
    (rate npv derivative : float) : float * float :=
  match cashFlows with
  | [] => (npv, derivative)
  | cf :: cashFlows' =>
      let t := match yearFractions with
               | t :: _ => t
               | [] => PrimFloat.nan
               end in
      let discountFactor := Math_pow (1 + rate)%float (- t)%float in
      let npv := (npv + cf * discountFactor)%float in
      let derivative :=
        if negb (PrimFloat.eqb t 0)
        then (derivative - t * cf * discountFactor / (1 + rate))%float
        else derivative in
      npvAndDerivativeFrom cashFlows' (tl yearFractions)
                           rate npv derivative
  end.

Definition calculateNPVAndDerivative (cashFlows yearFractions : list float)
    (rate : float) : float * float :=
  npvAndDerivativeFrom cashFlows yearFractions rate 0%float 0%float.

(** The body of the loop of [calculateNPV], entered at index [i] with
    the sum [npv]. *)
Fixpoint npvFrom (cashFlows : list float) (rate : float) (i : Z)
    (npv : float) : float :=
  match cashFlows with
  | [] => npv
  | cf :: cashFlows' =>
      npvFrom cashFlows' rate (i + 1)
              (npv + cf / Math_pow (1 + rate) (floatOfZ i))%float
  end.

(** [calculateNPV]: the periods are taken equally spaced; no method of the
    class calls it. *)
Definition calculateNPV (cashFlows : list float) (rate : float) : float :=
  npvFrom cashFlows rate 0 0%float.

Definition MAX_ITERATIONS : nat := 100.
Definition PRECISION : float := 0.0000001%float.

(** [if (rate < -0.99) rate = -0.99; if (rate > 100) rate = 100;] *)
Definition boundRate (rate : float) : float :=
  let rate := if (rate <? -0.99)%float then (-0.99)%float else rate in
  if (100 <? rate)%float then 100%float else rate.

(** The Newton-Raphson loop with [remaining] iterations left, entered at
    [iteration]; the answer is the rate returned and the number of
    iterations started. *)
Fixpoint newtonRaphson (remaining : nat) (iteration : nat)
    (cashFlows yearFractions : list float) (rate : float) : float * nat :=
  match remaining with
  | O => (rate, iteration)
  | S remaining' =>
      let '(npv, derivative) :=
        calculateNPVAndDerivative cashFlows yearFractions rate in
      if (abs npv <? PRECISION)%float then (rate, S iteration)
      else if (abs derivative <? PRECISION)%float then (rate, S iteration)
      else
        let newRate := (rate - npv / derivative)%float in
        if (abs (newRate - rate) <? PRECISION)%float
        then (newRate, S iteration)
        else
          newtonRaphson remaining' (S iteration)
                        cashFlows yearFractions (boundRate newRate)
  end.

(** [calculateImprovedIRR] with the count of iterations it started. *)
Definition calculateImprovedIRR_counted (cashFlows : list float)
    (dates : list Date) : result float * nat :=
  if negb (length cashFlows =? length dates)%nat
  then (Throw (Error "Cash flows and dates arrays must have the same length"),
        O)
  else
    let yearFractions := datesToYearFractions dates in
    let '(rate, n) :=
      newtonRaphson MAX_ITERATIONS 0 cashFlows yearFractions 0.1%float in
    (Ok rate, n).

Definition calculateImprovedIRR (cashFlows : list float)
    (dates : list Date) : result float :=
  fst (calculateImprovedIRR_counted cashFlows dates).

(** The replay of a month's step on the default rate that the two return
    calculators share word for word: from the principal the month starts
    with, the principal it ends with. *)
Definition endingPrincipleAtDefaultRate (this : InvestmentCalculator)
    (startingPrinciple : Decimal) : Decimal :=
  let monthlyReturn :=
    mul startingPrinciple (defaultMonthlyReturnRate this) in
  let principleAfterReturns := plus startingPrinciple monthlyReturn in
  let monthlyFee := calculateMonthlyFees this principleAfterReturns in
  minus principleAfterReturns monthlyFee.

(** The cash-flow and date arrays [calculateMoneyWeightedReturn] builds
    when there are contributions. *)
Definition buildCashFlowSchedule (this : InvestmentCalculator)
    (currentMonth : Z) : result (list float * list Date) :=
  let global := InvestmentConfig.global (config this) in
  let cashFlows := [ (- toNumber (Global.starting_principle global))%float ] in
  let dates := [ Global.start_date global ] in
  let '(cashFlows, dates) :=
    foldl (fun '(cashFlows, dates) i =>
             if negb (isZero (Global.monthly_contribution global))
             then
               let contributionDate :=
                 setMonth (Global.start_date global)
                          (getMonth (Global.start_date global) + i) in
               (cashFlows ++
                  [ (- toNumber (Global.monthly_contribution global))%float ],
                dates ++ [ contributionDate ])
             else (cashFlows, dates))
          (cashFlows, dates) (seqZ 1 currentMonth) in
  finalValue ←
    (if Z.of_nat (length (tableData this)) >? currentMonth
     then
       row ← defined (at_index (tableData this) currentMonth);
       Ok (toNumber (TableRow.endingPrinciple row))
     else
       prevRow ← defined (at_index (tableData this) (currentMonth - 1));
       let startingPrinciple := TableRow.endingPrinciple prevRow in
       let startingPrinciple :=
         if gt (Global.monthly_contribution global) (ofZ 0)
         then plus startingPrinciple (Global.monthly_contribution global)
         else startingPrinciple in
       Ok (toNumber (endingPrincipleAtDefaultRate this startingPrinciple)));
  let endDate :=
    setMonth (Global.start_date global)
             (getMonth (Global.start_date global) + currentMonth) in
  Ok (cashFlows ++ [ finalValue ], dates ++ [ endDate ]).

Definition calculateMoneyWeightedReturn (this : InvestmentCalculator)
    (currentMonth : Z) : result Decimal :=
  if currentMonth =? 0 then Ok (ofZ 0)
  else
    let global := InvestmentConfig.global (config this) in
    if isZero (Global.monthly_contribution global) then
      prevRow ← defined (at_index (tableData this) (currentMonth - 1));
      let startingPrinciple := TableRow.endingPrinciple prevRow in
      let endingPrinciple :=
        endingPrincipleAtDefaultRate this startingPrinciple in
      Ok (mul (minus (div endingPrinciple (Global.starting_principle global))
                     (ofZ 1))
              (ofZ 100))
    else
      '(cashFlows, dates) ← buildCashFlowSchedule this currentMonth;
      irr ← calculateImprovedIRR cashFlows dates;
      Ok (mul (ofNumber irr) (ofZ 100)).

(** *** Time-weighted return *)

Definition calculateSinglePeriodReturn (this : InvestmentCalculator)
    (month : Z) : result Decimal :=
  let global := InvestmentConfig.global (config this) in
  if Z.of_nat (length (tableData this)) <=? month
  then Throw (Error ("Cannot calculate period return for month "
                     +:+ pretty month +:+ ": row not in table yet"))
  else
    prevRow ← defined (at_index (tableData this) (month - 1));
    currentRow ← defined (at_index (tableData this) month);
    let startValue := TableRow.endingPrinciple prevRow in
    let endValue := TableRow.endingPrinciple currentRow in
    let contribution := Global.monthly_contribution global in
    if gt contribution (ofZ 0)
    then Ok (mul (minus (div (minus endValue contribution) startValue)
                        (ofZ 1))
                 (ofZ 100))
    else Ok (mul (minus (div endValue startValue) (ofZ 1)) (ofZ 100)).

(** Step 2 of [calculateTimeWeightedReturn]: the geometric linking. *)
Definition linkReturns (periodReturns : list Decimal) : Decimal :=
  let cumulativeReturn :=
    foldl (fun cumulativeReturn returnRate =>
             mul cumulativeReturn
                 (plus (ofZ 1) (div returnRate (ofZ 100))))
          (ofZ 1) periodReturns in
  mul (minus cumulativeReturn (ofZ 1)) (ofZ 100).

Definition calculateTimeWeightedReturn (this : InvestmentCalculator)
    (currentMonth : Z) : result Decimal :=
  if currentMonth =? 0 then Ok (ofZ 0)
  else
    periodReturns ←
      mapM (calculateSinglePeriodReturn this) (seqZ 1 (currentMonth - 1));
    periodReturns ←
      (if currentMonth >? 0 then
         let global := InvestmentConfig.global (config this) in
         prevRow ← defined (at_index (tableData this) (currentMonth - 1));
         let startValue := TableRow.endingPrinciple prevRow in
         let contribution :=
           if gt (Global.monthly_contribution global) (ofZ 0)
           then Global.monthly_contribution global
           else ofZ 0 in
         let principleWithContribution := plus startValue contribution in
         let endValue :=
           endingPrincipleAtDefaultRate this principleWithContribution in
         let periodReturn :=
           if gt contribution (ofZ 0)
           then mul (minus (div (minus endValue contribution) startValue)
                           (ofZ 1))
                    (ofZ 100)
           else mul (minus (div endValue startValue) (ofZ 1)) (ofZ 100) in
         Ok (periodReturns ++ [ periodReturn ])
       else Ok periodReturns);
    Ok (linkReturns periodReturns).

(** *** The month stepper *)

Definition calculateMonth (this : InvestmentCalculator) (month : Z)
    : result InvestmentCalculator :=
  let global := InvestmentConfig.global (config this) in
  prevRow ← defined (at_index (tableData this) (month - 1));
  let currentDate :=
    setMonth (Global.start_date global)
             (getMonth (Global.start_date global) + month) in
  let startingPrinciple := TableRow.endingPrinciple prevRow in
  let cumulativeContributions := TableRow.cumulativeContributions prevRow in
  let '(startingPrinciple, cumulativeContributions) :=
    if gt (Global.monthly_contribution global) (ofZ 0)
    then (plus startingPrinciple (Global.monthly_contribution global),
          plus cumulativeContributions (Global.monthly_contribution global))
    else (startingPrinciple, cumulativeContributions) in
  let monthlyReturnRate := getMonthlyReturnRate this month in
  let monthlyReturn := mul startingPrinciple monthlyReturnRate in
  let principleAfterReturns := plus startingPrinciple monthlyReturn in
  let monthlyFee := calculateMonthlyFees this principleAfterReturns in
  let endingPrinciple := minus principleAfterReturns monthlyFee in
  let cumulativeFees := plus (TableRow.cumulativeFees prevRow) monthlyFee in
  let valueWithoutFees :=
    if gt (Global.monthly_contribution global) (ofZ 0)
    then plus (plus (TableRow.valueWithoutFees prevRow)
                    (Global.monthly_contribution global))
              (mul (plus (TableRow.valueWithoutFees prevRow)
                         (Global.monthly_contribution global))
                   monthlyReturnRate)
    else plus (TableRow.valueWithoutFees prevRow)
              (mul (TableRow.valueWithoutFees prevRow) monthlyReturnRate) in
  let totalNetReturnRate :=
    mul (minus (div endingPrinciple cumulativeContributions) (ofZ 1))
        (ofZ 100) in
  let momGrossReturnRate := mul monthlyReturnRate (ofZ 100) in
  let totalGrossReturnRate :=
    mul (minus (div valueWithoutFees cumulativeContributions) (ofZ 1))
        (ofZ 100) in
  let momNetReturnRate :=
    mul (minus (div endingPrinciple startingPrinciple) (ofZ 1)) (ofZ 100) in
  let momNetExclContribReturnRate :=
    mul (minus (div endingPrinciple (TableRow.endingPrinciple prevRow))
               (ofZ 1))
        (ofZ 100) in
  let this :=
    addTableRow this month currentDate startingPrinciple endingPrinciple
      monthlyReturn monthlyFee valueWithoutFees cumulativeFees
      cumulativeContributions momGrossReturnRate totalGrossReturnRate
      momNetReturnRate momNetExclContribReturnRate totalNetReturnRate
      (ofZ 0) (ofZ 0) in
  timeWeightedReturn ← calculateTimeWeightedReturn this month;
  moneyWeightedReturn ← calculateMoneyWeightedReturn this month;
  row ← defined (at_index (tableData this) month);
  let this :=
    with_tableData this
      (<[ Z.to_nat month :=
            TableRow.set_timeWeightedReturn timeWeightedReturn row ]>
         (tableData this)) in
  row ← defined (at_index (tableData this) month);
  Ok (with_tableData this
        (<[ Z.to_nat month :=
              TableRow.set_moneyWeightedReturn moneyWeightedReturn row ]>
           (tableData this))).

(** [for (let month = 1; month <= this.monthDiff; month++)] *)
Definition calculateAllMonths (this : InvestmentCalculator)
    : result InvestmentCalculator :=
  foldl (fun acc month => this ← acc; calculateMonth this month)
        (Ok this) (seqZ 1 (monthDiff this)).

Definition calculate (this : InvestmentCalculator)
    : result (list TableRow.t) :=
  let this := with_tableData this [] in
  let this := initializeTable this in
  this ← calculateAllMonths this;
  Ok (tableData this).

Definition calculateInvestment (cfg : InvestmentConfig.t)
    : result (list TableRow.t) :=
  calculate (new cfg).

End InvestmentCalculator.

(** ** A host to run the calculator on

    One [JSHost] in full, for running the calculator on examples: dates in
    UTC, the two number conversions correctly rounded, and a [Math.pow] that
    follows ECMAScript on the special values and approximates the rest (the
    language leaves finite results of [Math.pow] to the implementation). *)

Module UTCHost.

(** Days since 1970-01-01 of a date of the proleptic Gregorian calendar,
    and back; [m] is 1..12. *)
Definition daysFromCivil (y m d : Z) : Z :=
  let y := if m <=? 2 then y - 1 else y in
  let era := y / 400 in
  let yoe := y - era * 400 in
  let mp := if 2 <? m then m - 3 else m + 9 in
  let doy := (153 * mp + 2) / 5 + d - 1 in
  let doe := yoe * 365 + yoe / 4 - yoe / 100 + doy in
  era * 146097 + doe - 719468.

Definition civilFromDays (z : Z) : Z * Z * Z :=
  let z := z + 719468 in
  let era := z / 146097 in
  let doe := z - era * 146097 in
  let yoe := (doe - doe / 1460 + doe / 36524 - doe / 146096) / 365 in
  let y := yoe + era * 400 in
  let doy := doe - (365 * yoe + yoe / 4 - yoe / 100) in
  let mp := (5 * doy + 2) / 153 in
  let d := doy - (153 * mp + 2) / 5 + 1 in
  let m := if mp <? 10 then mp + 3 else mp - 9 in
  (if m <=? 2 then y + 1 else y, m, d).

Definition msPerDay : Z := 86400000.

(** [new Date(Date.UTC(y, m - 1, d))] *)
Definition utc (y m d : Z) : Date := daysFromCivil y m d * msPerDay.

Definition getFullYear (t : Date) : Z :=
  let '(y, _, _) := civilFromDays (t / msPerDay) in y.

Definition getMonth (t : Date) : Z :=
  let '(_, m, _) := civilFromDays (t / msPerDay) in m - 1.

(** [setMonth]: the day of the month is kept and runs over into the
    months that follow when the target month is shorter. *)
Definition setMonth (t : Date) (month : Z) : Date :=
  let '(y, _, d) := civilFromDays (t / msPerDay) in
  let ym := y + month / 12 in
  let mn := month mod 12 in
  (daysFromCivil ym (mn + 1) 1 + d - 1) * msPerDay + t mod msPerDay.

(** The binary64 nearest to [(-1)^neg * n / d], ties to even, for
    [0 <= n] and [0 < d]. *)
Definition floatOfRatio (neg : bool) (n d : Z) : float :=
  if n =? 0 then (if neg then neg_zero else zero)
  else
    let '(mz, ez, lz) := SFdiv_core_binary prec emax n 0 d 0 in
    SF2Prim (binary_round_aux prec emax neg mz ez lz).

(** [x.toNumber()]: the number nearest to the decimal. *)
Definition toNumber (x : Decimal) : float :=
  match x with
  | Decimal.NaN => nan
  | Decimal.Inf s => if s then neg_infinity else infinity
  | Decimal.Fin s c e =>
      if 0 <=? e then floatOfRatio s (Z.of_N c * 10 ^ e) 1
      else floatOfRatio s (Z.of_N c) (10 ^ (- e))
  end.

(** [floor (log10 (n / d))] for positive [n] and [d]. *)
Fixpoint log10Up (fuel : nat) (n d : Z) (acc : Z) : Z :=
  match fuel with
  | O => acc
  | S fuel' =>
      if d * 10 <=? n then log10Up fuel' n (d * 10) (acc + 1) else acc
  end.

Fixpoint log10Down (fuel : nat) (n d : Z) (acc : Z) : Z :=
  match fuel with
  | O => acc
  | S fuel' =>
      if n <? d then log10Down fuel' (n * 10) d (acc - 1) else acc
  end.

Definition floorLog10 (n d : Z) : Z :=
  if d <=? n then log10Up 400 n d 0 else log10Down 400 n d 0.

(** The digits of [Number::toString]: the fewest digits [k] for which
    some [s] of [k] digits makes [s * 10^(E - k + 1)] read back as [f];
    among those the nearest to [f], the even one on a tie. *)
Fixpoint shortestDigits (fuel : nat) (k : Z) (f : float) (neg : bool)
    (n d E : Z) : Decimal :=
  let p := E - k + 1 in
  let '(n', d') :=
    if 0 <=? p then (n, d * 10 ^ p) else (n * 10 ^ (- p), d) in
  let lo := n' / d' in
  let r := n' mod d' in
  let hi := lo + 1 in
  let pick s :=
    let '(c, e) := Decimal.normalise (Z.to_N s) p in Decimal.Fin neg c e in
  let okLo := (toNumber (pick lo) =? f)%float in
  let okHi := (toNumber (pick hi) =? f)%float in
  let preferHi := match 2 * r ?= d' with
                  | Gt => true
                  | Lt => false
                  | Eq => Z.odd lo
                  end in
  match fuel with
  | O => pick (if preferHi then hi else lo)
  | S fuel' =>
      if okLo && okHi then pick (if preferHi then hi else lo)
      else if okLo then pick lo
      else if okHi then pick hi
      else shortestDigits fuel' (k + 1) f neg n d E
  end.

(** [new Decimal(f)] for a number [f]: the decimal its shortest digits
    spell. *)
Definition ofNumber (f : float) : Decimal :=
  match Prim2SF f with
  | S754_nan => Decimal.NaN
  | S754_infinity s => Decimal.Inf s
  | S754_zero s => Decimal.Fin s 0 0
  | S754_finite s m e =>
      let '(n, d) := if 0 <=? e then (Zpos m * 2 ^ e, 1)
                     else (Zpos m, 2 ^ (- e)) in
      shortestDigits 17 1 f s n d (floorLog10 n d)
  end.

Definition LN2 : float := 0x1.62e42fefa39efp-1%float.
Definition SQRT1_2 : float := 0x1.6a09e667f3bcdp-1%float.

Definition floorZ (f : float) : Z :=
  match Prim2SF f with
  | S754_finite s m e =>
      if 0 <=? e then (if s then - (Zpos m * 2 ^ e) else Zpos m * 2 ^ e)
      else if s then - ((Zpos m + 2 ^ (- e) - 1) / 2 ^ (- e))
      else Zpos m / 2 ^ (- e)
  | _ => 0
  end.

Definition isInteger (f : float) : bool :=
  match Prim2SF f with
  | S754_zero _ => true
  | S754_finite _ m e => if 0 <=? e then true else Zpos m mod 2 ^ (- e) =? 0
  | _ => false
  end.

Definition isOddInteger (f : float) : bool :=
  isInteger f && Z.odd (floorZ f).

Fixpoint atanhSeries (n : nat) (k : Z) (s2 term acc : float) : float :=
  match n with
  | O => acc
  | S n' =>
      let term := (term * s2)%float in
      atanhSeries n' (k + 2) s2 term (acc + term / floatOfZ (k + 2))%float
  end.

(** Natural logarithm of a positive finite number, by the series of
    [atanh] on the mantissa. *)
Definition ln (x : float) : float :=
  let '(m, e) := Z.frexp x in
  let '(m, e) := if (m <? SQRT1_2)%float then ((m * 2)%float, e - 1)
                 else (m, e) in
  let s := ((m - 1) / (m + 1))%float in
  (2 * atanhSeries 14 1 (s * s) s s + floatOfZ e * LN2)%float.

Fixpoint expSeries (n : nat) (k : Z) (r term acc : float) : float :=
  match n with
  | O => acc
  | S n' =>
      let term := (term * r / floatOfZ k)%float in
      expSeries n' (k + 1) r term (acc + term)%float
  end.

Definition exp (z : float) : float :=
  if (z <? -746)%float then 0%float
  else if (710 <? z)%float then infinity
  else
    let k := floorZ (z / LN2 + 0.5)%float in
    let r := (z - floatOfZ k * LN2)%float in
    Z.ldexp (expSeries 20 1 r 1 1) k.

(** [Math.pow(base, exponent)]: the cases of Number::exponentiate, then
    [exp (exponent * ln |base|)]. *)
Definition Math_pow (base exponent : float) : float :=
  if is_nan exponent then nan
  else if is_zero exponent then 1%float
  else if is_nan base then nan
  else if is_infinity exponent then
    if (abs base =? 1)%float then nan
    else if Bool.eqb (1 <? abs base)%float (0 <? exponent)%float
         then infinity else 0%float
  else
    let negative := get_sign base in
    let odd := isOddInteger exponent in
    if is_infinity base || is_zero base then
      let large := Bool.eqb (is_infinity base) (0 <? exponent)%float in
      let r := if large then infinity else 0%float in
      if negative && odd then (- r)%float else r
    else if negative && negb (isInteger exponent) then nan
    else
      let r := exp (exponent * ln (abs base))%float in
      if negative && odd then (- r)%float else r.

Definition host : JSHost :=
  Build_JSHost getFullYear getMonth setMonth Math_pow toNumber ofNumber.

End UTCHost.

(** ** Statements about a step of the table *)

Section Specifications.
Context `{JSHost}.

Import Decimal.

(** What row [month] holds once [calculateMonth] has run, in terms of the
    row before it: the fields of the stepper and of the return metrics
    (the two analytic fields apart). *)
Record RowStep (this : InvestmentCalculator) (prevRow : TableRow.t)
    (month : Z) (row : TableRow.t) : Prop := {
  step_month : TableRow.month row = month;
  step_date :
    TableRow.date row =
    setMonth (Global.start_date (InvestmentConfig.global (config this)))
             (getMonth (Global.start_date
                          (InvestmentConfig.global (config this)))
              + month);
  step_startingPrinciple :
    TableRow.startingPrinciple row =
    (if gt (Global.monthly_contribution
              (InvestmentConfig.global (config this))) (ofZ 0)
     then plus (TableRow.endingPrinciple prevRow)
               (Global.monthly_contribution
                  (InvestmentConfig.global (config this)))
     else TableRow.endingPrinciple prevRow);
  step_cumulativeContributions :
    TableRow.cumulativeContributions row =
    (if gt (Global.monthly_contribution
              (InvestmentConfig.global (config this))) (ofZ 0)
     then plus (TableRow.cumulativeContributions prevRow)
               (Global.monthly_contribution
                  (InvestmentConfig.global (config this)))
     else TableRow.cumulativeContributions prevRow);
  step_returns :
    TableRow.returns row =
    mul (TableRow.startingPrinciple row) (getMonthlyReturnRate this month);
  step_fees :
    TableRow.fees row =
    calculateMonthlyFees this
      (plus (TableRow.startingPrinciple row) (TableRow.returns row));
  step_endingPrinciple :
    TableRow.endingPrinciple row =
    minus (plus (TableRow.startingPrinciple row) (TableRow.returns row))
          (TableRow.fees row);
  step_cumulativeFees :
    TableRow.cumulativeFees row =
    plus (TableRow.cumulativeFees prevRow) (TableRow.fees row);
  step_valueWithoutFees :
    TableRow.valueWithoutFees row =
    (if gt (Global.monthly_contribution
              (InvestmentConfig.global (config this))) (ofZ 0)
     then plus (plus (TableRow.valueWithoutFees prevRow)
                     (Global.monthly_contribution
                        (InvestmentConfig.global (config this))))
               (mul (plus (TableRow.valueWithoutFees prevRow)
                          (Global.monthly_contribution
                             (InvestmentConfig.global (config this))))
                    (getMonthlyReturnRate this month))
     else plus (TableRow.valueWithoutFees prevRow)
               (mul (TableRow.valueWithoutFees prevRow)
                    (getMonthlyReturnRate this month)));
  step_feesPercentage :
    TableRow.feesPercentage row =
    mul (div (TableRow.fees row) (TableRow.startingPrinciple row))
        (ofZ 100);
  step_momGrossReturnRate :
    TableRow.momGrossReturnRate row =
    mul (getMonthlyReturnRate this month) (ofZ 100);
  step_totalGrossReturnRate :
    TableRow.totalGrossReturnRate row =
    mul (minus (div (TableRow.valueWithoutFees row)
                    (TableRow.cumulativeContributions row)) (ofZ 1))
        (ofZ 100);
  step_momNetReturnRate :
    TableRow.momNetReturnRate row =
    mul (minus (div (TableRow.endingPrinciple row)
                    (TableRow.startingPrinciple row)) (ofZ 1))
        (ofZ 100);
  step_momNetExclContribReturnRate :
    TableRow.momNetExclContribReturnRate row =
    mul (minus (div (TableRow.endingPrinciple row)
                    (TableRow.endingPrinciple prevRow)) (ofZ 1))
        (ofZ 100);
  step_totalNetReturnRate :
    TableRow.totalNetReturnRate row =
    mul (minus (div (TableRow.endingPrinciple row)
                    (TableRow.cumulativeContributions row)) (ofZ 1))
        (ofZ 100);
}.

(** The contribution a month adds: none unless the configured amount
    is above zero. *)
Definition effectiveContribution (this : InvestmentCalculator)
    : option Decimal :=
  let c := Global.monthly_contribution
             (InvestmentConfig.global (config this)) in
  if gt c (ofZ 0) then Some c else None.

(** The solver as section 4.5 words it: with [budget] iterations left
    and the working rate [rate], the answer is [answer]. *)
Inductive SolverRun (cashFlows yearFractions : list float)
    : nat -> float -> float -> Prop :=
| run_exhausted rate :
    SolverRun cashFlows yearFractions 0 rate rate
| run_npv_converged budget rate npv derivative :
    calculateNPVAndDerivative cashFlows yearFractions rate
      = (npv, derivative) ->
    (abs npv <? PRECISION)%float = true ->
    SolverRun cashFlows yearFractions (S budget) rate rate
| run_flat_derivative budget rate npv derivative :
    calculateNPVAndDerivative cashFlows yearFractions rate
      = (npv, derivative) ->
    (abs npv <? PRECISION)%float = false ->
    (abs derivative <? PRECISION)%float = true ->
    SolverRun cashFlows yearFractions (S budget) rate rate
| run_rate_converged budget rate npv derivative :
    calculateNPVAndDerivative cashFlows yearFractions rate
      = (npv, derivative) ->
    (abs npv <? PRECISION)%float = false ->
    (abs derivative <? PRECISION)%float = false ->
    (abs (rate - npv / derivative - rate) <? PRECISION)%float = true ->
    SolverRun cashFlows yearFractions (S budget) rate
              (rate - npv / derivative)%float
| run_step budget rate npv derivative answer :
    calculateNPVAndDerivative cashFlows yearFractions rate
      = (npv, derivative) ->
    (abs npv <? PRECISION)%float = false ->
    (abs derivative <? PRECISION)%float = false ->
    (abs (rate - npv / derivative - rate) <? PRECISION)%float = false ->
    SolverRun cashFlows yearFractions budget
              (boundRate (rate - npv / derivative)%float) answer ->
    SolverRun cashFlows yearFractions (S budget) rate answer.

(** A period's return in percent: the ending value, less the contribution
    when there is one, over the starting value, minus one. *)
Definition periodReturn (contribution : option Decimal)
    (startValue endValue : Decimal) : Decimal :=
  match contribution with
  | Some c =>
      mul (minus (div (minus endValue c) startValue) (ofZ 1)) (ofZ 100)
  | None => mul (minus (div endValue startValue) (ofZ 1)) (ofZ 100)
  end.

(** The ending principal of month [month] by the mechanics of the
    stepper (section 4.2), from the row before: contribution, return at
    the rate resolved for the month, fee. *)
Definition replayedEndingPrinciple (this : InvestmentCalculator)
    (prevRow : TableRow.t) (month : Z) : Decimal :=
  let startingPrinciple :=
    match effectiveContribution this with
    | Some c => plus (TableRow.endingPrinciple prevRow) c
    | None => TableRow.endingPrinciple prevRow
    end in
  let monthlyReturn :=
    mul startingPrinciple (getMonthlyReturnRate this month) in
  let principleAfterReturns := plus startingPrinciple monthlyReturn in
  minus principleAfterReturns
        (calculateMonthlyFees this principleAfterReturns).

(** The time-weighted return of month [m] as section 4.4 words it: the
    returns of the periods 1..m-1 read from the table, the return of
    period [m] replayed, all linked. *)
Definition linkedPeriodReturns (this : InvestmentCalculator)
    (rows : list TableRow.t) (m : nat) : option Decimal :=
  completed ←
    mapM (fun i =>
            prevRow ← rows !! (i - 1)%nat;
            row ← rows !! i;
            Some (periodReturn (effectiveContribution this)
                    (TableRow.endingPrinciple prevRow)
                    (TableRow.endingPrinciple row)))
         (seq 1 (m - 1));
  prevRow ← rows !! (m - 1)%nat;
  Some (linkReturns
          (completed ++
           [ periodReturn (effectiveContribution this)
               (TableRow.endingPrinciple prevRow)
               (replayedEndingPrinciple this prevRow (Z.of_nat m)) ])).

(** A row without its money-weighted return: the principal trajectory
    and the metrics that follow from it. *)
Definition trajectory (row : TableRow.t) : TableRow.t :=
  TableRow.set_moneyWeightedReturn (ofZ 0) row.

(** The override of month [m]: the first entry of [monthlyReturns] for
    that month, if there is one. *)
Definition overrideFor (cfg : InvestmentConfig.t) (m : Z)
    : option MonthlyReturn.t :=
  match InvestmentConfig.monthlyReturns cfg with
  | Some monthlyReturns =>
      List.find (fun r => MonthlyReturn.month r =? m) monthlyReturns
  | None => None
  end.

(** The same configuration with another monthly contribution. *)
Definition withContribution (cfg : InvestmentConfig.t) (c : Decimal)
    : InvestmentConfig.t :=
  let g := InvestmentConfig.global cfg in
  {| InvestmentConfig.fees := InvestmentConfig.fees cfg;
     InvestmentConfig.returns := InvestmentConfig.returns cfg;
     InvestmentConfig.monthlyReturns := InvestmentConfig.monthlyReturns cfg;
     InvestmentConfig.global :=
       {| Global.time_unit := Global.time_unit g;
          Global.start_date := Global.start_date g;
          Global.end_date := Global.end_date g;
          Global.starting_principle := Global.starting_principle g;
          Global.quote_currency := Global.quote_currency g;
          Global.monthly_contribution := c;
          Global.num_months := Global.num_months g |} |}.

(** A table as [calculateAllMonths] leaves it after [k] months: row 0 is
    the initial row, each later row is a step from the row before it, and
    its two analytic fields are what the two calculators return on the
    table up to that row. *)
Record TableUpTo (this : InvestmentCalculator) (k : nat)
    (rows : list TableRow.t) : Prop := {
  upto_length : length rows = S k;
  upto_first : rows !! 0%nat = head (tableData (initializeTable this));
  upto_step : forall m : nat,
    (1 <= m <= k)%nat ->
    exists prevRow row,
      rows !! (m - 1)%nat = Some prevRow /\
      rows !! m = Some row /\
      RowStep this prevRow (Z.of_nat m) row /\
      calculateTimeWeightedReturn
        (with_tableData this (take (S m) rows)) (Z.of_nat m) =
        Ok (TableRow.timeWeightedReturn row) /\
      calculateMoneyWeightedReturn
        (with_tableData this (take (S m) rows)) (Z.of_nat m) =
        Ok (TableRow.moneyWeightedReturn row);
}.

End Specifications.

(** ** Statements about the whole table *)

(** The form in which an operation of decimal.js returns a number: at
    most 20 digits, no trailing zero, and zero as 0e0. *)
Definition canonical (x : Decimal) : bool :=
  match x with
  | Decimal.Fin _ c e =>
      (c <? 10 ^ Decimal.precision)%N
      && (if (c =? 0)%N then e =? 0 else negb (c mod 10 =? 0)%N)
  | _ => true
  end.

(** Neither NaN nor an infinity. *)
Definition isFinite (x : Decimal) : bool :=
  match x with Decimal.Fin _ _ _ => true | _ => false end.

Section TableStatements.
Context `{JSHost}.
Import Decimal.

(** The returns of the periods 1..m-1, each from the ending principals of
    two consecutive rows, as the loop of [calculateTimeWeightedReturn]
    collects them for month [m]. *)
Definition completedPeriodReturns (this : InvestmentCalculator)
    (rows : list TableRow.t) (m : nat) : option (list Decimal) :=
  mapM (fun i =>
          prevRow ← rows !! (i - 1)%nat;
          row ← rows !! i;
          Some (periodReturn (effectiveContribution this)
                  (TableRow.endingPrinciple prevRow)
                  (TableRow.endingPrinciple row)))
       (seq 1 (m - 1)).

(** The return of the period after [prevRow] as
    [calculateTimeWeightedReturn] replays it: at the default rate, from
    the ending principal of [prevRow] plus the contribution, which is a
    decimal zero when the configured one is not above zero. *)
Definition defaultRatePeriodReturn (this : InvestmentCalculator)
    (prevRow : TableRow.t) : Decimal :=
  let contribution := default (ofZ 0) (effectiveContribution this) in
  periodReturn (effectiveContribution this)
    (TableRow.endingPrinciple prevRow)
    (endingPrincipleAtDefaultRate this
       (plus (TableRow.endingPrinciple prevRow) contribution)).

(** The schedule of month [m], as [calculateMoneyWeightedReturn] builds
    it when the contribution is not zero: the starting principal out at
    the start date, the contribution out 1..m months after it, and
    [finalValue] in [m] months after it. *)
Definition scheduleCashFlows (cfg : InvestmentConfig.t) (m : nat)
    (finalValue : Decimal) : list float :=
  let global := InvestmentConfig.global cfg in
  (- toNumber (Global.starting_principle global))%float
  :: replicate m (- toNumber (Global.monthly_contribution global))%float
  ++ [ toNumber finalValue ].

Definition monthsAfterStart (cfg : InvestmentConfig.t) (i : Z) : Date :=
  let start_date := Global.start_date (InvestmentConfig.global cfg) in
  setMonth start_date (getMonth start_date + i).

Definition scheduleDates (cfg : InvestmentConfig.t) (m : nat) : list Date :=
  Global.start_date (InvestmentConfig.global cfg)
  :: ((fun i : nat => monthsAfterStart cfg (Z.of_nat i)) <$> seq 1 m)
  ++ [ monthsAfterStart cfg (Z.of_nat m) ].

(** The same configuration with another [num_months]. *)
Definition withNumMonths (cfg : InvestmentConfig.t) (n : Z)
    : InvestmentConfig.t :=
  let g := InvestmentConfig.global cfg in
  {| InvestmentConfig.fees := InvestmentConfig.fees cfg;
     InvestmentConfig.returns := InvestmentConfig.returns cfg;
     InvestmentConfig.monthlyReturns := InvestmentConfig.monthlyReturns cfg;
     InvestmentConfig.global :=
       {| Global.time_unit := Global.time_unit g;
          Global.start_date := Global.start_date g;
          Global.end_date := Global.end_date g;
          Global.starting_principle := Global.starting_principle g;
          Global.quote_currency := Global.quote_currency g;
          Global.monthly_contribution := Global.monthly_contribution g;
          Global.num_months := n |} |}.

(** What the calculator reads of a fee, of an entry of [monthlyReturns],
    and of a configuration: the numbers, none of the labels. *)
Definition feeRate (fee : Fee.t) : Decimal * Decimal :=
  (Fee.value fee, Fee.applied_time_unit fee).

Definition overrideNumbers (r : MonthlyReturn.t) : Z * Decimal * bool :=
  (MonthlyReturn.month r, MonthlyReturn.value r, MonthlyReturn.isEmpty r).

Definition readByCalculator (cfg : InvestmentConfig.t)
    : list (Decimal * Decimal) * (Decimal * Decimal)
      * option (list (Z * Decimal * bool))
      * (Date * Decimal * Decimal) * Z :=
  let returns := InvestmentConfig.returns cfg in
  let global := InvestmentConfig.global cfg in
  (fmap (M := list) feeRate (InvestmentConfig.fees cfg),
   (Returns.value returns, Returns.applied_time_unit returns),
   fmap (M := option) (fmap (M := list) overrideNumbers)
        (InvestmentConfig.monthlyReturns cfg),
   (Global.start_date global, Global.starting_principle global,
    Global.monthly_contribution global),
   calculateMonthDifference cfg).

(** The same configuration with other [monthlyReturns]. *)
Definition withMonthlyReturns (cfg : InvestmentConfig.t)
    (monthlyReturns : option (list MonthlyReturn.t)) : InvestmentConfig.t :=
  {| InvestmentConfig.fees := InvestmentConfig.fees cfg;
     InvestmentConfig.returns := InvestmentConfig.returns cfg;
     InvestmentConfig.monthlyReturns := monthlyReturns;
     InvestmentConfig.global := InvestmentConfig.global cfg |}.

End TableStatements.

(** ** Configurations to run *)

Module Samples.
Import UTCHost.

#[local] Existing Instance host.

Definition annualFee (value : Decimal) : Fee.t :=
  {| Fee.name := "annual_advisor_fee";
     Fee.description := "prorata";
     Fee.type := "simple_rate";
     Fee.value := value;
     Fee.quote_time_unit := "year";
     Fee.applied_time_unit := Decimal.ofZ 12 |}.

Definition annualReturns (value : Decimal) : Returns.t :=
  {| Returns.type := "simple_rate";
     Returns.value := value;
     Returns.quote_time_unit := "year";
     Returns.applied_time_unit := Decimal.ofZ 12 |}.

Definition globalOf (starting_principle monthly_contribution : Decimal)
    (num_months : Z) : Global.t :=
  {| Global.time_unit := "month";
     Global.start_date := utc 2024 1 1;
     Global.end_date := utc 2025 1 1;
     Global.starting_principle := starting_principle;
     Global.quote_currency := "GBP";
     Global.monthly_contribution := monthly_contribution;
     Global.num_months := num_months |}.

(** [defaultConfig]: a 3% annual fee, a 12% annual return, 10000 to start
    with, 1000 a month, 240 months. *)
Definition defaultConfig : InvestmentConfig.t :=
  {| InvestmentConfig.fees := [ annualFee (Decimal.dec false 3 (-2)) ];
     InvestmentConfig.returns := annualReturns (Decimal.dec false 12 (-2));
     InvestmentConfig.monthlyReturns := None;
     InvestmentConfig.global :=
       globalOf (Decimal.ofZ 10000) (Decimal.ofZ 1000) 240 |}.

(** 100 to start with, no contribution, a 12% annual return and a 12%
    annual fee, both applied monthly. *)
Definition returnsThenFees : InvestmentConfig.t :=
  {| InvestmentConfig.fees := [ annualFee (Decimal.dec false 12 (-2)) ];
     InvestmentConfig.returns := annualReturns (Decimal.dec false 12 (-2));
     InvestmentConfig.monthlyReturns := None;
     InvestmentConfig.global :=
       globalOf (Decimal.ofZ 100) (Decimal.ofZ 0) 12 |}.

(** 100 to start with, no contribution, no fee, a 12% annual return, and
    a return of 5% given for month 1. *)
Definition overriddenMonth : InvestmentConfig.t :=
  {| InvestmentConfig.fees := [];
     InvestmentConfig.returns := annualReturns (Decimal.dec false 12 (-2));
     InvestmentConfig.monthlyReturns :=
       Some [ {| MonthlyReturn.month := 1;
                 MonthlyReturn.value := Decimal.ofZ 5;
                 MonthlyReturn.date := None;
                 MonthlyReturn.isEmpty := false |} ];
     InvestmentConfig.global :=
       globalOf (Decimal.ofZ 100) (Decimal.ofZ 0) 2 |}.

(** A fee quoted at -12% a year (a rebate), no return, 100 to start
    with. *)
Definition rebate : InvestmentConfig.t :=
  {| InvestmentConfig.fees := [ annualFee (Decimal.dec true 12 (-2)) ];
     InvestmentConfig.returns := annualReturns (Decimal.ofZ 0);
     InvestmentConfig.monthlyReturns := None;
     InvestmentConfig.global :=
       globalOf (Decimal.ofZ 100) (Decimal.ofZ 0) 1 |}.

(** A monthly contribution of -10: a withdrawal. *)
Definition withdrawal : InvestmentConfig.t :=
  {| InvestmentConfig.fees := [ annualFee (Decimal.dec false 12 (-2)) ];
     InvestmentConfig.returns := annualReturns (Decimal.dec false 12 (-2));
     InvestmentConfig.monthlyReturns := None;
     InvestmentConfig.global :=
       globalOf (Decimal.ofZ 100) (Decimal.ofZ (-10)) 3 |}.

(** 1 to start with, 1000 a month, a 12% annual fee, no return, two
    months. *)
Definition twoMonths : InvestmentConfig.t :=
  {| InvestmentConfig.fees := [ annualFee (Decimal.dec false 12 (-2)) ];
     InvestmentConfig.returns := annualReturns (Decimal.ofZ 0);
     InvestmentConfig.monthlyReturns := None;
     InvestmentConfig.global :=
       globalOf (Decimal.ofZ 1) (Decimal.ofZ 1000) 2 |}.

(** A starting principal of 22 digits, 100000000000000000000.4, and a
    contribution of 0.01 a month; no fee, no return. *)
Definition longPrincipal : InvestmentConfig.t :=
  {| InvestmentConfig.fees := [];
     InvestmentConfig.returns := annualReturns (Decimal.ofZ 0);
     InvestmentConfig.monthlyReturns := None;
     InvestmentConfig.global :=
       globalOf (Decimal.dec false 1000000000000000000004 (-1))
                (Decimal.dec false 1 (-2)) 1 |}.

(** [twoMonths] under other labels: the fee renamed, typed otherwise and
    quoted by the month, and so the return; another time unit and
    currency; an end date that [num_months] overrides. *)
Definition relabelled : InvestmentConfig.t :=
  {| InvestmentConfig.fees :=
       [ {| Fee.name := "platform_fee";
            Fee.description := "flat";
            Fee.type := "compound_rate";
            Fee.value := Decimal.dec false 12 (-2);
            Fee.quote_time_unit := "month";
            Fee.applied_time_unit := Decimal.ofZ 12 |} ];
     InvestmentConfig.returns :=
       {| Returns.type := "compound_rate";
          Returns.value := Decimal.ofZ 0;
          Returns.quote_time_unit := "month";
          Returns.applied_time_unit := Decimal.ofZ 12 |};
     InvestmentConfig.monthlyReturns := None;
     InvestmentConfig.global :=
       {| Global.time_unit := "year";
          Global.start_date := utc 2024 1 1;
          Global.end_date := utc 2031 6 1;
          Global.starting_principle := Decimal.ofZ 1;
          Global.quote_currency := "USD";
          Global.monthly_contribution := Decimal.ofZ 1000;
          Global.num_months := 2 |} |}.

(** [twoMonths] with a return of 12% a year and a fee of 3% whose applied
    time unit is 0: the monthly fee rate is 0.03 / 0, Infinity. *)
Definition zeroUnitFee : InvestmentConfig.t :=
  {| InvestmentConfig.fees :=
       [ {| Fee.name := "annual_advisor_fee";
            Fee.description := "prorata";
            Fee.type := "simple_rate";
            Fee.value := Decimal.dec false 3 (-2);
            Fee.quote_time_unit := "year";
            Fee.applied_time_unit := Decimal.ofZ 0 |} ];
     InvestmentConfig.returns := annualReturns (Decimal.dec false 12 (-2));
     InvestmentConfig.monthlyReturns := None;
     InvestmentConfig.global :=
       globalOf (Decimal.ofZ 1) (Decimal.ofZ 1000) 2 |}.

(** Nothing to start with, 1000 a month. *)
Definition fromNothing : InvestmentConfig.t :=
  {| InvestmentConfig.fees := [ annualFee (Decimal.dec false 3 (-2)) ];
     InvestmentConfig.returns := annualReturns (Decimal.dec false 12 (-2));
     InvestmentConfig.monthlyReturns := None;
     InvestmentConfig.global :=
       globalOf (Decimal.ofZ 0) (Decimal.ofZ 1000) 3 |}.

(** A monthly return of [percent] percent entered for [month]. *)
Definition percentInMonth (month : Z) (percent : Z) : MonthlyReturn.t :=
  {| MonthlyReturn.month := month;
     MonthlyReturn.value := Decimal.ofZ percent;
     MonthlyReturn.date := None;
     MonthlyReturn.isEmpty := false |}.

(** The tables [calculate] returns on this host, evaluated. *)
Definition tableOf (cfg : InvestmentConfig.t) : list TableRow.t :=
  match calculateInvestment cfg with
  | Ok rows => rows
  | Throw _ => []
  end.

Definition twoMonthsTable : list TableRow.t :=
  Eval vm_compute in tableOf twoMonths.

Definition rebateTable : list TableRow.t :=
  Eval vm_compute in tableOf rebate.

Definition overriddenMonthTable : list TableRow.t :=
  Eval vm_compute in tableOf overriddenMonth.

Definition longPrincipalTable : list TableRow.t :=
  Eval vm_compute in tableOf longPrincipal.

Definition zeroUnitFeeTable : list TableRow.t :=
  Eval vm_compute in tableOf zeroUnitFee.

End Samples.

(** * Properties *)

(** ** The order of decimals under rounding *)

Module DecimalFacts.
Import Decimal.

Lemma pow10_pos (k : Z) : 0 <= k -> 0 < 10 ^ k.
Proof. intros. apply Z.pow_pos_nonneg; lia. Qed.

Lemma pow10_succ (k : Z) : 0 <= k -> 10 ^ (k + 1) = 10 * 10 ^ k.
Proof. intros. rewrite Z.pow_add_r by lia. lia. Qed.

Lemma valLe_neg_pos s1 e1 s2 e2 : s1 <= 0 -> 0 <= s2 -> valLe s1 e1 s2 e2.
Proof.
  intros H1 H2. unfold valLe.
  destruct (Z.leb_spec e1 e2).
  - pose proof (pow10_pos (e2 - e1)). nia.
  - pose proof (pow10_pos (e1 - e2)). nia.
Qed.

Lemma valLe_opp s1 e1 s2 e2 :
  valLe s1 e1 s2 e2 -> valLe (- s2) e2 (- s1) e1.
Proof.
  unfold valLe.
  destruct (Z.leb_spec e1 e2), (Z.leb_spec e2 e1); intros Hle.
  - replace e2 with e1 in * by lia. rewrite Z.sub_diag in *. lia.
  - lia.
  - lia.
  - lia.
Qed.

Lemma valLe_refl s e : valLe s e s e.
Proof. unfold valLe. rewrite Z.leb_refl, Z.sub_diag. lia. Qed.

(** One digit dropped from an upper bound, rounding whichever way, keeps
    it above a coefficient of at most 20 digits. *)
Lemma lower_step s e1 C E q :
  0 <= s < 10 ^ 20 -> 10 ^ 19 <= q -> C / 10 <= q ->
  valLe s e1 C E -> valLe s e1 q (E + 1).
Proof.
  intros Hs Hq Hdiv. unfold valLe.
  destruct (Z.leb_spec e1 E), (Z.leb_spec e1 (E + 1)); try lia; intros Hle.
  - pose proof (pow10_pos (E + 1 - e1) ltac:(lia)).
    replace (E + 1 - e1) with ((E - e1) + 1) by lia.
    rewrite pow10_succ by lia.
    pose proof (pow10_pos (E - e1) ltac:(lia)). nia.
  - replace e1 with (E + 1) in * by lia.
    replace (E + 1 - E) with 1 in Hle by lia.
    rewrite Z.sub_diag. change (10 ^ 1) with 10 in Hle.
    assert (s <= C / 10) by (apply Z.div_le_lower_bound; lia). lia.
  - replace (e1 - E) with ((e1 - (E + 1)) + 1) in Hle by lia.
    rewrite pow10_succ in Hle by lia.
    assert (s * 10 ^ (e1 - (E + 1)) <= C / 10)
      by (apply Z.div_le_lower_bound; lia).
    lia.
Qed.

Lemma upper_step C E M e1 q :
  0 <= M < 10 ^ 20 -> 10 ^ 20 <= C -> q <= (C + 5) / 10 ->
  valLe C E M e1 -> valLe q (E + 1) M e1.
Proof.
  intros HM HC Hq. unfold valLe.
  destruct (Z.leb_spec E e1) as [H1|H1];
    destruct (Z.leb_spec (E + 1) e1) as [H2|H2]; intros Hle.
  - replace (e1 - E) with ((e1 - (E + 1)) + 1) in Hle by lia.
    rewrite pow10_succ in Hle by lia.
    set (M' := M * 10 ^ (e1 - (E + 1))) in *.
    assert ((C + 5) / 10 < M' + 1); [|lia].
    apply Z.div_lt_upper_bound; lia.
  - exfalso. replace e1 with E in * by lia.
    rewrite Z.sub_diag in Hle. lia.
  - lia.
  - exfalso. pose proof (pow10_pos (E - e1) ltac:(lia)). nia.
Qed.

(** Coefficients and their scaled forms, in [Z]. *)
Lemma of_N_scale c e E :
  E <= e -> Z.of_N (scale c e E) = Z.of_N c * 10 ^ (e - E).
Proof.
  intros H. unfold scale.
  rewrite N2Z.inj_mul, N2Z.inj_pow, Z2N.id by lia. reflexivity.
Qed.

Lemma signed_scale n c e E :
  E <= e -> signed n (scale c e E) = signed n c * 10 ^ (e - E).
Proof.
  intros H. unfold signed. rewrite of_N_scale by exact H.
  destruct n; lia.
Qed.

(** [y.gte(x)] on finite decimals is the order of the values. *)
Lemma gte_fin n2 c2 e2 n1 c1 e1 :
  gte (Fin n2 c2 e2) (Fin n1 c1 e1) = true <->
  valLe (signed n1 c1) e1 (signed n2 c2) e2.
Proof.
  unfold gte, cmp, valLe.
  rewrite !signed_scale by lia.
  destruct (Z.leb_spec e1 e2).
  - rewrite Z.min_r by lia. rewrite Z.sub_diag, Z.mul_1_r.
    destruct (Z.compare_spec (signed n2 c2 * 10 ^ (e2 - e1)) (signed n1 c1));
      split; intros; try lia; try discriminate; reflexivity.
  - rewrite Z.min_l by lia. rewrite Z.sub_diag, Z.mul_1_r.
    destruct (Z.compare_spec (signed n2 c2) (signed n1 c1 * 10 ^ (e1 - e2)));
      split; intros; try lia; try discriminate; reflexivity.
Qed.

(** *** Rounding *)

Lemma truncTo21_lower fuel s e1 c e :
  0 <= s < 10 ^ 20 ->
  valLe s e1 (Z.of_N c) e ->
  valLe s e1 (Z.of_N (fst (truncTo21 fuel c e))) (snd (truncTo21 fuel c e)).
Proof.
  intros Hs. revert c e.
  induction fuel as [|fuel IH]; intros c e Hle; simpl; [exact Hle|].
  destruct (N.leb_spec (10 ^ (precision + 1)) c) as [Hc|Hc]; [|exact Hle].
  apply IH. rewrite N2Z.inj_div.
  change (10 ^ (precision + 1))%N with (10 ^ 21)%N in Hc.
  assert (10 ^ 21 <= Z.of_N c) by lia.
  apply (lower_step s e1 (Z.of_N c)); try assumption; try lia.
  change (Z.of_N 10) with 10.
  apply Z.div_le_lower_bound; lia.
Qed.

Lemma truncTo21_upper fuel M e1 c e :
  0 <= M < 10 ^ 20 ->
  valLe (Z.of_N c) e M e1 ->
  valLe (Z.of_N (fst (truncTo21 fuel c e))) (snd (truncTo21 fuel c e)) M e1.
Proof.
  intros HM. revert c e.
  induction fuel as [|fuel IH]; intros c e Hle; simpl; [exact Hle|].
  destruct (N.leb_spec (10 ^ (precision + 1)) c) as [Hc|Hc]; [|exact Hle].
  apply IH. rewrite N2Z.inj_div.
  change (10 ^ (precision + 1))%N with (10 ^ 21)%N in Hc.
  assert (10 ^ 21 <= Z.of_N c) by lia.
  apply (upper_step (Z.of_N c)); try assumption; try lia.
  change (Z.of_N 10) with 10.
  apply Z.div_le_mono; lia.
Qed.

Lemma truncTo21_bound fuel c e :
  (c < 2 ^ N.of_nat fuel)%N ->
  (fst (truncTo21 fuel c e) < 10 ^ 21)%N.
Proof.
  revert c e. induction fuel as [|fuel IH]; intros c e Hc; simpl.
  - change (2 ^ N.of_nat 0)%N with 1%N in Hc. lia.
  - destruct (N.leb_spec (10 ^ (precision + 1)) c) as [H|H].
    + apply IH. rewrite Nat2N.inj_succ, N.pow_succ_r' in Hc.
      apply N.Div0.div_lt_upper_bound; lia.
    + exact H.
Qed.

Lemma size_nat_size (c : N) : N.of_nat (N.size_nat c) = N.size c.
Proof.
  destruct c as [|p]; [reflexivity|]. simpl.
  induction p as [p IH|p IH|]; simpl; try reflexivity.
  - rewrite Nat2N.inj_succ, IH. reflexivity.
  - rewrite Nat2N.inj_succ, IH. reflexivity.
Qed.

Lemma lt_pow2_size_nat (c : N) : (c < 2 ^ N.of_nat (N.size_nat c))%N.
Proof. rewrite size_nat_size. apply N.size_gt. Qed.

Lemma roundHalfUp_lower s e1 c e :
  0 <= s < 10 ^ 20 ->
  valLe s e1 (Z.of_N c) e ->
  valLe s e1 (Z.of_N (fst (roundHalfUp c e))) (snd (roundHalfUp c e)).
Proof.
  intros Hs Hle. unfold roundHalfUp.
  pose proof (truncTo21_lower (N.size_nat c) s e1 c e Hs Hle) as Ht.
  destruct (truncTo21 (N.size_nat c) c e) as [c1 e1']. simpl in Ht.
  destruct (N.leb_spec (10 ^ precision) c1) as [Hc|Hc]; [|exact Ht].
  simpl. change (10 ^ precision)%N with (10 ^ 20)%N in Hc.
  assert (10 ^ 20 <= Z.of_N c1) by lia.
  rewrite N2Z.inj_div, N2Z.inj_add. change (Z.of_N 5) with 5.
  change (Z.of_N 10) with 10.
  apply (lower_step s e1 (Z.of_N c1)); try assumption.
  - apply Z.div_le_lower_bound; lia.
  - apply Z.div_le_mono; lia.
Qed.

Lemma roundHalfUp_upper M e1 c e :
  0 <= M < 10 ^ 20 ->
  valLe (Z.of_N c) e M e1 ->
  valLe (Z.of_N (fst (roundHalfUp c e))) (snd (roundHalfUp c e)) M e1.
Proof.
  intros HM Hle. unfold roundHalfUp.
  pose proof (truncTo21_upper (N.size_nat c) M e1 c e HM Hle) as Ht.
  destruct (truncTo21 (N.size_nat c) c e) as [c1 e1']. simpl in Ht.
  destruct (N.leb_spec (10 ^ precision) c1) as [Hc|Hc]; [|exact Ht].
  simpl. change (10 ^ precision)%N with (10 ^ 20)%N in Hc.
  assert (10 ^ 20 <= Z.of_N c1) by lia.
  rewrite N2Z.inj_div, N2Z.inj_add. change (Z.of_N 5) with 5.
  change (Z.of_N 10) with 10.
  apply (upper_step (Z.of_N c1)); try assumption. lia.
Qed.

Lemma roundHalfUp_bound c e : (fst (roundHalfUp c e) <= 10 ^ 20)%N.
Proof.
  unfold roundHalfUp.
  pose proof (truncTo21_bound (N.size_nat c) c e (lt_pow2_size_nat c)) as Hb.
  destruct (truncTo21 (N.size_nat c) c e) as [c1 e1']. simpl in Hb.
  destruct (N.leb_spec (10 ^ precision) c1) as [Hc|Hc]; simpl.
  - change (10 ^ 20)%N with ((10 ^ 21 + 9) / 10)%N.
    apply N.Div0.div_le_mono. lia.
  - change (10 ^ precision)%N with (10 ^ 20)%N in Hc. lia.
Qed.

(** *** Normalisation *)

Lemma stripZeros_value fuel c e :
  e <= snd (stripZeros fuel c e) /\
  Z.of_N c = Z.of_N (fst (stripZeros fuel c e))
             * 10 ^ (snd (stripZeros fuel c e) - e) /\
  (fst (stripZeros fuel c e) <= c)%N.
Proof.
  revert c e. induction fuel as [|fuel IH]; intros c e; simpl.
  - rewrite Z.sub_diag. lia.
  - destruct (N.eqb_spec (c mod 10) 0) as [Hmod|Hmod]; simpl.
    + destruct (IH (c / 10)%N (e + 1)) as [He [Hv Hc]].
      split; [lia|]. split.
      * replace (snd (stripZeros fuel (c / 10) (e + 1)) - e)
          with ((snd (stripZeros fuel (c / 10) (e + 1)) - (e + 1)) + 1)
          by lia.
        rewrite pow10_succ by lia.
        pose proof (N.Div0.div_mod c 10) as Hdm. rewrite Hmod in Hdm.
        assert (Hc10 : Z.of_N c = 10 * Z.of_N (c / 10)) by lia.
        rewrite Hc10, Hv. ring.
      * assert (c / 10 <= c)%N by (apply N.Div0.div_le_upper_bound; lia).
        lia.
    + rewrite Z.sub_diag. lia.
Qed.

Lemma normalise_value c e :
  snd (normalise c e) = 0 /\ c = 0%N /\ fst (normalise c e) = 0%N \/
  e <= snd (normalise c e) /\
  Z.of_N c = Z.of_N (fst (normalise c e)) * 10 ^ (snd (normalise c e) - e) /\
  (fst (normalise c e) <= c)%N.
Proof.
  unfold normalise. destruct (N.eqb_spec c 0) as [->|Hc]; simpl.
  - left. auto.
  - right. apply stripZeros_value.
Qed.

Lemma valLe_at E s1 e1 s2 e2 :
  E <= e1 -> E <= e2 ->
  valLe s1 e1 s2 e2 <-> s1 * 10 ^ (e1 - E) <= s2 * 10 ^ (e2 - E).
Proof.
  intros H1 H2. unfold valLe. destruct (Z.leb_spec e1 e2).
  - replace (e2 - E) with ((e2 - e1) + (e1 - E)) by lia.
    rewrite Z.pow_add_r by lia. rewrite Z.mul_assoc.
    apply Z.mul_le_mono_pos_r. apply pow10_pos. lia.
  - replace (e1 - E) with ((e1 - e2) + (e2 - E)) by lia.
    rewrite Z.pow_add_r by lia. rewrite Z.mul_assoc.
    apply Z.mul_le_mono_pos_r. apply pow10_pos. lia.
Qed.

Lemma valLe_scale_r s e1 c' e' e :
  e <= e' -> valLe s e1 (c' * 10 ^ (e' - e)) e -> valLe s e1 c' e'.
Proof.
  intros He Hle.
  apply (valLe_at (Z.min e1 e)) in Hle; [|lia|lia].
  apply (valLe_at (Z.min e1 e)); [lia|lia|].
  replace (e' - Z.min e1 e) with ((e' - e) + (e - Z.min e1 e)) by lia.
  rewrite Z.pow_add_r by lia. lia.
Qed.

Lemma valLe_scale_l M e1 c' e' e :
  e <= e' -> valLe (c' * 10 ^ (e' - e)) e M e1 -> valLe c' e' M e1.
Proof.
  intros He Hle.
  apply (valLe_at (Z.min e1 e)) in Hle; [|lia|lia].
  apply (valLe_at (Z.min e1 e)); [lia|lia|].
  replace (e' - Z.min e1 e) with ((e' - e) + (e - Z.min e1 e)) by lia.
  rewrite Z.pow_add_r by lia. lia.
Qed.

Lemma valLe_zero_r s e1 e2 : valLe s e1 0 e2 -> s <= 0.
Proof.
  unfold valLe. destruct (Z.leb_spec e1 e2); intros Hle; [lia|].
  pose proof (pow10_pos (e1 - e2) ltac:(lia)). nia.
Qed.

(** *** [finalise] *)

Lemma normalise_small c e :
  (c <= 10 ^ 20)%N -> (fst (normalise c e) < 10 ^ 20)%N.
Proof.
  intros Hc. destruct (N.eq_dec c (10 ^ 20)%N) as [->|Hne].
  - vm_compute. reflexivity.
  - destruct (normalise_value c e) as [[_ [_ H0]]|[_ [_ Hle]]].
    + rewrite H0. reflexivity.
    + lia.
Qed.

Lemma finalise_fin neg c e :
  finalise neg c e =
  Fin neg (fst (normalise (fst (roundHalfUp c e)) (snd (roundHalfUp c e))))
          (snd (normalise (fst (roundHalfUp c e)) (snd (roundHalfUp c e)))).
Proof.
  unfold finalise. destruct (roundHalfUp c e) as [c1 e1]. simpl.
  destruct (normalise c1 e1). reflexivity.
Qed.

Lemma finalise_rounded neg c e :
  exists c' e', finalise neg c e = Fin neg c' e' /\ (c' < 10 ^ 20)%N.
Proof.
  rewrite finalise_fin. eexists _, _. split; [reflexivity|].
  apply normalise_small, roundHalfUp_bound.
Qed.

Lemma finalise_lower neg s e1 c e :
  0 <= s < 10 ^ 20 ->
  valLe s e1 (Z.of_N c) e ->
  exists c' e', finalise neg c e = Fin neg c' e' /\
                (c' < 10 ^ 20)%N /\ valLe s e1 (Z.of_N c') e'.
Proof.
  intros Hs Hle. rewrite finalise_fin. eexists _, _.
  split; [reflexivity|]. split; [apply normalise_small, roundHalfUp_bound|].
  pose proof (roundHalfUp_lower s e1 c e Hs Hle) as Hr.
  destruct (roundHalfUp c e) as [c1 e1']. simpl in *.
  destruct (normalise_value c1 e1') as [[He [Hc Hn]]|[He [Hv _]]].
  - rewrite He, Hn. subst c1. simpl in *.
    apply valLe_neg_pos; [|lia]. exact (valLe_zero_r _ _ _ Hr).
  - apply (valLe_scale_r s e1 _ _ e1'); [exact He|]. now rewrite <- Hv.
Qed.

Lemma finalise_upper neg M e1 c e :
  0 <= M < 10 ^ 20 ->
  valLe (Z.of_N c) e M e1 ->
  exists c' e', finalise neg c e = Fin neg c' e' /\
                (c' < 10 ^ 20)%N /\ valLe (Z.of_N c') e' M e1.
Proof.
  intros HM Hle. rewrite finalise_fin. eexists _, _.
  split; [reflexivity|]. split; [apply normalise_small, roundHalfUp_bound|].
  pose proof (roundHalfUp_upper M e1 c e HM Hle) as Hr.
  destruct (roundHalfUp c e) as [c1 e1']. simpl in *.
  destruct (normalise_value c1 e1') as [[He [Hc Hn]]|[He [Hv _]]].
  - rewrite He, Hn. simpl. apply valLe_neg_pos; lia.
  - apply (valLe_scale_l M e1 _ _ e1'); [exact He|]. now rewrite <- Hv.
Qed.

(** *** Order facts of [plus] *)

Lemma gte_zero_fin n c e :
  gte (Fin n c e) (ofZ 0) = true -> 0 <= signed n c.
Proof.
  change (ofZ 0) with (Fin false 0 0). rewrite gte_fin.
  intros Hle. apply valLe_opp in Hle. apply valLe_zero_r in Hle.
  simpl in Hle. lia.
Qed.

Lemma gte_refl x : wellRounded x = true -> gte x x = true.
Proof.
  destruct x as [|n|n c e]; simpl; try discriminate.
  - intros _. unfold gte. simpl. now rewrite eqb_reflx.
  - intros _. apply gte_fin, valLe_refl.
Qed.

Lemma gt_gte x y : gt x y = true -> gte x y = true.
Proof. unfold gt, gte. destruct (cmp x y) as [[]|]; congruence. Qed.

Lemma signed_abs (s : Z) : signed (s <? 0) (Z.abs_N s) = s.
Proof.
  unfold signed. rewrite N2Z.inj_abs_N.
  destruct (Z.ltb_spec s 0); lia.
Qed.

(** Adding a decimal that is not below zero to a decimal of at most 20
    digits does not take the sum below it, whatever the rounding. *)
Lemma plus_gte x y :
  wellRounded x = true -> gte y (ofZ 0) = true ->
  gte (plus x y) x = true /\ wellRounded (plus x y) = true.
Proof.
  destruct x as [|n1|n1 c1 e1]; simpl; try discriminate.
  - (* x = +Infinity *)
    destruct n1; try discriminate. intros _.
    destruct y as [|n2|n2 c2 e2]; try discriminate.
    + destruct n2; [discriminate|]. intros _. split; reflexivity.
    + intros _. split; reflexivity.
  - intros Hx. apply N.ltb_lt in Hx.
    change (10 ^ precision)%N with (10 ^ 20)%N in Hx.
    destruct y as [|n2|n2 c2 e2]; try discriminate.
    + destruct n2; [discriminate|]. intros _. split; reflexivity.
    + intros Hy. apply gte_zero_fin in Hy.
      unfold plus.
      set (E := Z.min e1 e2).
      rewrite !signed_scale by (unfold E; lia).
      set (X := signed n1 c1 * 10 ^ (e1 - E)).
      set (Y := signed n2 c2 * 10 ^ (e2 - E)).
      assert (HY : 0 <= Y).
      { unfold Y. pose proof (pow10_pos (e2 - E) ltac:(unfold E; lia)).
        nia. }
      assert (HXle : valLe (signed n1 c1) e1 (X + Y) E).
      { apply (valLe_at E); [unfold E; lia | lia |].
        rewrite Z.sub_diag, Z.mul_1_r. fold X. lia. }
      destruct (Z.eqb_spec (X + Y) 0) as [H0|H0].
      * split; [|reflexivity].
        apply gte_fin. rewrite H0 in HXle.
        apply valLe_zero_r in HXle.
        apply valLe_neg_pos; [exact HXle|].
        unfold signed. destruct (_ && _); simpl; lia.
      * destruct (Z.ltb_spec (X + Y) 0) as [Hneg|Hpos].
        -- (* the sum is below zero, and so is [x] *)
           assert (Hp : 0 < 10 ^ (e1 - E))
             by (apply pow10_pos; unfold E; lia).
           assert (Hs1 : signed n1 c1 < 0) by (unfold X in Hneg; nia).
           assert (Hn1 : signed n1 c1 = - Z.of_N c1).
           { unfold signed in *. destruct n1; lia. }
           destruct (finalise_upper true (Z.of_N c1) e1
                       (Z.abs_N (X + Y)) E) as [c' [e' [Hf [Hc' Hle]]]].
           { lia. }
           { apply (valLe_at E); [lia | unfold E; lia |].
             rewrite Z.sub_diag, Z.mul_1_r, N2Z.inj_abs_N.
             unfold X in *. lia. }
           rewrite Hf. split.
           ++ apply gte_fin. rewrite Hn1.
              change (signed true c') with (- Z.of_N c').
              apply valLe_opp. exact Hle.
           ++ simpl. apply N.ltb_lt. exact Hc'.
        -- (* the sum is above zero *)
           destruct (Z.le_gt_cases (signed n1 c1) 0) as [Hs1|Hs1].
           ++ destruct (finalise_rounded false (Z.abs_N (X + Y)) E)
                as [c' [e' [Hf Hc']]].
              rewrite Hf. split.
              ** apply gte_fin. apply valLe_neg_pos; [exact Hs1|].
                 simpl. lia.
              ** simpl. apply N.ltb_lt. exact Hc'.
           ++ assert (Hn1 : signed n1 c1 = Z.of_N c1).
              { unfold signed in *. destruct n1; lia. }
              destruct (finalise_lower false (Z.of_N c1) e1
                          (Z.abs_N (X + Y)) E) as [c' [e' [Hf [Hc' Hle]]]].
              { lia. }
              { rewrite N2Z.inj_abs_N, Z.abs_eq by lia.
                rewrite <- Hn1. exact HXle. }
              rewrite Hf. split.
              ** apply gte_fin. rewrite Hn1. exact Hle.
              ** simpl. apply N.ltb_lt. exact Hc'.
Qed.
End DecimalFacts.

(** ** The forms of decimals *)

Module DecimalForms.
Import Decimal DecimalFacts.

Lemma stripZeros_stripped fuel c e :
  c <> 0%N -> (c < 2 ^ N.of_nat fuel)%N ->
  fst (stripZeros fuel c e) <> 0%N /\
  (fst (stripZeros fuel c e) mod 10 <> 0)%N.
Proof.
  revert c e. induction fuel as [|fuel IH]; intros c e Hc Hlt; simpl.
  - change (2 ^ N.of_nat 0)%N with 1%N in Hlt. lia.
  - destruct (N.eqb_spec (c mod 10) 0) as [Hmod|Hmod]; simpl; [|auto].
    pose proof (N.Div0.div_mod c 10) as Hdm. rewrite Hmod in Hdm.
    apply IH; [lia|].
    rewrite Nat2N.inj_succ, N.pow_succ_r' in Hlt.
    apply N.Div0.div_lt_upper_bound; lia.
Qed.

Lemma normalise_canonical neg c e :
  (fst (normalise c e) < 10 ^ precision)%N ->
  canonical (Fin neg (fst (normalise c e)) (snd (normalise c e))) = true.
Proof.
  intros Hlt. unfold canonical. apply andb_true_intro. split.
  - now apply N.ltb_lt.
  - unfold normalise. destruct (N.eqb_spec c 0) as [->|Hc]; [reflexivity|].
    destruct (stripZeros_stripped (N.size_nat c) c e Hc (lt_pow2_size_nat c))
      as [H0 Hmod].
    destruct (N.eqb_spec (fst (stripZeros (N.size_nat c) c e)) 0); [easy|].
    now destruct (N.eqb_spec (fst (stripZeros (N.size_nat c) c e) mod 10) 0).
Qed.

Lemma finalise_canonical neg c e : canonical (finalise neg c e) = true.
Proof.
  rewrite finalise_fin. apply normalise_canonical.
  apply normalise_small, roundHalfUp_bound.
Qed.

Lemma plus_canonical x y : canonical (plus x y) = true.
Proof.
  destruct x as [|n1|n1 c1 e1], y as [|n2|n2 c2 e2]; simpl; try reflexivity.
  - now destruct (Bool.eqb n1 n2).
  - destruct (_ =? 0); [reflexivity | apply finalise_canonical].
Qed.


(** Rounding is exact on a coefficient of at most 20 digits followed by
    zeros. *)
Lemma div10_pow (c : N) (j : nat) :
  ((c * 10 ^ N.of_nat (S j)) / 10 = c * 10 ^ N.of_nat j)%N.
Proof.
  rewrite Nat2N.inj_succ, N.pow_succ_r'.
  replace (c * (10 * 10 ^ N.of_nat j))%N with ((c * 10 ^ N.of_nat j) * 10)%N
    by lia.
  apply N.div_mul. lia.
Qed.

Lemma truncTo21_pow fuel c (j : nat) E :
  (c < 10 ^ 20)%N ->
  exists j' : nat,
    (j' <= j)%nat /\
    truncTo21 fuel (c * 10 ^ N.of_nat j) E =
    ((c * 10 ^ N.of_nat j')%N, E + Z.of_nat (j - j')).
Proof.
  intros Hc. revert j E.
  induction fuel as [|fuel IH]; intros j E; simpl.
  - exists j. split; [lia|]. now rewrite Nat.sub_diag, Z.add_0_r.
  - destruct (N.leb_spec (10 ^ (precision + 1)) (c * 10 ^ N.of_nat j))
      as [Hge|Hlt].
    + change (10 ^ (precision + 1))%N with (10 ^ 21)%N in Hge.
      destruct j as [|j]; [simpl in Hge; lia|].
      rewrite div10_pow.
      destruct (IH j (E + 1)) as [j' [Hj' Heq]].
      exists j'. split; [lia|]. rewrite Heq. f_equal. lia.
    + exists j. split; [lia|]. now rewrite Nat.sub_diag, Z.add_0_r.
Qed.

Lemma roundHalfUp_pow c (j : nat) E :
  (c < 10 ^ 20)%N ->
  exists j' : nat,
    (j' <= j)%nat /\
    roundHalfUp (c * 10 ^ N.of_nat j) E =
    ((c * 10 ^ N.of_nat j')%N, E + Z.of_nat (j - j')).
Proof.
  intros Hc. unfold roundHalfUp.
  destruct (truncTo21_pow (N.size_nat (c * 10 ^ N.of_nat j)) c j E Hc)
    as [j1 [Hj1 Heq]].
  rewrite Heq.
  destruct (N.leb_spec (10 ^ precision) (c * 10 ^ N.of_nat j1)) as [Hge|Hlt].
  - change (10 ^ precision)%N with (10 ^ 20)%N in Hge.
    destruct j1 as [|j2]; [simpl in Hge; lia|].
    exists j2. split; [lia|]. f_equal; [|lia].
    rewrite Nat2N.inj_succ, N.pow_succ_r'.
    replace (c * (10 * 10 ^ N.of_nat j2) + 5)%N
      with (5 + (c * 10 ^ N.of_nat j2) * 10)%N by lia.
    rewrite N.div_add by lia. reflexivity.
  - exists j1. split; [lia | reflexivity].
Qed.

Lemma stripZeros_pow fuel c (j : nat) E :
  (c mod 10 <> 0)%N -> (j < fuel)%nat ->
  stripZeros fuel (c * 10 ^ N.of_nat j) E = (c, E + Z.of_nat j).
Proof.
  intros Hmod. revert fuel E.
  induction j as [|j IH]; intros fuel E Hj;
    (destruct fuel as [|fuel]; [lia|]); simpl stripZeros.
  - simpl. rewrite N.mul_1_r.
    destruct (N.eqb_spec (c mod 10) 0); [contradiction|].
    now rewrite Z.add_0_r.
  - assert (Hz : ((c * 10 ^ N.of_nat (S j)) mod 10 = 0)%N).
    { rewrite Nat2N.inj_succ, N.pow_succ_r'.
      replace (c * (10 * 10 ^ N.of_nat j))%N
        with ((c * 10 ^ N.of_nat j) * 10)%N by lia.
      apply N.Div0.mod_mul. }
    rewrite Hz. simpl N.eqb. cbv iota.
    rewrite div10_pow, IH by lia. f_equal. lia.
Qed.

Lemma size_nat_pow c (j : nat) :
  c <> 0%N -> (j < N.size_nat (c * 10 ^ N.of_nat j))%nat.
Proof.
  intros Hc.
  pose proof (lt_pow2_size_nat (c * 10 ^ N.of_nat j)) as Hlt.
  destruct (Nat.lt_ge_cases j (N.size_nat (c * 10 ^ N.of_nat j)))
    as [|Hge]; [assumption|exfalso].
  assert (2 ^ N.of_nat (N.size_nat (c * 10 ^ N.of_nat j))
          <= 2 ^ N.of_nat j)%N by (apply N.pow_le_mono_r; lia).
  assert (2 ^ N.of_nat j <= 10 ^ N.of_nat j)%N
    by (apply N.pow_le_mono_l; lia).
  assert (10 ^ N.of_nat j <= c * 10 ^ N.of_nat j)%N by nia.
  lia.
Qed.

Lemma normalise_pow c (j : nat) E :
  (c mod 10 <> 0)%N ->
  normalise (c * 10 ^ N.of_nat j) E = (c, E + Z.of_nat j).
Proof.
  intros Hmod. unfold normalise.
  assert (Hc : c <> 0%N) by (intros ->; now apply Hmod).
  assert (Hp : (10 ^ N.of_nat j <> 0)%N) by (apply N.pow_nonzero; lia).
  destruct (N.eqb_spec (c * 10 ^ N.of_nat j) 0) as [H0|_]; [nia|].
  apply stripZeros_pow; [assumption | now apply size_nat_pow].
Qed.

Lemma finalise_exact neg c e (j : nat) :
  (c < 10 ^ 20)%N -> (c mod 10 <> 0)%N ->
  finalise neg (c * 10 ^ N.of_nat j) (e - Z.of_nat j) = Fin neg c e.
Proof.
  intros Hc Hmod. unfold finalise.
  destruct (roundHalfUp_pow c j (e - Z.of_nat j) Hc) as [j' [Hj' Heq]].
  rewrite Heq, normalise_pow by assumption. f_equal. lia.
Qed.

(** Subtracting zero gives back a decimal an operation has returned. *)
Lemma minus_zero x : canonical x = true -> minus x (ofZ 0) = x.
Proof.
  destruct x as [|n|n c e]; try reflexivity.
  unfold canonical. intros Hx. apply andb_true_iff in Hx as [Hlt Hform].
  apply N.ltb_lt in Hlt. change (10 ^ precision)%N with (10 ^ 20)%N in Hlt.
  unfold minus. change (negate (ofZ 0)) with (Fin true 0 0).
  unfold plus.
  destruct (N.eqb_spec c 0) as [->|Hc].
  - apply Z.eqb_eq in Hform. subst e. simpl. now destruct n.
  - apply negb_true_iff, N.eqb_neq in Hform.
    set (E := Z.min e 0).
    assert (Hs : signed n (scale c e E) + signed true (scale 0 0 E)
                 = signed n (scale c e E)).
    { unfold scale at 2. simpl. lia. }
    rewrite Hs.
    assert (Hpos : (0 < scale c e E)%N).
    { unfold scale.
      assert (10 ^ Z.to_N (e - E) <> 0)%N by (apply N.pow_nonzero; lia).
      nia. }
    assert (Hne : signed n (scale c e E) <> 0)
      by (unfold signed; destruct n; lia).
    destruct (Z.eqb_spec (signed n (scale c e E)) 0); [contradiction|].
    assert (Hneg : (signed n (scale c e E) <? 0) = n).
    { unfold signed. destruct n; [apply Z.ltb_lt | apply Z.ltb_ge]; lia. }
    assert (Habs : Z.abs_N (signed n (scale c e E)) = scale c e E).
    { unfold signed. destruct n; lia. }
    rewrite Hneg, Habs. unfold scale.
    replace (Z.to_N (e - E)) with (N.of_nat (Z.to_nat (e - E))) by lia.
    replace E with (e - Z.of_nat (Z.to_nat (e - E))) at 2 by lia.
    now apply finalise_exact.
Qed.


(** *** NaN and the infinities *)

Lemma div_zero_not_finite x y : isZero y = true -> isFinite (div x y) = false.
Proof.
  destruct y as [| |n2 c2 e2]; try discriminate. simpl.
  intros Hc. destruct x as [| |n1 c1 e1]; simpl; try reflexivity.
  rewrite Hc. now destruct (c1 =? 0)%N.
Qed.

Lemma div_not_finite x y : isFinite x = false -> isFinite (div x y) = false.
Proof. destruct x, y; simpl; congruence. Qed.

Lemma plus_not_finite_l x y :
  isFinite x = false -> isFinite (plus x y) = false.
Proof.
  destruct x as [|a|], y as [|b|]; simpl; try congruence.
  now destruct (Bool.eqb a b).
Qed.

Lemma plus_not_finite_r x y :
  isFinite y = false -> isFinite (plus x y) = false.
Proof.
  destruct x as [|a|], y as [|b|]; simpl; try congruence.
  now destruct (Bool.eqb a b).
Qed.

Lemma minus_not_finite x y :
  isFinite x = false -> isFinite (minus x y) = false.
Proof. apply plus_not_finite_l. Qed.

Lemma mul_not_finite_l x y :
  isFinite x = false -> isFinite (mul x y) = false.
Proof.
  destruct x as [|a|n1 c1 e1], y as [|b|n c e]; simpl; try congruence.
  now destruct (c =? 0)%N.
Qed.

Lemma mul_not_finite_r x y :
  isFinite y = false -> isFinite (mul x y) = false.
Proof.
  destruct x as [|a|n c e], y as [|b|n2 c2 e2]; simpl; try congruence.
  now destruct (c =? 0)%N.
Qed.

End DecimalForms.

Section Structure.
Context `{JSHost}.

Import Decimal.

Lemma at_index_nat {A : Type} (a : list A) (n : nat) :
  at_index a (Z.of_nat n) = a !! n.
Proof.
  unfold at_index. destruct (Z.ltb_spec (Z.of_nat n) 0); [lia|].
  now rewrite Nat2Z.id.
Qed.

Lemma at_index_lt {A : Type} (a : list A) (i : Z) :
  0 <= i < Z.of_nat (length a) -> exists x, at_index a i = Some x.
Proof.
  intros Hi. unfold at_index.
  destruct (Z.ltb_spec i 0); [lia|].
  apply lookup_lt_is_Some_2. lia.
Qed.

Lemma with_tableData_tableData this rows :
  tableData (with_tableData this rows) = rows.
Proof. reflexivity. Qed.

Lemma mapM_result_ok {A B : Type} (f : A -> result B) (l : list A) :
  (forall x, x ∈ l -> exists y, f x = Ok y) ->
  exists ys, mapM f l = Ok ys /\ length ys = length l.
Proof.
  induction l as [|x l IH]; intros Hl; simpl.
  - exists []. split; reflexivity.
  - destruct (Hl x) as [y Hy]; [left|].
    destruct IH as [ys [Hys Hlen]].
    { intros z Hz. apply Hl. now right. }
    exists (y :: ys). rewrite Hy. simpl. rewrite Hys. simpl.
    split; [reflexivity | now rewrite Hlen].
Qed.

(** On a table of more than [month] rows the single-period return of a
    month from 1 on is computed. *)
Lemma calculateSinglePeriodReturn_ok this month :
  1 <= month < Z.of_nat (length (tableData this)) ->
  exists r, calculateSinglePeriodReturn this month = Ok r.
Proof.
  intros Hm. unfold calculateSinglePeriodReturn.
  destruct (Z.leb_spec (Z.of_nat (length (tableData this))) month); [lia|].
  destruct (at_index_lt (tableData this) (month - 1)) as [p Hp]; [lia|].
  destruct (at_index_lt (tableData this) month) as [c Hc]; [lia|].
  rewrite Hp, Hc. simpl.
  destruct (gt _ _); eauto.
Qed.

Lemma calculateTimeWeightedReturn_ok this month :
  0 <= month < Z.of_nat (length (tableData this)) ->
  exists r, calculateTimeWeightedReturn this month = Ok r.
Proof.
  intros Hm. unfold calculateTimeWeightedReturn.
  destruct (Z.eqb_spec month 0); [eauto|].
  destruct (mapM_result_ok (calculateSinglePeriodReturn this)
              (seqZ 1 (month - 1))) as [rs [Hrs _]].
  { intros i Hi. apply elem_of_seqZ in Hi.
    apply calculateSinglePeriodReturn_ok. lia. }
  rewrite Hrs. simpl.
  destruct (Z.gtb_spec month 0); [|lia].
  destruct (at_index_lt (tableData this) (month - 1)) as [p Hp]; [lia|].
  rewrite Hp. simpl. eauto.
Qed.

(** *** The Newton-Raphson loop *)

Lemma newtonRaphson_iterations remaining iteration cashFlows yearFractions
    rate :
  (iteration <= snd (newtonRaphson remaining iteration cashFlows
                                   yearFractions rate)
   <= iteration + remaining)%nat.
Proof.
  revert iteration rate.
  induction remaining as [|remaining IH]; intros iteration rate; simpl.
  - lia.
  - destruct (calculateNPVAndDerivative _ _ _) as [npv derivative].
    repeat (match goal with
            | |- context [if ?b then _ else _] => destruct b
            end; simpl; try lia).
    all: match goal with
         | |- context [newtonRaphson _ ?i _ _ ?r] => specialize (IH i r)
         end; lia.
Qed.

(** The loop runs as section 4.5 says. *)
Lemma newtonRaphson_run remaining iteration cashFlows yearFractions rate :
  SolverRun cashFlows yearFractions remaining rate
    (fst (newtonRaphson remaining iteration cashFlows yearFractions rate)).
Proof.
  revert iteration rate.
  induction remaining as [|remaining IH]; intros iteration rate; simpl.
  - constructor.
  - destruct (calculateNPVAndDerivative cashFlows yearFractions rate)
      as [npv derivative] eqn:Hnpv.
    destruct (abs npv <? PRECISION)%float eqn:H1; simpl.
    { eapply run_npv_converged; eassumption. }
    destruct (abs derivative <? PRECISION)%float eqn:H2; simpl.
    { eapply run_flat_derivative; eassumption. }
    destruct (abs (rate - npv / derivative - rate) <? PRECISION)%float
      eqn:H3; simpl.
    { eapply run_rate_converged; eassumption. }
    eapply run_step; try eassumption. apply IH.
Qed.

(** The rate carried into the next iteration is neither below -0.99 nor
    above 100. *)
Lemma boundRate_bounds rate :
  (boundRate rate <? -0.99)%float = false /\
  (100 <? boundRate rate)%float = false.
Proof.
  unfold boundRate.
  destruct (rate <? -0.99)%float eqn:H1.
  - split; vm_compute; reflexivity.
  - destruct (100 <? rate)%float eqn:H2.
    + split; vm_compute; reflexivity.
    + split; assumption.
Qed.

(** The order of binary64 numbers, as far as the clamp needs it. *)
Lemma SFcompare_antisym (x y : spec_float) :
  SFcompare y x = option_map CompOpp (SFcompare x y).
Proof.
  destruct x as [sx|sx| |sx mx ex], y as [sy|sy| |sy my ey]; simpl;
    try reflexivity;
    try (destruct sx; reflexivity); try (destruct sy; reflexivity);
    try (destruct sx, sy; reflexivity).
  change (Pos.compare_cont Eq my mx) with (my ?= mx)%positive.
  change (Pos.compare_cont Eq mx my) with (mx ?= my)%positive.
  rewrite (Z.compare_antisym ex ey), (Pos.compare_antisym mx my).
  destruct sx, sy; simpl; try reflexivity;
    destruct (ex ?= ey); simpl; try reflexivity;
    destruct (mx ?= my)%positive; reflexivity.
Qed.

Lemma SFcompare_refl (x : spec_float) :
  x <> S754_nan -> SFcompare x x = Some Eq.
Proof.
  destruct x as [s|s| |s m e]; simpl; try congruence.
  - now destruct s.
  - intros _. change (Pos.compare_cont Eq m m) with (m ?= m)%positive.
    rewrite Z.compare_refl, Pos.compare_refl. now destruct s.
Qed.

Lemma is_nan_Prim2SF (x : float) :
  is_nan x = true <-> Prim2SF x = S754_nan.
Proof.
  unfold is_nan. rewrite FloatAxioms.eqb_spec. unfold SFeqb. split.
  - intros Hx. destruct (Prim2SF x) as [s|s| |s m e] eqn:Hs; try reflexivity;
      rewrite SFcompare_refl in Hx by discriminate; discriminate.
  - intros ->. reflexivity.
Qed.

Lemma SFcompare_Some (x y : spec_float) :
  x <> S754_nan -> y <> S754_nan -> exists c, SFcompare x y = Some c.
Proof.
  destruct x, y; simpl; try congruence; eauto.
Qed.

(** Of two numbers, one that is not below the other is at least it. *)
Lemma ltb_false_leb (x y : float) :
  is_nan x = false -> is_nan y = false ->
  (x <? y)%float = false -> (y <=? x)%float = true.
Proof.
  intros Hx Hy. rewrite ltb_spec, leb_spec. unfold SFltb, SFleb.
  rewrite (SFcompare_antisym (Prim2SF x) (Prim2SF y)).
  destruct (SFcompare_Some (Prim2SF x) (Prim2SF y)) as [c Hc].
  - intros Hn. apply is_nan_Prim2SF in Hn. congruence.
  - intros Hn. apply is_nan_Prim2SF in Hn. congruence.
  - rewrite Hc. now destruct c.
Qed.

Lemma is_nan_ltb (x y : float) :
  is_nan x = true -> (x <? y)%float = false /\ (y <? x)%float = false.
Proof.
  intros Hx. apply is_nan_Prim2SF in Hx.
  rewrite !ltb_spec. unfold SFltb. rewrite Hx. simpl.
  now destruct (Prim2SF y).
Qed.

Lemma ltb_below_above (r : float) :
  (r <? -0.99)%float = true -> (100 <? r)%float = false.
Proof.
  rewrite !ltb_spec. unfold SFltb.
  replace (Prim2SF (-0.99)%float)
    with (S754_finite true 8917127262193582 (-53))
    by (vm_compute; reflexivity).
  replace (Prim2SF 100%float)
    with (S754_finite false 7036874417766400 (-46))
    by (vm_compute; reflexivity).
  destruct (Prim2SF r) as [s|s| |s m e]; try (destruct s);
    cbn [SFcompare]; congruence.
Qed.

(** What the two tests of [boundRate] make of a rate. *)
Lemma boundRate_cases (r : float) :
  ((r <? -0.99)%float = true -> boundRate r = (-0.99)%float) /\
  ((100 <? r)%float = true -> boundRate r = 100%float) /\
  ((r <? -0.99)%float = false -> (100 <? r)%float = false ->
   boundRate r = r) /\
  (is_nan r = false ->
   (-0.99 <=? boundRate r)%float = true /\
   (boundRate r <=? 100)%float = true) /\
  (is_nan r = true -> boundRate r = r).
Proof.
  unfold boundRate.
  destruct (r <? -0.99)%float eqn:Hlow.
  - pose proof (ltb_below_above r Hlow) as Hhigh.
    repeat split; try discriminate; try reflexivity; try congruence.
    intros Hn. apply (is_nan_ltb r (-0.99)%float) in Hn as [Hn _].
    congruence.
  - destruct (100 <? r)%float eqn:Hhigh.
    + repeat split; try discriminate; try reflexivity.
      intros Hn. apply (is_nan_ltb r 100%float) in Hn as [_ Hn]. congruence.
    + repeat split; try discriminate; try reflexivity.
      * now apply ltb_false_leb.
      * now apply ltb_false_leb.
Qed.

#[local] Arguments newtonRaphson : simpl never.
#[local] Arguments calculateImprovedIRR_counted : simpl never.

Lemma calculateImprovedIRR_counted_same_length cashFlows dates :
  length cashFlows = length dates ->
  exists rate n,
    calculateImprovedIRR_counted cashFlows dates = (Ok rate, n) /\
    (n <= MAX_ITERATIONS)%nat.
Proof.
  intros Hlen. unfold calculateImprovedIRR_counted.
  rewrite Hlen, Nat.eqb_refl. simpl.
  pose proof (newtonRaphson_iterations MAX_ITERATIONS 0 cashFlows
                (datesToYearFractions dates) 0.1%float) as Hn.
  destruct (newtonRaphson _ _ _ _ _) as [rate n]. simpl in Hn.
  exists rate, n. split; [reflexivity | lia].
Qed.

Lemma calculateImprovedIRR_counted_mismatch cashFlows dates :
  length cashFlows <> length dates ->
  calculateImprovedIRR_counted cashFlows dates =
  (Throw (Error "Cash flows and dates arrays must have the same length"),
   O).
Proof.
  intros Hlen. unfold calculateImprovedIRR_counted.
  destruct (Nat.eqb_spec (length cashFlows) (length dates)); [lia|].
  reflexivity.
Qed.

(** *** The schedule of the money-weighted return *)

Lemma schedule_loop_lengths (c : bool) (cf : float) (mk : Z -> Date)
    (l : list Z) (cashFlows : list float) (dates : list Date) :
  length cashFlows = length dates ->
  let r := foldl (fun '(cashFlows, dates) i =>
                    if c then (cashFlows ++ [cf], dates ++ [mk i])
                    else (cashFlows, dates))
                 (cashFlows, dates) l in
  length (fst r) = length (snd r).
Proof.
  revert cashFlows dates.
  induction l as [|i l IH]; intros cashFlows dates Hlen; simpl.
  - exact Hlen.
  - destruct c.
    + apply IH. rewrite !length_app. simpl. lia.
    + apply IH. exact Hlen.
Qed.

Lemma buildCashFlowSchedule_lengths this currentMonth cashFlows dates :
  buildCashFlowSchedule this currentMonth = Ok (cashFlows, dates) ->
  length cashFlows = length dates.
Proof.
  unfold buildCashFlowSchedule.
  pose proof (schedule_loop_lengths
    (negb (isZero (Global.monthly_contribution
                     (InvestmentConfig.global (config this)))))
    (- toNumber (Global.monthly_contribution
                   (InvestmentConfig.global (config this))))%float
    (fun i => setMonth (Global.start_date
                          (InvestmentConfig.global (config this)))
                (getMonth (Global.start_date
                             (InvestmentConfig.global (config this))) + i))
    (seqZ 1 currentMonth)
    [ (- toNumber (Global.starting_principle
                     (InvestmentConfig.global (config this))))%float ]
    [ Global.start_date (InvestmentConfig.global (config this)) ]
    eq_refl) as Hloop.
  simpl in Hloop.
  destruct (foldl _ _ _) as [cfs ds]. simpl in Hloop.
  destruct (_ : result float) as [finalValue|e]; simpl; [|discriminate].
  intros Heq. inversion Heq; subst.
  rewrite !length_app. simpl. lia.
Qed.

Lemma buildCashFlowSchedule_ok this currentMonth :
  0 <= currentMonth < Z.of_nat (length (tableData this)) ->
  exists schedule, buildCashFlowSchedule this currentMonth = Ok schedule.
Proof.
  intros Hm. unfold buildCashFlowSchedule.
  destruct (foldl _ _ _) as [cfs ds].
  destruct (Z.gtb_spec (Z.of_nat (length (tableData this))) currentMonth);
    [|lia].
  destruct (at_index_lt (tableData this) currentMonth) as [r Hr]; [lia|].
  rewrite Hr. simpl. eauto.
Qed.

(** The length check of the IRR helper never fires under
    [calculateMoneyWeightedReturn]. *)
Lemma calculateMoneyWeightedReturn_throws this currentMonth e :
  calculateMoneyWeightedReturn this currentMonth = Throw e ->
  e = TypeError.
Proof.
  unfold calculateMoneyWeightedReturn.
  destruct (currentMonth =? 0); [discriminate|].
  destruct (isZero _).
  - unfold defined. destruct (at_index _ _); simpl; [discriminate|].
    intros Heq. now inversion Heq.
  - destruct (buildCashFlowSchedule this currentMonth)
      as [[cashFlows dates]|e'] eqn:Hs; simpl.
    + apply buildCashFlowSchedule_lengths in Hs.
      unfold calculateImprovedIRR.
      destruct (calculateImprovedIRR_counted_same_length _ _ Hs)
        as [rate [iters [Hirr _]]].
      rewrite Hirr. simpl. discriminate.
    + intros Heq. inversion Heq; subst e'. clear Heq.
      revert Hs. unfold buildCashFlowSchedule.
      destruct (foldl _ _ _) as [cfs ds].
      destruct (_ >? _); unfold defined;
        destruct (at_index _ _); simpl; try discriminate;
        intros Heq; now inversion Heq.
Qed.

Lemma calculateMoneyWeightedReturn_ok this month :
  0 <= month < Z.of_nat (length (tableData this)) ->
  exists r, calculateMoneyWeightedReturn this month = Ok r.
Proof.
  intros Hm. unfold calculateMoneyWeightedReturn.
  destruct (Z.eqb_spec month 0); [eauto|].
  destruct (isZero _).
  - destruct (at_index_lt (tableData this) (month - 1)) as [p Hp]; [lia|].
    rewrite Hp. simpl. eauto.
  - destruct (buildCashFlowSchedule_ok this month Hm)
      as [[cashFlows dates] Hs].
    rewrite Hs. simpl.
    apply buildCashFlowSchedule_lengths in Hs.
    unfold calculateImprovedIRR.
    destruct (calculateImprovedIRR_counted_same_length _ _ Hs)
      as [rate [iters [Hirr _]]].
    rewrite Hirr. simpl. eauto.
Qed.

(** *** The analytic calculators read ending principals only *)

Lemma mapM_result_ext {A B : Type} (f g : A -> result B) (l : list A) :
  (forall x, x ∈ l -> f x = g x) -> mapM f l = mapM g l.
Proof.
  induction l as [|x l IH]; intros Hl; simpl; [reflexivity|].
  rewrite (Hl x) by left. rewrite IH; [reflexivity|].
  intros y Hy. apply Hl. now right.
Qed.

Lemma at_index_fmap {A B : Type} (f : A -> B) (a : list A) (i : Z) :
  at_index (f <$> a) i = f <$> at_index a i.
Proof.
  unfold at_index. destruct (i <? 0); [reflexivity|].
  apply list_lookup_fmap.
Qed.

Lemma at_index_endings (rows1 rows2 : list TableRow.t) (i : Z) :
  TableRow.endingPrinciple <$> rows1 = TableRow.endingPrinciple <$> rows2 ->
  TableRow.endingPrinciple <$> at_index rows1 i =
  TableRow.endingPrinciple <$> at_index rows2 i.
Proof. intros Heq. now rewrite <- !at_index_fmap, Heq. Qed.

Lemma calculateMonthlyFees_ext this1 this2 principle :
  InvestmentConfig.fees (config this1) = InvestmentConfig.fees (config this2) ->
  calculateMonthlyFees this1 principle = calculateMonthlyFees this2 principle.
Proof. intros Hf. unfold calculateMonthlyFees. now rewrite Hf. Qed.

Lemma endingPrincipleAtDefaultRate_ext this1 this2 principle :
  InvestmentConfig.fees (config this1) = InvestmentConfig.fees (config this2) ->
  defaultMonthlyReturnRate this1 = defaultMonthlyReturnRate this2 ->
  endingPrincipleAtDefaultRate this1 principle =
  endingPrincipleAtDefaultRate this2 principle.
Proof.
  intros Hf Hd. unfold endingPrincipleAtDefaultRate.
  now rewrite Hd, (calculateMonthlyFees_ext this1 this2 _ Hf).
Qed.

Section SameView.
Variables this1 this2 : InvestmentCalculator.
Hypothesis Hfees :
  InvestmentConfig.fees (config this1) = InvestmentConfig.fees (config this2).
Hypothesis Hdefault :
  defaultMonthlyReturnRate this1 = defaultMonthlyReturnRate this2.
Hypothesis Hcontribution :
  effectiveContribution this1 = effectiveContribution this2.
Hypothesis Hendings :
  TableRow.endingPrinciple <$> tableData this1 =
  TableRow.endingPrinciple <$> tableData this2.

Lemma same_view_length :
  length (tableData this1) = length (tableData this2).
Proof.
  rewrite <- (length_fmap TableRow.endingPrinciple (tableData this1)).
  rewrite Hendings. apply length_fmap.
Qed.

Lemma calculateSinglePeriodReturn_same_view month :
  calculateSinglePeriodReturn this1 month =
  calculateSinglePeriodReturn this2 month.
Proof.
  unfold calculateSinglePeriodReturn. rewrite same_view_length.
  destruct (_ <=? _); [reflexivity|].
  pose proof (at_index_endings _ _ (month - 1) Hendings) as Hp.
  pose proof (at_index_endings _ _ month Hendings) as Hc.
  destruct (at_index (tableData this1) (month - 1)) as [p1|],
           (at_index (tableData this2) (month - 1)) as [p2|];
    try discriminate; [|reflexivity].
  destruct (at_index (tableData this1) month) as [c1|],
           (at_index (tableData this2) month) as [c2|];
    try discriminate; [|reflexivity].
  simpl in *. inversion Hp as [Hp']. inversion Hc as [Hc'].
  revert Hcontribution. unfold effectiveContribution.
  destruct (gt _ _), (gt _ _); intros Heq; try discriminate.
  - inversion Heq as [Heq']. now rewrite Hp', Hc', Heq'.
  - now rewrite Hp', Hc'.
Qed.

Lemma calculateTimeWeightedReturn_same_view month :
  calculateTimeWeightedReturn this1 month =
  calculateTimeWeightedReturn this2 month.
Proof.
  unfold calculateTimeWeightedReturn.
  destruct (month =? 0); [reflexivity|].
  rewrite (mapM_result_ext (calculateSinglePeriodReturn this1)
             (calculateSinglePeriodReturn this2))
    by (intros; apply calculateSinglePeriodReturn_same_view).
  destruct (mapM _ _) as [periodReturns|e]; [|reflexivity]. simpl.
  destruct (month >? 0); [|reflexivity].
  pose proof (at_index_endings _ _ (month - 1) Hendings) as Hp.
  destruct (at_index (tableData this1) (month - 1)) as [p1|],
           (at_index (tableData this2) (month - 1)) as [p2|];
    try discriminate; [|reflexivity].
  simpl in *. inversion Hp as [Hp'].
  revert Hcontribution. unfold effectiveContribution.
  destruct (gt _ _), (gt _ _); intros Heq; try discriminate.
  - inversion Heq as [Heq'].
    now rewrite Hp', Heq',
      (endingPrincipleAtDefaultRate_ext this1 this2 _ Hfees Hdefault).
  - now rewrite Hp',
      (endingPrincipleAtDefaultRate_ext this1 this2 _ Hfees Hdefault).
Qed.
End SameView.

Lemma calculateTimeWeightedReturn_endings this rows1 rows2 month :
  TableRow.endingPrinciple <$> rows1 = TableRow.endingPrinciple <$> rows2 ->
  calculateTimeWeightedReturn (with_tableData this rows1) month =
  calculateTimeWeightedReturn (with_tableData this rows2) month.
Proof.
  intros Heq. now apply calculateTimeWeightedReturn_same_view.
Qed.

Lemma buildCashFlowSchedule_endings this rows1 rows2 month :
  TableRow.endingPrinciple <$> rows1 = TableRow.endingPrinciple <$> rows2 ->
  buildCashFlowSchedule (with_tableData this rows1) month =
  buildCashFlowSchedule (with_tableData this rows2) month.
Proof.
  intros Heq. unfold buildCashFlowSchedule. simpl.
  destruct (foldl _ _ _) as [cfs ds].
  assert (Hlen : length rows1 = length rows2).
  { rewrite <- (length_fmap TableRow.endingPrinciple rows1), Heq.
    apply length_fmap. }
  rewrite Hlen.
  pose proof (at_index_endings _ _ month Heq) as Hc.
  pose proof (at_index_endings _ _ (month - 1) Heq) as Hp.
  destruct (_ >? _).
  - destruct (at_index rows1 month), (at_index rows2 month);
      try discriminate; [|reflexivity].
    simpl in *. inversion Hc as [Hc']. now rewrite Hc'.
  - destruct (at_index rows1 (month - 1)), (at_index rows2 (month - 1));
      try discriminate; [|reflexivity].
    simpl in *. inversion Hp as [Hp']. now rewrite Hp'.
Qed.

Lemma calculateMoneyWeightedReturn_endings this rows1 rows2 month :
  TableRow.endingPrinciple <$> rows1 = TableRow.endingPrinciple <$> rows2 ->
  calculateMoneyWeightedReturn (with_tableData this rows1) month =
  calculateMoneyWeightedReturn (with_tableData this rows2) month.
Proof.
  intros Heq. unfold calculateMoneyWeightedReturn.
  rewrite (buildCashFlowSchedule_endings this rows1 rows2 month Heq).
  simpl.
  pose proof (at_index_endings _ _ (month - 1) Heq) as Hp.
  destruct (month =? 0); [reflexivity|].
  destruct (isZero _); [|reflexivity].
  destruct (at_index rows1 (month - 1)), (at_index rows2 (month - 1));
    try discriminate; [|reflexivity].
  simpl in *. inversion Hp as [Hp']. now rewrite Hp'.
Qed.

(** *** One month *)

Lemma at_index_snoc {A : Type} (a : list A) (x : A) :
  at_index (a ++ [x]) (Z.of_nat (length a)) = Some x.
Proof.
  rewrite at_index_nat. rewrite lookup_app_r by lia.
  now rewrite Nat.sub_diag.
Qed.

Lemma insert_snoc {A : Type} (a : list A) (x y : A) :
  <[length a := y]> (a ++ [x]) = a ++ [y].
Proof.
  rewrite insert_app_r_alt by lia. now rewrite Nat.sub_diag.
Qed.

Lemma calculateMonth_spec this month prevRow :
  1 <= month ->
  Z.of_nat (length (tableData this)) = month ->
  at_index (tableData this) (month - 1) = Some prevRow ->
  exists row,
    calculateMonth this month =
      Ok (with_tableData this (tableData this ++ [row])) /\
    RowStep this prevRow month row /\
    calculateTimeWeightedReturn
      (with_tableData this (tableData this ++ [row])) month =
      Ok (TableRow.timeWeightedReturn row) /\
    calculateMoneyWeightedReturn
      (with_tableData this (tableData this ++ [row])) month =
      Ok (TableRow.moneyWeightedReturn row).
Proof.
  intros Hm Hlen Hprev. subst month. unfold calculateMonth.
  rewrite Hprev. simpl.
  destruct (gt (Global.monthly_contribution
                  (InvestmentConfig.global (config this))) (ofZ 0))
    eqn:Hgt.
  all: match goal with
       | |- context [calculateTimeWeightedReturn ?t ?m] =>
           destruct (calculateTimeWeightedReturn_ok t m) as [twr Htwr];
           [ unfold addTableRow; simpl; rewrite length_app; simpl; lia |];
           destruct (calculateMoneyWeightedReturn_ok t m) as [mwr Hmwr];
           [ unfold addTableRow; simpl; rewrite length_app; simpl; lia |];
           rewrite Htwr, Hmwr
       end; simpl.
  all: unfold addTableRow; simpl.
  all: rewrite at_index_snoc; simpl.
  all: rewrite Nat2Z.id, insert_snoc, at_index_snoc; simpl.
  all: rewrite insert_snoc.
  all: eexists; split; [reflexivity|].
  all: split; [constructor; simpl; rewrite ?Hgt; reflexivity|].
  all: unfold addTableRow in Htwr, Hmwr; simpl in Htwr, Hmwr.
  all: split;
    [ erewrite calculateTimeWeightedReturn_endings; [exact Htwr|]
    | erewrite calculateMoneyWeightedReturn_endings; [exact Hmwr|] ];
    rewrite !fmap_app; reflexivity.
Qed.

(** *** The whole table *)

Lemma RowStep_with_tableData this rows prevRow month row :
  RowStep (with_tableData this rows) prevRow month row ->
  RowStep this prevRow month row.
Proof. intros []. constructor; assumption. Qed.

Lemma seqZ_to_nat (m len : Z) : seqZ m len = seqZ m (Z.of_nat (Z.to_nat len)).
Proof. unfold seqZ. now rewrite Nat2Z.id. Qed.

Lemma calculateAllMonths_fold this (n : nat) :
  exists rows,
    foldl (fun acc month => this ← acc; calculateMonth this month)
          (Ok (initializeTable this)) (seqZ 1 (Z.of_nat n)) =
      Ok (with_tableData this rows) /\
    TableUpTo this n rows.
Proof.
  induction n as [|n [rows [Hfold Hrows]]].
  - exists (tableData (initializeTable this)). split; [reflexivity|].
    constructor; [reflexivity | reflexivity | intros m Hm; lia].
  - destruct Hrows as [Hlen Hfirst Hstep].
    assert (Hprev : exists prevRow,
               at_index rows (Z.of_nat (S n) - 1) = Some prevRow).
    { apply at_index_lt. lia. }
    destruct Hprev as [prevRow Hprev].
    destruct (calculateMonth_spec (with_tableData this rows)
                (Z.of_nat (S n)) prevRow)
      as [row [Hmonth [Hrow [Htwr Hmwr]]]];
      [lia | simpl; lia | exact Hprev |].
    simpl in Hmonth, Htwr, Hmwr.
    exists (rows ++ [row]). split.
    + rewrite Nat2Z.inj_succ, <- Z.add_1_r.
      rewrite seqZ_app by lia. rewrite foldl_app, Hfold.
      change (seqZ (1 + Z.of_nat n) 1) with [0 + (1 + Z.of_nat n)].
      simpl foldl. simpl mbind.
      replace (0 + (1 + Z.of_nat n)) with (Z.of_nat (S n)) by lia.
      rewrite Hmonth. reflexivity.
    + constructor.
      * rewrite length_app. simpl. lia.
      * rewrite lookup_app_l by lia. exact Hfirst.
      * intros m Hm.
        destruct (Nat.eq_dec m (S n)) as [->|Hne].
        -- exists prevRow, row.
           rewrite take_ge by (rewrite length_app; simpl; lia).
           split; [|split; [|split; [|split]]].
           ++ rewrite lookup_app_l by lia.
              rewrite <- at_index_nat.
              replace (Z.of_nat (S n - 1)) with (Z.of_nat (S n) - 1) by lia.
              exact Hprev.
           ++ rewrite lookup_app_r by lia.
              replace (S n - length rows)%nat with 0%nat by lia.
              reflexivity.
           ++ exact (RowStep_with_tableData _ _ _ _ _ Hrow).
           ++ exact Htwr.
           ++ exact Hmwr.
        -- destruct (Hstep m) as [p [r [Hp [Hr [Hpr [Ht Hw]]]]]]; [lia|].
           exists p, r.
           rewrite take_app_le by lia.
           split; [|split; [|split; [|split]]].
           ++ rewrite lookup_app_l by lia. exact Hp.
           ++ rewrite lookup_app_l by lia. exact Hr.
           ++ exact Hpr.
           ++ exact Ht.
           ++ exact Hw.
Qed.

(** [calculate] returns, and its table is the one the month steps
    describe. *)
Lemma calculateInvestment_spec (cfg : InvestmentConfig.t) :
  exists rows,
    calculateInvestment cfg = Ok rows /\
    TableUpTo (new cfg) (Z.to_nat (calculateMonthDifference cfg)) rows.
Proof.
  destruct (calculateAllMonths_fold (new cfg)
              (Z.to_nat (calculateMonthDifference cfg)))
    as [rows [Hfold Hrows]].
  exists rows. split; [|exact Hrows].
  unfold calculateInvestment, calculate, calculateAllMonths.
  change (monthDiff (initializeTable (with_tableData (new cfg) [])))
    with (calculateMonthDifference cfg).
  rewrite seqZ_to_nat.
  change (initializeTable (with_tableData (new cfg) []))
    with (initializeTable (new cfg)).
  rewrite Hfold. reflexivity.
Qed.

End Structure.

Section Behaviour.
Context `{JSHost}.

Import Decimal.

Lemma months_of_table this k rows :
  TableUpTo this k rows ->
  TableRow.month <$> rows = seqZ 0 (Z.of_nat (S k)).
Proof.
  intros [Hlen Hfirst Hstep].
  apply list_eq. intros i.
  rewrite list_lookup_fmap.
  destruct (Nat.lt_ge_cases i (S k)) as [Hi|Hi].
  - rewrite lookup_seqZ_lt by lia.
    destruct i as [|i].
    + rewrite Hfirst. reflexivity.
    + destruct (Hstep (S i)) as [p [r [_ [Hr [Hpr _]]]]]; [lia|].
      rewrite Hr. simpl. rewrite (step_month _ _ _ _ Hpr).
      f_equal; lia.
  - rewrite lookup_seqZ_ge by lia.
    rewrite lookup_ge_None_2 by lia. reflexivity.
Qed.

(** The three cases of the rate of a month. *)
Lemma getMonthlyReturnRate_cases this month :
  getMonthlyReturnRate this month =
  match overrideFor (config this) month with
  | Some monthlyReturn =>
      if MonthlyReturn.isEmpty monthlyReturn then ofZ 0
      else div (MonthlyReturn.value monthlyReturn) (ofZ 100)
  | None => defaultMonthlyReturnRate this
  end.
Proof.
  unfold getMonthlyReturnRate, overrideFor.
  destruct (InvestmentConfig.monthlyReturns (config this)) as [rs|];
    [|reflexivity].
  destruct rs as [|r rs]; reflexivity.
Qed.

(** C7. In every month [m] from 1 to the month count, the row's return
    is its starting principal times a rate, and its monthly gross return
    rate is that rate times 100, where the rate is zero when the override
    of month [m] carries the empty marker, the override's percentage
    divided by 100 when it does not, and the default monthly rate
    [returns.value / returns.applied_time_unit] when month [m] has no
    override. *)
Theorem C7_monthly_rate (cfg : InvestmentConfig.t) (m : Z) :
  1 <= m <= calculateMonthDifference cfg ->
  exists rows row rate,
    calculateInvestment cfg = Ok rows /\
    rows !! Z.to_nat m = Some row /\
    TableRow.returns row = mul (TableRow.startingPrinciple row) rate /\
    TableRow.momGrossReturnRate row = mul rate (ofZ 100) /\
    (forall r, overrideFor cfg m = Some r ->
               MonthlyReturn.isEmpty r = true -> rate = ofZ 0) /\
    (forall r, overrideFor cfg m = Some r ->
               MonthlyReturn.isEmpty r = false ->
               rate = div (MonthlyReturn.value r) (ofZ 100)) /\
    (overrideFor cfg m = None ->
     rate = div (Returns.value (InvestmentConfig.returns cfg))
                (Returns.applied_time_unit (InvestmentConfig.returns cfg))).
Proof.
  intros Hm.
  destruct (calculateInvestment_spec cfg) as [rows [Hcalc Hrows]].
  destruct (upto_step _ _ _ Hrows (Z.to_nat m))
    as [p [row [_ [Hrow [Hstep _]]]]]; [lia|].
  rewrite Z2Nat.id in Hstep by lia.
  exists rows, row, (getMonthlyReturnRate (new cfg) m).
  split; [exact Hcalc|]. split; [exact Hrow|].
  split; [exact (step_returns _ _ _ _ Hstep)|].
  split; [exact (step_momGrossReturnRate _ _ _ _ Hstep)|].
  rewrite getMonthlyReturnRate_cases. simpl.
  split; [|split].
  - intros r Hr He. now rewrite Hr, He.
  - intros r Hr He. now rewrite Hr, He.
  - intros Hr. now rewrite Hr.
Qed.

(** C6. The month count is [num_months] when that is positive and the
    year/month difference of the two dates otherwise; [calculate] returns
    without an exception; for a month count from 0 on the table has
    [monthCount + 1] rows whose month indices are 0, 1, ..., monthCount
    in order; for a month count of 0 or less the table is the single
    row 0. *)
Theorem C6_row_count (cfg : InvestmentConfig.t) :
  let global := InvestmentConfig.global cfg in
  let monthCount := calculateMonthDifference cfg in
  monthCount =
    (if 0 <? Global.num_months global then Global.num_months global
     else (getFullYear (Global.end_date global)
           - getFullYear (Global.start_date global)) * 12
          + (getMonth (Global.end_date global)
             - getMonth (Global.start_date global))) /\
  exists rows,
    calculateInvestment cfg = Ok rows /\
    (0 <= monthCount ->
       Z.of_nat (length rows) = monthCount + 1 /\
       TableRow.month <$> rows = seqZ 0 (monthCount + 1)) /\
    (monthCount <= 0 ->
       rows = tableData (initializeTable (new cfg)) /\ length rows = 1%nat).
Proof.
  intros global monthCount. split; [reflexivity|].
  destruct (calculateInvestment_spec cfg) as [rows [Hcalc Hrows]].
  exists rows. split; [exact Hcalc|]. fold monthCount in Hrows. split.
  - intros Hpos. split.
    + rewrite (upto_length _ _ _ Hrows). lia.
    + rewrite (months_of_table _ _ _ Hrows). f_equal. lia.
  - intros Hneg.
    replace (Z.to_nat monthCount) with 0%nat in Hrows by lia.
    destruct Hrows as [Hlen Hfirst _].
    destruct rows as [|r [|r' rows]]; simpl in Hlen; try lia.
    simpl in Hfirst. inversion Hfirst. split; reflexivity.
Qed.

(** C9. Row 0 of the table [calculate] returns starts and ends on the
    configured starting principal, and its returns, fees, cumulative fees,
    fee percentage and every return-rate metric, the time-weighted and the
    money-weighted return included, are zero. *)
Theorem C9_identity_row (cfg : InvestmentConfig.t) :
  exists row0 rest,
    calculateInvestment cfg = Ok (row0 :: rest) /\
    TableRow.month row0 = 0 /\
    TableRow.startingPrinciple row0 =
      Global.starting_principle (InvestmentConfig.global cfg) /\
    TableRow.endingPrinciple row0 =
      Global.starting_principle (InvestmentConfig.global cfg) /\
    TableRow.returns row0 = ofZ 0 /\
    TableRow.fees row0 = ofZ 0 /\
    TableRow.cumulativeFees row0 = ofZ 0 /\
    TableRow.feesPercentage row0 = ofZ 0 /\
    TableRow.momGrossReturnRate row0 = ofZ 0 /\
    TableRow.totalGrossReturnRate row0 = ofZ 0 /\
    TableRow.momNetReturnRate row0 = ofZ 0 /\
    TableRow.momNetExclContribReturnRate row0 = ofZ 0 /\
    TableRow.totalNetReturnRate row0 = ofZ 0 /\
    TableRow.timeWeightedReturn row0 = ofZ 0 /\
    TableRow.moneyWeightedReturn row0 = ofZ 0.
Proof.
  destruct (calculateInvestment_spec cfg) as [rows [Hcalc Hrows]].
  destruct Hrows as [Hlen Hfirst _].
  destruct rows as [|row0 rest]; [discriminate|].
  exists row0, rest. split; [exact Hcalc|].
  simpl in Hfirst. inversion Hfirst. repeat split; reflexivity.
Qed.

(** C4, as the code has it. Handed a cash-flow array and a date array of
    one length, the IRR helper returns a rate, whatever the schedule, and
    has started at most 100 iterations of the Newton-Raphson loop when it
    does; no exception is thrown on that path. The rate is the answer of
    the run section 4.5 describes from the guess 0.1 with a budget of 100
    and the threshold 1e-7: it stops on |NPV| < 1e-7, on a derivative
    below 1e-7 in magnitude, on a step of the rate below 1e-7, or on the
    exhausted budget with the last rate. The rate carried into a next
    iteration is -0.99 when the new rate is below -0.99, 100 when it is
    above 100, and the new rate itself otherwise: it lies in [-0.99, 100]
    when the new rate is a number, and it is NaN when the new rate is
    NaN. *)
Theorem C4_irr_terminates (cashFlows : list float) (dates : list Date) :
  length cashFlows = length dates ->
  (exists rate iterations,
     calculateImprovedIRR_counted cashFlows dates = (Ok rate, iterations) /\
     calculateImprovedIRR cashFlows dates = Ok rate /\
     (iterations <= 100)%nat /\
     SolverRun cashFlows (datesToYearFractions dates) 100 0.1%float rate) /\
  PRECISION = 0.0000001%float /\
  forall r,
    ((r <? -0.99)%float = true -> boundRate r = (-0.99)%float) /\
    ((100 <? r)%float = true -> boundRate r = 100%float) /\
    ((r <? -0.99)%float = false -> (100 <? r)%float = false ->
     boundRate r = r) /\
    (is_nan r = false ->
     (-0.99 <=? boundRate r)%float = true /\
     (boundRate r <=? 100)%float = true) /\
    (is_nan r = true -> boundRate r = r) /\
    (boundRate r <? -0.99)%float = false /\
    (100 <? boundRate r)%float = false.
Proof.
  intros Hlen. split; [|split; [reflexivity|]].
  - destruct (calculateImprovedIRR_counted_same_length _ _ Hlen)
      as [rate [n [Hirr Hn]]].
    exists rate, n. unfold calculateImprovedIRR. rewrite Hirr.
    split; [reflexivity|]. split; [reflexivity|]. split; [exact Hn|].
    revert Hirr. unfold calculateImprovedIRR_counted.
    rewrite Hlen, Nat.eqb_refl. cbv [negb].
    pose proof (newtonRaphson_run MAX_ITERATIONS 0 cashFlows
                  (datesToYearFractions dates) 0.1%float) as Hrun.
    destruct (newtonRaphson MAX_ITERATIONS 0 cashFlows
                (datesToYearFractions dates) 0.1%float) as [rate' n'].
    intros Heq. inversion Heq. subst. exact Hrun.
  - intros r.
    destruct (boundRate_cases r) as [Hlow [Hhigh [Hkept [Hin Hnan]]]].
    destruct (boundRate_bounds r) as [Hb1 Hb2].
    split; [exact Hlow|]. split; [exact Hhigh|]. split; [exact Hkept|].
    split; [exact Hin|]. split; [exact Hnan|].
    split; [exact Hb1 | exact Hb2].
Qed.

(** C5. The IRR helper throws exactly when the two arrays differ in
    length, and then before any iteration of the loop; the schedule that
    [calculateMoneyWeightedReturn] builds has as many dates as cash flows,
    so the only exception that method lets out is never the helper's, and
    [calculate] returns a table for every configuration. *)
Theorem C5_irr_precondition :
  (forall (cashFlows : list float) (dates : list Date),
      ((exists e, calculateImprovedIRR cashFlows dates = Throw e) <->
       length cashFlows <> length dates) /\
      (length cashFlows <> length dates ->
       calculateImprovedIRR_counted cashFlows dates =
       (Throw (Error "Cash flows and dates arrays must have the same length"),
        O))) /\
  (forall this currentMonth cashFlows dates,
      buildCashFlowSchedule this currentMonth = Ok (cashFlows, dates) ->
      length cashFlows = length dates) /\
  (forall this currentMonth msg,
      calculateMoneyWeightedReturn this currentMonth <> Throw (Error msg)) /\
  (forall cfg : InvestmentConfig.t,
      exists rows, calculateInvestment cfg = Ok rows).
Proof.
  repeat split.
  - intros [e He] Hlen. unfold calculateImprovedIRR in He.
    destruct (calculateImprovedIRR_counted_same_length _ _ Hlen)
      as [rate [iters [Hirr _]]].
    rewrite Hirr in He. discriminate.
  - intros Hlen. unfold calculateImprovedIRR.
    rewrite (calculateImprovedIRR_counted_mismatch _ _ Hlen). eauto.
  - apply calculateImprovedIRR_counted_mismatch.
  - intros this currentMonth cashFlows dates.
    apply buildCashFlowSchedule_lengths.
  - intros this currentMonth msg Hthrow.
    apply calculateMoneyWeightedReturn_throws in Hthrow. discriminate.
  - intros cfg. destruct (calculateInvestment_spec cfg) as [rows [Hc _]].
    eauto.
Qed.

(** C3. Starting from 100 with no contribution, a 12% annual return
    applied in twelfths, one 12% annual fee applied in twelfths, and no
    override for month 1: row 1 starts on 100, its return is 1, its fee
    is 1.01, which is the fee rate on the 101 that the principal is after
    the return, and it ends on 99.99. *)
Theorem C3_returns_then_fees (cfg : InvestmentConfig.t) (fee : Fee.t) :
  Global.starting_principle (InvestmentConfig.global cfg) = ofZ 100 ->
  Global.monthly_contribution (InvestmentConfig.global cfg) = ofZ 0 ->
  Returns.value (InvestmentConfig.returns cfg) = dec false 12 (-2) ->
  Returns.applied_time_unit (InvestmentConfig.returns cfg) = ofZ 12 ->
  InvestmentConfig.fees cfg = [fee] ->
  Fee.value fee = dec false 12 (-2) ->
  Fee.applied_time_unit fee = ofZ 12 ->
  overrideFor cfg 1 = None ->
  1 <= calculateMonthDifference cfg ->
  exists rows row1,
    calculateInvestment cfg = Ok rows /\
    rows !! 1%nat = Some row1 /\
    TableRow.startingPrinciple row1 = ofZ 100 /\
    TableRow.returns row1 = ofZ 1 /\
    TableRow.fees row1 = dec false 101 (-2) /\
    TableRow.fees row1 =
      mul (ofZ 101) (div (Fee.value fee) (Fee.applied_time_unit fee)) /\
    TableRow.endingPrinciple row1 = dec false 9999 (-2).
Proof.
  intros Hsp Hc Hrv Hra Hfees Hfv Hfa Hover Hmonths.
  destruct (calculateInvestment_spec cfg) as [rows [Hcalc Hrows]].
  destruct (upto_step _ _ _ Hrows 1%nat)
    as [p [row [Hp [Hrow [Hstep _]]]]]; [lia|].
  simpl in Hp. rewrite (upto_first _ _ _ Hrows) in Hp.
  simpl in Hp. inversion Hp as [Hp']. clear Hp.
  assert (Hrate : getMonthlyReturnRate (new cfg) 1 = dec false 1 (-2)).
  { rewrite getMonthlyReturnRate_cases. simpl. rewrite Hover.
    unfold calculateDefaultMonthlyReturnRate. rewrite Hrv, Hra.
    vm_compute. reflexivity. }
  assert (Hstart : TableRow.startingPrinciple row = ofZ 100).
  { rewrite (step_startingPrinciple _ _ _ _ Hstep). simpl.
    rewrite Hc, <- Hp'. simpl. exact Hsp. }
  assert (Hret : TableRow.returns row = ofZ 1).
  { rewrite (step_returns _ _ _ _ Hstep), Hstart.
    change (Z.of_nat 1) with 1. rewrite Hrate.
    vm_compute. reflexivity. }
  assert (Hfee : TableRow.fees row = dec false 101 (-2)).
  { rewrite (step_fees _ _ _ _ Hstep), Hstart, Hret.
    unfold calculateMonthlyFees. simpl. rewrite Hfees. simpl.
    rewrite Hfv, Hfa. vm_compute. reflexivity. }
  exists rows, row.
  split; [exact Hcalc|]. split; [exact Hrow|]. split; [exact Hstart|].
  split; [exact Hret|]. split; [exact Hfee|]. split.
  - rewrite Hfee, Hfv, Hfa. vm_compute. reflexivity.
  - rewrite (step_endingPrinciple _ _ _ _ Hstep), Hstart, Hret, Hfee.
    vm_compute. reflexivity.
Qed.

(** *** Two calculators that step alike *)

Lemma lt_not_gt (x y : Decimal) : lt x y = true -> gt x y = false.
Proof. unfold lt, gt. destruct (cmp x y) as [[]|]; congruence. Qed.

Lemma isZero_not_gt (x : Decimal) : isZero x = true -> gt x (ofZ 0) = false.
Proof.
  destruct x as [| |n c e]; try discriminate. simpl.
  intros Hc. apply N.eqb_eq in Hc. subst c.
  unfold gt, cmp, scale. simpl. now destruct n.
Qed.

Lemma trajectory_eq (r1 r2 : TableRow.t) :
  TableRow.month r1 = TableRow.month r2 ->
  TableRow.date r1 = TableRow.date r2 ->
  TableRow.startingPrinciple r1 = TableRow.startingPrinciple r2 ->
  TableRow.endingPrinciple r1 = TableRow.endingPrinciple r2 ->
  TableRow.returns r1 = TableRow.returns r2 ->
  TableRow.fees r1 = TableRow.fees r2 ->
  TableRow.valueWithoutFees r1 = TableRow.valueWithoutFees r2 ->
  TableRow.cumulativeFees r1 = TableRow.cumulativeFees r2 ->
  TableRow.cumulativeContributions r1 = TableRow.cumulativeContributions r2 ->
  TableRow.feesPercentage r1 = TableRow.feesPercentage r2 ->
  TableRow.momGrossReturnRate r1 = TableRow.momGrossReturnRate r2 ->
  TableRow.totalGrossReturnRate r1 = TableRow.totalGrossReturnRate r2 ->
  TableRow.momNetReturnRate r1 = TableRow.momNetReturnRate r2 ->
  TableRow.momNetExclContribReturnRate r1 =
    TableRow.momNetExclContribReturnRate r2 ->
  TableRow.totalNetReturnRate r1 = TableRow.totalNetReturnRate r2 ->
  TableRow.timeWeightedReturn r1 = TableRow.timeWeightedReturn r2 ->
  trajectory r1 = trajectory r2.
Proof.
  destruct r1, r2. simpl. intros. subst. reflexivity.
Qed.

Section StepAlike.
Variables this1 this2 : InvestmentCalculator.
Hypothesis Hfees :
  InvestmentConfig.fees (config this1) = InvestmentConfig.fees (config this2).
Hypothesis Hdefault :
  defaultMonthlyReturnRate this1 = defaultMonthlyReturnRate this2.
Hypothesis Hrate :
  forall m, getMonthlyReturnRate this1 m = getMonthlyReturnRate this2 m.
Hypothesis Hcontribution :
  effectiveContribution this1 = effectiveContribution this2.
Hypothesis Hstart :
  Global.start_date (InvestmentConfig.global (config this1)) =
  Global.start_date (InvestmentConfig.global (config this2)).
Hypothesis Hprincipal :
  Global.starting_principle (InvestmentConfig.global (config this1)) =
  Global.starting_principle (InvestmentConfig.global (config this2)).

Lemma RowStep_alike p1 p2 m r1 r2 :
  RowStep this1 p1 m r1 -> RowStep this2 p2 m r2 ->
  trajectory p1 = trajectory p2 ->
  TableRow.timeWeightedReturn r1 = TableRow.timeWeightedReturn r2 ->
  trajectory r1 = trajectory r2.
Proof.
  intros [] [] Hp Htwr.
  pose proof (f_equal TableRow.endingPrinciple Hp) as Hpe.
  pose proof (f_equal TableRow.cumulativeContributions Hp) as Hpc.
  pose proof (f_equal TableRow.valueWithoutFees Hp) as Hpv.
  pose proof (f_equal TableRow.cumulativeFees Hp) as Hpf.
  simpl in Hpe, Hpc, Hpv, Hpf.
  pose proof Hcontribution as Hc. unfold effectiveContribution in Hc.
  pose proof (Hrate m) as Hr.
  assert (Hfee : forall x, calculateMonthlyFees this1 x =
                           calculateMonthlyFees this2 x).
  { intros x. now apply calculateMonthlyFees_ext. }
  destruct (gt (Global.monthly_contribution
                  (InvestmentConfig.global (config this1))) (ofZ 0)),
           (gt (Global.monthly_contribution
                  (InvestmentConfig.global (config this2))) (ofZ 0));
    try discriminate.
  all: try (inversion Hc as [Hc']; clear Hc).
  all: assert (TableRow.startingPrinciple r1 =
               TableRow.startingPrinciple r2) as Hs by congruence.
  all: assert (TableRow.returns r1 = TableRow.returns r2)
    as Hret by congruence.
  all: assert (TableRow.fees r1 = TableRow.fees r2) as Hf
      by (rewrite step_fees0, step_fees1, Hfee; congruence).
  all: apply trajectory_eq; congruence.
Qed.

Lemma tables_alike_prefix k rows1 rows2 :
  TableUpTo this1 k rows1 -> TableUpTo this2 k rows2 ->
  forall n, (n <= S k)%nat ->
            trajectory <$> take n rows1 = trajectory <$> take n rows2.
Proof.
  intros H1 H2 n. induction n as [|n IH]; intros Hn; [reflexivity|].
  specialize (IH ltac:(lia)).
  destruct (lookup_lt_is_Some_2 rows1 n) as [r1 Hr1];
    [rewrite (upto_length _ _ _ H1); lia|].
  destruct (lookup_lt_is_Some_2 rows2 n) as [r2 Hr2];
    [rewrite (upto_length _ _ _ H2); lia|].
  rewrite (take_S_r _ _ _ Hr1), (take_S_r _ _ _ Hr2), !fmap_app, IH.
  f_equal. simpl. f_equal.
  destruct n as [|n].
  - rewrite (upto_first _ _ _ H1) in Hr1.
    rewrite (upto_first _ _ _ H2) in Hr2.
    simpl in Hr1, Hr2. inversion Hr1. inversion Hr2.
    unfold trajectory. simpl. now rewrite Hstart, Hprincipal.
  - destruct (upto_step _ _ _ H1 (S n))
      as [p1 [r1' [Hp1 [Hr1' [Hs1 [Ht1 _]]]]]]; [lia|].
    destruct (upto_step _ _ _ H2 (S n))
      as [p2 [r2' [Hp2 [Hr2' [Hs2 [Ht2 _]]]]]]; [lia|].
    rewrite Hr1 in Hr1'. inversion Hr1'. subst r1'.
    rewrite Hr2 in Hr2'. inversion Hr2'. subst r2'.
    replace (S n - 1)%nat with n in Hp1, Hp2 by lia.
    assert (Hp : trajectory p1 = trajectory p2).
    { assert (Hl : (trajectory <$> take (S n) rows1) !! n =
                   (trajectory <$> take (S n) rows2) !! n) by now rewrite IH.
      rewrite !list_lookup_fmap, !lookup_take_lt in Hl by lia.
      rewrite Hp1, Hp2 in Hl. exact (Some_inj _ _ Hl). }
    assert (He : TableRow.endingPrinciple r1 = TableRow.endingPrinciple r2).
    { assert (Hu : trajectory (TableRow.set_timeWeightedReturn (ofZ 0) r1) =
                   trajectory (TableRow.set_timeWeightedReturn (ofZ 0) r2)).
      { apply (RowStep_alike p1 p2 (Z.of_nat (S n))).
        - destruct Hs1. constructor; assumption.
        - destruct Hs2. constructor; assumption.
        - exact Hp.
        - reflexivity. }
      exact (f_equal TableRow.endingPrinciple Hu). }
    apply (RowStep_alike p1 p2 (Z.of_nat (S n))); try assumption.
    assert (Hends :
              TableRow.endingPrinciple <$> take (S (S n)) rows1 =
              TableRow.endingPrinciple <$> take (S (S n)) rows2).
    { rewrite (take_S_r _ _ _ Hr1), (take_S_r _ _ _ Hr2), !fmap_app.
      simpl. rewrite He. f_equal.
      pose proof (f_equal (fmap TableRow.endingPrinciple) IH) as Hi.
      rewrite <- !list_fmap_compose in Hi. exact Hi. }
    rewrite (calculateTimeWeightedReturn_same_view
               (with_tableData this1 (take (S (S n)) rows1))
               (with_tableData this2 (take (S (S n)) rows2))
               Hfees Hdefault Hcontribution Hends) in Ht1.
    rewrite Ht1 in Ht2. now inversion Ht2.
Qed.

Lemma tables_alike k rows1 rows2 :
  TableUpTo this1 k rows1 -> TableUpTo this2 k rows2 ->
  trajectory <$> rows1 = trajectory <$> rows2.
Proof.
  intros H1 H2.
  pose proof (tables_alike_prefix k rows1 rows2 H1 H2 (S k) (le_n _))
    as Hp.
  rewrite !take_ge in Hp
    by (rewrite ?(upto_length _ _ _ H1), ?(upto_length _ _ _ H2); lia).
  exact Hp.
Qed.
End StepAlike.

(** C10. With a monthly contribution below zero, [calculate] returns the
    table it returns for the same configuration with a contribution of
    zero, the money-weighted return apart: in every month the starting
    principal is the ending principal of the month before, the cumulative
    contributions stay what they were, and the fee-free balance grows by
    the return alone. *)
Theorem C10_negative_contribution (cfg : InvestmentConfig.t) :
  lt (Global.monthly_contribution (InvestmentConfig.global cfg)) (ofZ 0)
    = true ->
  exists rows rows0,
    calculateInvestment cfg = Ok rows /\
    calculateInvestment (withContribution cfg (ofZ 0)) = Ok rows0 /\
    trajectory <$> rows = trajectory <$> rows0 /\
    forall (m : nat) prevRow row,
      (1 <= m)%nat ->
      rows !! (m - 1)%nat = Some prevRow ->
      rows !! m = Some row ->
      TableRow.startingPrinciple row = TableRow.endingPrinciple prevRow /\
      TableRow.cumulativeContributions row =
        TableRow.cumulativeContributions prevRow /\
      TableRow.valueWithoutFees row =
        plus (TableRow.valueWithoutFees prevRow)
             (mul (TableRow.valueWithoutFees prevRow)
                  (getMonthlyReturnRate (new cfg) (Z.of_nat m))).
Proof.
  intros Hneg. apply lt_not_gt in Hneg.
  destruct (calculateInvestment_spec cfg) as [rows [Hcalc Hrows]].
  destruct (calculateInvestment_spec (withContribution cfg (ofZ 0)))
    as [rows0 [Hcalc0 Hrows0]].
  exists rows, rows0.
  split; [exact Hcalc|]. split; [exact Hcalc0|]. split.
  - apply (tables_alike (new cfg) (new (withContribution cfg (ofZ 0))))
      with (k := Z.to_nat (calculateMonthDifference cfg));
      try reflexivity; try assumption.
    unfold effectiveContribution. simpl. rewrite Hneg. reflexivity.
  - intros m prevRow row Hm Hprev Hrow.
    destruct (Nat.le_gt_cases m (Z.to_nat (calculateMonthDifference cfg)))
      as [Hle|Hgt].
    + destruct (upto_step _ _ _ Hrows m)
        as [p [r [Hp [Hr [Hstep _]]]]]; [lia|].
      rewrite Hprev in Hp. inversion Hp. subst p.
      rewrite Hrow in Hr. inversion Hr. subst r.
      rewrite (step_startingPrinciple _ _ _ _ Hstep),
              (step_cumulativeContributions _ _ _ _ Hstep),
              (step_valueWithoutFees _ _ _ _ Hstep).
      simpl. rewrite Hneg. repeat split; reflexivity.
    + apply lookup_lt_Some in Hrow.
      rewrite (upto_length _ _ _ Hrows) in Hrow. lia.
Qed.

(** *** The accumulators *)

Import DecimalFacts.

Lemma cumulativeFees_rounded this K rows (M : nat) :
  TableUpTo this K rows ->
  (forall k r, (k <= M)%nat -> rows !! k = Some r ->
               gte (TableRow.fees r) (ofZ 0) = true) ->
  forall k r, (k <= M)%nat -> rows !! k = Some r ->
              wellRounded (TableRow.cumulativeFees r) = true.
Proof.
  intros Hrows Hfees k. induction k as [|k IH]; intros r Hk Hr.
  - rewrite (upto_first _ _ _ Hrows) in Hr. simpl in Hr.
    inversion Hr. reflexivity.
  - assert (HkK : (S k <= K)%nat).
    { apply lookup_lt_Some in Hr.
      rewrite (upto_length _ _ _ Hrows) in Hr. lia. }
    destruct (upto_step _ _ _ Hrows (S k))
      as [p [r' [Hp [Hr' [Hstep _]]]]]; [lia|].
    rewrite Hr in Hr'. inversion Hr'. subst r'.
    replace (S k - 1)%nat with k in Hp by lia.
    rewrite (step_cumulativeFees _ _ _ _ Hstep).
    apply plus_gte; [apply (IH p); [lia | exact Hp]|].
    apply (Hfees (S k)); [lia | exact Hr].
Qed.

Lemma cumulativeContributions_rounded this K rows :
  TableUpTo this K rows ->
  wellRounded (Global.starting_principle
                 (InvestmentConfig.global (config this))) = true ->
  forall k r, rows !! k = Some r ->
              wellRounded (TableRow.cumulativeContributions r) = true.
Proof.
  intros Hrows Hsp k. induction k as [|k IH]; intros r Hr.
  - rewrite (upto_first _ _ _ Hrows) in Hr. simpl in Hr.
    inversion Hr. exact Hsp.
  - assert (HkK : (S k <= K)%nat).
    { apply lookup_lt_Some in Hr.
      rewrite (upto_length _ _ _ Hrows) in Hr. lia. }
    destruct (upto_step _ _ _ Hrows (S k))
      as [p [r' [Hp [Hr' [Hstep _]]]]]; [lia|].
    rewrite Hr in Hr'. inversion Hr'. subst r'.
    replace (S k - 1)%nat with k in Hp by lia.
    rewrite (step_cumulativeContributions _ _ _ _ Hstep).
    destruct (gt _ _) eqn:Hgt; [|exact (IH p Hp)].
    apply plus_gte; [exact (IH p Hp) | exact (gt_gte _ _ Hgt)].
Qed.

(** C8, as the code has it. For consecutive rows [m] and [m + 1] of the
    table: the cumulative fees of row [m + 1] are not below those of row
    [m] provided no row up to [m + 1] charges a fee below zero; the
    cumulative contributions of row [m + 1] are not below those of row
    [m] provided the starting principal is a number (+Infinity allowed)
    of at most 20 significant digits. *)
Theorem C8_monotonic_accumulators (cfg : InvestmentConfig.t)
    (rows : list TableRow.t) (m : nat) (prevRow row : TableRow.t) :
  calculateInvestment cfg = Ok rows ->
  rows !! m = Some prevRow ->
  rows !! S m = Some row ->
  ((forall k r, (k <= S m)%nat -> rows !! k = Some r ->
                gte (TableRow.fees r) (ofZ 0) = true) ->
   gte (TableRow.cumulativeFees row) (TableRow.cumulativeFees prevRow)
     = true) /\
  (wellRounded (Global.starting_principle (InvestmentConfig.global cfg))
     = true ->
   gte (TableRow.cumulativeContributions row)
       (TableRow.cumulativeContributions prevRow) = true).
Proof.
  intros Hcalc Hprev Hrow.
  destruct (calculateInvestment_spec cfg) as [rows' [Hcalc' Hrows]].
  rewrite Hcalc in Hcalc'. inversion Hcalc'. subst rows'. clear Hcalc'.
  assert (HmK : (S m <= Z.to_nat (calculateMonthDifference cfg))%nat).
  { apply lookup_lt_Some in Hrow.
    rewrite (upto_length _ _ _ Hrows) in Hrow. lia. }
  destruct (upto_step _ _ _ Hrows (S m))
    as [p [r' [Hp [Hr' [Hstep _]]]]]; [lia|].
  rewrite Hrow in Hr'. inversion Hr'. subst r'.
  replace (S m - 1)%nat with m in Hp by lia.
  rewrite Hprev in Hp. inversion Hp. subst p. split.
  - intros Hfees.
    rewrite (step_cumulativeFees _ _ _ _ Hstep).
    apply plus_gte.
    + apply (cumulativeFees_rounded _ _ _ (S m) Hrows Hfees m);
        [lia | exact Hprev].
    + apply (Hfees (S m)); [lia | exact Hrow].
  - intros Hsp.
    pose proof (cumulativeContributions_rounded _ _ _ Hrows Hsp m prevRow
                  Hprev) as Hrounded.
    rewrite (step_cumulativeContributions _ _ _ _ Hstep).
    destruct (gt _ _) eqn:Hgt.
    + apply plus_gte; [exact Hrounded | exact (gt_gte _ _ Hgt)].
    + apply gte_refl. exact Hrounded.
Qed.

(** *** The money-weighted return without contributions *)

Lemma cumulativeContributions_constant this K rows :
  TableUpTo this K rows ->
  effectiveContribution this = None ->
  forall k r, rows !! k = Some r ->
              TableRow.cumulativeContributions r =
              Global.starting_principle (InvestmentConfig.global (config this)).
Proof.
  intros Hrows Hnone k. induction k as [|k IH]; intros r Hr.
  - rewrite (upto_first _ _ _ Hrows) in Hr. simpl in Hr.
    inversion Hr. reflexivity.
  - assert (HkK : (S k <= K)%nat).
    { apply lookup_lt_Some in Hr.
      rewrite (upto_length _ _ _ Hrows) in Hr. lia. }
    destruct (upto_step _ _ _ Hrows (S k))
      as [p [r' [Hp [Hr' [Hstep _]]]]]; [lia|].
    rewrite Hr in Hr'. inversion Hr'. subst r'.
    replace (S k - 1)%nat with k in Hp by lia.
    rewrite (step_cumulativeContributions _ _ _ _ Hstep).
    unfold effectiveContribution in Hnone.
    destruct (gt _ _); [discriminate|]. exact (IH p Hp).
Qed.

(** X3. With a contribution of exactly zero, the money-weighted return of
    a month stepped at the default rate is the row's total net return
    rate: what the comment in [calculateMoneyWeightedReturn] says. A month
    with an override of another rate is where the two part. *)
Lemma moneyWeightedReturn_at_default_rate (cfg : InvestmentConfig.t)
    (m : nat) :
  isZero (Global.monthly_contribution (InvestmentConfig.global cfg)) = true ->
  getMonthlyReturnRate (new cfg) (Z.of_nat m)
    = defaultMonthlyReturnRate (new cfg) ->
  (1 <= m <= Z.to_nat (calculateMonthDifference cfg))%nat ->
  exists rows row,
    calculateInvestment cfg = Ok rows /\
    rows !! m = Some row /\
    TableRow.moneyWeightedReturn row = TableRow.totalNetReturnRate row.
Proof.
  intros Hzero Hrate Hm.
  destruct (calculateInvestment_spec cfg) as [rows [Hcalc Hrows]].
  destruct (upto_step _ _ _ Hrows m)
    as [p [row [Hp [Hrow [Hstep [_ Hmwr]]]]]]; [lia|].
  exists rows, row. split; [exact Hcalc|]. split; [exact Hrow|].
  pose proof (isZero_not_gt _ Hzero) as Hgt.
  assert (Hnone : effectiveContribution (new cfg) = None).
  { unfold effectiveContribution. simpl. now rewrite Hgt. }
  revert Hmwr. unfold calculateMoneyWeightedReturn.
  destruct (Z.eqb_spec (Z.of_nat m) 0); [lia|].
  simpl config. simpl tableData. rewrite Hzero.
  replace (Z.of_nat m - 1) with (Z.of_nat (m - 1)) by lia.
  rewrite at_index_nat, lookup_take_lt by lia. rewrite Hp. simpl.
  intros Heq. inversion Heq as [Heq']. clear Heq.
  rewrite (step_totalNetReturnRate _ _ _ _ Hstep).
  rewrite (cumulativeContributions_constant _ _ _ Hrows Hnone m row Hrow).
  rewrite (step_endingPrinciple _ _ _ _ Hstep), (step_fees _ _ _ _ Hstep),
    (step_returns _ _ _ _ Hstep), (step_startingPrinciple _ _ _ _ Hstep).
  simpl config. rewrite Hgt, Hrate. reflexivity.
Qed.

End Behaviour.

(** ** The table as a whole *)

Section TableProperties.
Context `{JSHost}.

Import Decimal.

Lemma table_lookup_step this K rows (m : nat) row :
  TableUpTo this K rows ->
  rows !! S m = Some row ->
  exists prevRow,
    rows !! m = Some prevRow /\
    RowStep this prevRow (Z.of_nat (S m)) row /\
    calculateTimeWeightedReturn
      (with_tableData this (take (S (S m)) rows)) (Z.of_nat (S m)) =
      Ok (TableRow.timeWeightedReturn row) /\
    calculateMoneyWeightedReturn
      (with_tableData this (take (S (S m)) rows)) (Z.of_nat (S m)) =
      Ok (TableRow.moneyWeightedReturn row).
Proof.
  intros Hrows Hrow.
  assert (HmK : (S m <= K)%nat).
  { apply lookup_lt_Some in Hrow.
    rewrite (upto_length _ _ _ Hrows) in Hrow. lia. }
  destruct (upto_step _ _ _ Hrows (S m))
    as [p [r' [Hp [Hr' Hrest]]]]; [lia|].
  rewrite Hrow in Hr'. inversion Hr'. subst r'.
  replace (S m - 1)%nat with m in Hp by lia.
  exists p. split; [exact Hp | exact Hrest].
Qed.

Lemma table_lookup_first this K rows row :
  TableUpTo this K rows ->
  rows !! 0%nat = Some row ->
  row = hd row (tableData (initializeTable this)).
Proof.
  intros Hrows Hrow. rewrite (upto_first _ _ _ Hrows) in Hrow.
  simpl in Hrow. now inversion Hrow.
Qed.

(** X9. In every row [m] the cumulative fees are the fees of the rows 0..m
    summed in row order from a decimal zero, each sum rounded as [plus]
    rounds. *)
Theorem cumulativeFees_running_sum (cfg : InvestmentConfig.t) :
  exists rows,
    calculateInvestment cfg = Ok rows /\
    forall (m : nat) row,
      rows !! m = Some row ->
      TableRow.cumulativeFees row =
      foldl plus (ofZ 0) (TableRow.fees <$> take (S m) rows).
Proof.
  destruct (calculateInvestment_spec cfg) as [rows [Hcalc Hrows]].
  exists rows. split; [exact Hcalc|].
  intros m. induction m as [|m IH]; intros row Hrow.
  - rewrite (take_S_r _ _ _ Hrow). simpl.
    rewrite (table_lookup_first _ _ _ _ Hrows Hrow). reflexivity.
  - destruct (table_lookup_step _ _ _ _ _ Hrows Hrow)
      as [p [Hp [Hstep _]]].
    rewrite (take_S_r _ _ _ Hrow), fmap_app, foldl_app. simpl.
    rewrite <- (IH p Hp). exact (step_cumulativeFees _ _ _ _ Hstep).
Qed.

(** X11. With a monthly contribution that is not above zero (zero,
    negative or NaN), in every row from month 1 on the starting principal
    is the ending principal of the row before, the cumulative
    contributions are the starting principal of the configuration, the two
    month-over-month net rates coincide, and the total net return rate is
    the ending principal over the starting principal of the configuration,
    minus 1, times 100. *)
Theorem no_contribution_rows (cfg : InvestmentConfig.t) :
  gt (Global.monthly_contribution (InvestmentConfig.global cfg)) (ofZ 0)
    = false ->
  exists rows,
    calculateInvestment cfg = Ok rows /\
    forall (m : nat) prevRow row,
      rows !! m = Some prevRow ->
      rows !! S m = Some row ->
      TableRow.startingPrinciple row = TableRow.endingPrinciple prevRow /\
      TableRow.cumulativeContributions row =
        Global.starting_principle (InvestmentConfig.global cfg) /\
      TableRow.momNetReturnRate row =
        TableRow.momNetExclContribReturnRate row /\
      TableRow.totalNetReturnRate row =
        mul (minus (div (TableRow.endingPrinciple row)
                        (Global.starting_principle
                           (InvestmentConfig.global cfg)))
                   (ofZ 1))
            (ofZ 100).
Proof.
  intros Hgt.
  destruct (calculateInvestment_spec cfg) as [rows [Hcalc Hrows]].
  exists rows. split; [exact Hcalc|].
  intros m prevRow row Hprev Hrow.
  destruct (table_lookup_step _ _ _ _ _ Hrows Hrow) as [p [Hp [Hstep _]]].
  rewrite Hprev in Hp. inversion Hp. subst p.
  assert (Hnone : effectiveContribution (new cfg) = None).
  { unfold effectiveContribution. simpl. now rewrite Hgt. }
  assert (Hstart : TableRow.startingPrinciple row =
                   TableRow.endingPrinciple prevRow).
  { rewrite (step_startingPrinciple _ _ _ _ Hstep). simpl.
    now rewrite Hgt. }
  split; [exact Hstart|]. split; [|split].
  - exact (cumulativeContributions_constant _ _ _ Hrows Hnone _ _ Hrow).
  - rewrite (step_momNetReturnRate _ _ _ _ Hstep),
      (step_momNetExclContribReturnRate _ _ _ _ Hstep), Hstart.
    reflexivity.
  - rewrite (step_totalNetReturnRate _ _ _ _ Hstep),
      (cumulativeContributions_constant _ _ _ Hrows Hnone _ _ Hrow).
    reflexivity.
Qed.

Import DecimalForms.

(** X10. With an empty list of fees, every row has a fee and cumulative
    fees of zero, its balance without fees is its ending principal, its
    total gross return rate is its total net return rate, and from month 1
    on its ending principal is its starting principal plus its return. *)
Theorem no_fees_rows (cfg : InvestmentConfig.t) :
  InvestmentConfig.fees cfg = [] ->
  exists rows,
    calculateInvestment cfg = Ok rows /\
    forall (m : nat) row,
      rows !! m = Some row ->
      TableRow.fees row = ofZ 0 /\
      TableRow.cumulativeFees row = ofZ 0 /\
      TableRow.endingPrinciple row =
        (if m is O then Global.starting_principle (InvestmentConfig.global cfg)
         else plus (TableRow.startingPrinciple row) (TableRow.returns row)) /\
      TableRow.valueWithoutFees row = TableRow.endingPrinciple row /\
      TableRow.totalGrossReturnRate row = TableRow.totalNetReturnRate row.
Proof.
  intros Hfees.
  destruct (calculateInvestment_spec cfg) as [rows [Hcalc Hrows]].
  exists rows. split; [exact Hcalc|].
  intros m. induction m as [|m IH]; intros row Hrow.
  - rewrite (table_lookup_first _ _ _ _ Hrows Hrow). simpl.
    repeat split; reflexivity.
  - destruct (table_lookup_step _ _ _ _ _ Hrows Hrow)
      as [p [Hp [Hstep _]]].
    destruct (IH p Hp) as [_ [Hcum [_ [Hvalue _]]]].
    assert (Hfee : TableRow.fees row = ofZ 0).
    { rewrite (step_fees _ _ _ _ Hstep). unfold calculateMonthlyFees.
      simpl. now rewrite Hfees. }
    assert (Hend : TableRow.endingPrinciple row =
                   plus (TableRow.startingPrinciple row)
                        (TableRow.returns row)).
    { rewrite (step_endingPrinciple _ _ _ _ Hstep), Hfee.
      apply minus_zero, plus_canonical. }
    assert (Hv : TableRow.valueWithoutFees row =
                 TableRow.endingPrinciple row).
    { rewrite Hend, (step_valueWithoutFees _ _ _ _ Hstep),
        (step_returns _ _ _ _ Hstep),
        (step_startingPrinciple _ _ _ _ Hstep), Hvalue.
      now destruct (gt _ _). }
    split; [exact Hfee|]. split; [|split; [exact Hend|split; [exact Hv|]]].
    + rewrite (step_cumulativeFees _ _ _ _ Hstep), Hcum, Hfee. reflexivity.
    + rewrite (step_totalGrossReturnRate _ _ _ _ Hstep),
        (step_totalNetReturnRate _ _ _ _ Hstep), Hv. reflexivity.
Qed.


(** *** The time-weighted return *)

Lemma mapM_result_throw {A B : Type} (f : A -> result B) (l1 l2 : list A)
    (x : A) ys e :
  mapM f l1 = Ok ys -> f x = Throw e -> mapM f (l1 ++ x :: l2) = Throw e.
Proof.
  revert ys. induction l1 as [|a l1 IH]; intros ys Hl1 Hx; simpl.
  - now rewrite Hx.
  - simpl in Hl1. destruct (f a) as [b|e']; [|discriminate]. simpl in *.
    destruct (mapM f l1) as [bs|e']; [|discriminate].
    now rewrite (IH bs eq_refl Hx).
Qed.

Lemma mapM_result_option {B : Type} (f : Z -> result B)
    (g : nat -> option B) (l : list nat) ys :
  (forall i y, i ∈ l -> f (Z.of_nat i) = Ok y -> g i = Some y) ->
  mapM f (Z.of_nat <$> l) = Ok ys -> mapM g l = Some ys.
Proof.
  revert ys. induction l as [|i l IH]; intros ys Hfg Heq.
  - now inversion Heq.
  - rewrite fmap_cons in Heq. cbn [mapM] in Heq |- *.
    destruct (f (Z.of_nat i)) as [y|e] eqn:Hy; [|discriminate Heq].
    destruct (mapM f (Z.of_nat <$> l)) as [k|e] eqn:Hk; [|discriminate Heq].
    inversion Heq. subst ys.
    rewrite (Hfg i y) by (left || assumption).
    rewrite (IH k); [reflexivity | | reflexivity].
    intros j z Hj. apply Hfg. now right.
Qed.

Lemma seqZ_of_seq (k : nat) : seqZ 1 (Z.of_nat k) = Z.of_nat <$> seq 1 k.
Proof.
  unfold seqZ. rewrite Nat2Z.id, <- fmap_S_seq, <- list_fmap_compose.
  apply list_fmap_ext. intros _ i _. simpl. lia.
Qed.

Lemma at_index_Some {A : Type} (a : list A) (i : Z) (x : A) :
  at_index a i = Some x -> 0 <= i /\ a !! Z.to_nat i = Some x.
Proof.
  unfold at_index. destruct (Z.ltb_spec i 0); [discriminate|].
  intros Hx. split; [lia | exact Hx].
Qed.

Lemma calculateSinglePeriodReturn_inv this month r :
  calculateSinglePeriodReturn this month = Ok r ->
  exists prevRow row,
    1 <= month < Z.of_nat (length (tableData this)) /\
    tableData this !! Z.to_nat (month - 1) = Some prevRow /\
    tableData this !! Z.to_nat month = Some row /\
    r = periodReturn (effectiveContribution this)
          (TableRow.endingPrinciple prevRow) (TableRow.endingPrinciple row).
Proof.
  unfold calculateSinglePeriodReturn, effectiveContribution.
  destruct (Z.leb_spec (Z.of_nat (length (tableData this))) month);
    [discriminate|].
  destruct (at_index (tableData this) (month - 1)) as [p|] eqn:Hp;
    [|discriminate].
  destruct (at_index (tableData this) month) as [c|] eqn:Hc;
    [|discriminate].
  apply at_index_Some in Hp as [Hp0 Hp], Hc as [Hc0 Hc].
  simpl. intros Hr. exists p, c.
  split; [lia|]. split; [exact Hp|]. split; [exact Hc|].
  destruct (gt _ _); now inversion Hr.
Qed.

Lemma calculateSinglePeriodReturn_beyond this month :
  Z.of_nat (length (tableData this)) <= month ->
  calculateSinglePeriodReturn this month =
  Throw (Error ("Cannot calculate period return for month "
                +:+ pretty month +:+ ": row not in table yet")).
Proof.
  intros Hm. unfold calculateSinglePeriodReturn.
  destruct (Z.leb_spec (Z.of_nat (length (tableData this))) month);
    [reflexivity | lia].
Qed.

Lemma calculateSinglePeriodReturn_take this (n : nat) month :
  1 <= month < Z.of_nat n ->
  calculateSinglePeriodReturn
    (with_tableData this (take n (tableData this))) month =
  calculateSinglePeriodReturn this month.
Proof.
  intros Hm. unfold calculateSinglePeriodReturn. simpl.
  unfold at_index.
  destruct (Z.ltb_spec (month - 1) 0); [lia|].
  destruct (Z.ltb_spec month 0); [lia|].
  rewrite !lookup_take_lt by lia. rewrite length_take.
  destruct (Z.leb_spec (Z.of_nat (length (tableData this))) month) as [Hge|Hlt].
  - destruct (Z.leb_spec (Z.of_nat (n `min` length (tableData this))) month);
      [reflexivity | lia].
  - destruct (Z.leb_spec (Z.of_nat (n `min` length (tableData this))) month);
      [lia | reflexivity].
Qed.


Lemma calculateTimeWeightedReturn_linked this rows (n m : nat) r :
  (1 <= m)%nat ->
  calculateTimeWeightedReturn (with_tableData this (take n rows))
                              (Z.of_nat m) = Ok r ->
  exists completed prevRow,
    completedPeriodReturns this rows m = Some completed /\
    rows !! (m - 1)%nat = Some prevRow /\
    r = linkReturns (completed ++ [defaultRatePeriodReturn this prevRow]).
Proof.
  intros Hm. unfold calculateTimeWeightedReturn.
  destruct (Z.eqb_spec (Z.of_nat m) 0); [lia|].
  destruct (Z.gtb_spec (Z.of_nat m) 0); [|lia].
  replace (Z.of_nat m - 1) with (Z.of_nat (m - 1)) by lia.
  rewrite seqZ_of_seq, at_index_nat.
  destruct (mapM _ (Z.of_nat <$> seq 1 (m - 1))) as [completed|e] eqn:Hmap;
    [|discriminate].
  simpl tableData.
  destruct (take n rows !! (m - 1)%nat) as [prevRow|] eqn:Hprev;
    [|discriminate].
  apply lookup_take_Some in Hprev as [Hprev _].
  intros Hr. exists completed, prevRow.
  split; [|split; [exact Hprev|]].
  - unfold completedPeriodReturns.
    eapply mapM_result_option; [|exact Hmap].
    intros i y _ Hy.
    apply calculateSinglePeriodReturn_inv in Hy
      as [p [c [Hi [Hp [Hc ->]]]]].
    simpl tableData in Hp, Hc.
    apply lookup_take_Some in Hp as [Hp _], Hc as [Hc _].
    replace (Z.to_nat (Z.of_nat i - 1)) with (i - 1)%nat in Hp by lia.
    rewrite Nat2Z.id in Hc. rewrite Hp, Hc. reflexivity.
  - simpl in Hr. inversion Hr as [Hr']. clear Hr Hr'.
    unfold defaultRatePeriodReturn, effectiveContribution.
    simpl config.
    destruct (gt (Global.monthly_contribution
                    (InvestmentConfig.global (config this))) (ofZ 0))
      eqn:Hgt; simpl; [rewrite Hgt|]; reflexivity.
Qed.

(** X1. For every month [m] from 1 to the month count, the time-weighted
    return written into row [m] is the geometric linking of the period
    returns of the months 1..m-1, each read from the ending principals of
    two consecutive rows, followed by the return of month [m] as
    [calculateTimeWeightedReturn] replays it from row [m - 1]: at the
    default monthly rate, the contribution (a decimal zero when the
    configured one is not above zero) added first and the fees charged
    after the return. *)
Theorem timeWeightedReturn_linked (cfg : InvestmentConfig.t) (m : nat) :
  (1 <= m <= Z.to_nat (calculateMonthDifference cfg))%nat ->
  exists rows prevRow row completed,
    calculateInvestment cfg = Ok rows /\
    rows !! (m - 1)%nat = Some prevRow /\
    rows !! m = Some row /\
    completedPeriodReturns (new cfg) rows m = Some completed /\
    TableRow.timeWeightedReturn row =
    linkReturns (completed ++ [defaultRatePeriodReturn (new cfg) prevRow]).
Proof.
  intros Hm.
  destruct (calculateInvestment_spec cfg) as [rows [Hcalc Hrows]].
  destruct (upto_step _ _ _ Hrows m)
    as [p [row [Hp [Hrow [_ [Htwr _]]]]]]; [lia|].
  apply calculateTimeWeightedReturn_linked in Htwr
    as [completed [p' [Hcompleted [Hp' Hr]]]]; [|lia].
  rewrite Hp in Hp'. inversion Hp'. subst p'.
  exists rows, p, row, completed. auto.
Qed.

(** X2. With a monthly contribution above zero, in a month [m] stepped at
    the default monthly rate, the replay gives the ending principal that
    row [m] holds: the time-weighted return of row [m] is the linking of
    the period returns of the months 1..m, all read from the table. *)
Theorem timeWeightedReturn_at_default_rate (cfg : InvestmentConfig.t)
    (m : nat) :
  gt (Global.monthly_contribution (InvestmentConfig.global cfg)) (ofZ 0)
    = true ->
  getMonthlyReturnRate (new cfg) (Z.of_nat m)
    = defaultMonthlyReturnRate (new cfg) ->
  (1 <= m <= Z.to_nat (calculateMonthDifference cfg))%nat ->
  exists rows row periodReturns,
    calculateInvestment cfg = Ok rows /\
    rows !! m = Some row /\
    completedPeriodReturns (new cfg) rows (S m) = Some periodReturns /\
    TableRow.timeWeightedReturn row = linkReturns periodReturns.
Proof.
  intros Hgt Hrate Hm.
  destruct (calculateInvestment_spec cfg) as [rows [Hcalc Hrows]].
  destruct (upto_step _ _ _ Hrows m)
    as [p [row [Hp [Hrow [Hstep [Htwr _]]]]]]; [lia|].
  apply calculateTimeWeightedReturn_linked in Htwr
    as [completed [p' [Hcompleted [Hp' Hr]]]]; [|lia].
  rewrite Hp in Hp'. inversion Hp'. subst p'.
  exists rows, row,
    (completed ++ [periodReturn (effectiveContribution (new cfg))
                     (TableRow.endingPrinciple p)
                     (TableRow.endingPrinciple row)]).
  split; [exact Hcalc|]. split; [exact Hrow|]. split.
  - unfold completedPeriodReturns in *.
    replace (S m - 1)%nat with (S (m - 1)) by lia.
    rewrite seq_S. apply mapM_Some_2, Forall2_app.
    + now apply mapM_Some_1.
    + constructor; [|constructor].
      replace (1 + (m - 1))%nat with m by lia.
      now rewrite Hp, Hrow.
  - rewrite Hr. do 3 f_equal.
    unfold defaultRatePeriodReturn, effectiveContribution.
    simpl config. rewrite Hgt. simpl. f_equal.
    rewrite (step_endingPrinciple _ _ _ _ Hstep), (step_fees _ _ _ _ Hstep),
      (step_returns _ _ _ _ Hstep), (step_startingPrinciple _ _ _ _ Hstep).
    simpl config. rewrite Hgt, Hrate. reflexivity.
Qed.

Lemma linkReturns_nil : linkReturns [] = ofZ 0.
Proof. vm_compute. reflexivity. Qed.

(** X13. [calculateTimeWeightedReturn] over a table of [n] rows: for a
    month of 0 or less it returns 0; for a month from 1 to [n] it returns,
    and returns the same on the table cut to the rows before that month
    (row [currentMonth] is not read); for a month beyond [n] it throws:
    the error of [calculateSinglePeriodReturn] for the first month whose
    row is missing, or a TypeError when the table is empty and the month
    is 1. *)
Theorem calculateTimeWeightedReturn_domain (this : InvestmentCalculator)
    (currentMonth : Z) :
  let n := Z.of_nat (length (tableData this)) in
  (currentMonth <= 0 ->
   calculateTimeWeightedReturn this currentMonth = Ok (ofZ 0)) /\
  (1 <= currentMonth <= n ->
   exists r,
     calculateTimeWeightedReturn this currentMonth = Ok r /\
     calculateTimeWeightedReturn
       (with_tableData this (take (Z.to_nat currentMonth) (tableData this)))
       currentMonth = Ok r) /\
  (n < currentMonth ->
   calculateTimeWeightedReturn this currentMonth =
   Throw (if (n =? 0) && (currentMonth =? 1) then TypeError
          else Error ("Cannot calculate period return for month "
                      +:+ pretty (Z.max 1 n)
                      +:+ ": row not in table yet"))).
Proof.
  intros n. split; [|split].
  - intros Hm. unfold calculateTimeWeightedReturn.
    destruct (Z.eqb_spec currentMonth 0); [reflexivity|].
    unfold seqZ. replace (Z.to_nat (currentMonth - 1)) with 0%nat by lia.
    simpl. destruct (Z.gtb_spec currentMonth 0); [lia|].
    change (Ok (linkReturns []) = Ok (ofZ 0)).
    now rewrite linkReturns_nil.
  - intros Hm.
    assert (Hext : mapM (calculateSinglePeriodReturn
                           (with_tableData this
                              (take (Z.to_nat currentMonth) (tableData this))))
                        (seqZ 1 (currentMonth - 1)) =
                   mapM (calculateSinglePeriodReturn this)
                        (seqZ 1 (currentMonth - 1))).
    { apply mapM_result_ext. intros i Hi. apply elem_of_seqZ in Hi.
      apply calculateSinglePeriodReturn_take. lia. }
    unfold calculateTimeWeightedReturn. rewrite Hext.
    destruct (Z.eqb_spec currentMonth 0); [lia|].
    destruct (mapM_result_ok (calculateSinglePeriodReturn this)
                (seqZ 1 (currentMonth - 1))) as [rs [Hrs _]].
    { intros i Hi. apply elem_of_seqZ in Hi.
      apply calculateSinglePeriodReturn_ok. fold n. lia. }
    rewrite Hrs. simpl mbind at 2 4.
    destruct (Z.gtb_spec currentMonth 0); [|lia].
    simpl tableData. unfold at_index.
    destruct (Z.ltb_spec (currentMonth - 1) 0); [lia|].
    rewrite lookup_take_lt by lia.
    destruct (lookup_lt_is_Some_2 (tableData this)
                (Z.to_nat (currentMonth - 1))) as [p Hp]; [fold n; lia|].
    rewrite Hp. simpl. eauto.
  - intros Hm. unfold calculateTimeWeightedReturn.
    destruct (Z.eqb_spec currentMonth 0); [lia|].
    destruct (Z.eqb_spec n 0) as [Hn0|Hn0];
      [destruct (Z.eqb_spec currentMonth 1) as [Hm1|Hm1]|]; simpl andb;
      cbv iota.
    + subst currentMonth. simpl.
      destruct (tableData this); [reflexivity | simpl in n; lia].
    + rewrite seqZ_cons by lia. cbn [mapM].
      rewrite calculateSinglePeriodReturn_beyond by (fold n; lia).
      rewrite Hn0. reflexivity.
    + replace (currentMonth - 1)
        with ((n - 1) + (1 + (currentMonth - 1 - n))) by lia.
      rewrite seqZ_app by lia. rewrite (seqZ_cons _ (1 + _)) by lia.
      destruct (mapM_result_ok (calculateSinglePeriodReturn this)
                  (seqZ 1 (n - 1))) as [rs [Hrs _]].
      { intros i Hi. apply elem_of_seqZ in Hi.
        apply calculateSinglePeriodReturn_ok. fold n. lia. }
      erewrite mapM_result_throw;
        [reflexivity | exact Hrs |].
      rewrite calculateSinglePeriodReturn_beyond by (fold n; lia).
      replace (1 + (n - 1)) with n by lia.
      replace (Z.max 1 n) with n by lia. reflexivity.
Qed.


(** *** The money-weighted return with contributions *)

#[local] Arguments newtonRaphson : simpl never.
#[local] Arguments calculateImprovedIRR_counted : simpl never.

Lemma schedule_loop (cf : float) (mk : Z -> Date) (m : nat)
    (cashFlows : list float) (dates : list Date) :
  foldl (fun '(cashFlows, dates) i =>
           if true then (cashFlows ++ [cf], dates ++ [mk i])
           else (cashFlows, dates))
        (cashFlows, dates) (seqZ 1 (Z.of_nat m)) =
  (cashFlows ++ replicate m cf,
   dates ++ ((fun i : nat => mk (Z.of_nat i)) <$> seq 1 m)).
Proof.
  rewrite seqZ_of_seq, foldl_fmap.
  induction m as [|m IH].
  - simpl. now rewrite !app_nil_r.
  - rewrite seq_S, foldl_app, IH, replicate_S_end, fmap_app, !app_assoc.
    reflexivity.
Qed.

Lemma buildCashFlowSchedule_closed this (m : nat) row :
  isZero (Global.monthly_contribution
            (InvestmentConfig.global (config this))) = false ->
  tableData this !! m = Some row ->
  buildCashFlowSchedule this (Z.of_nat m) =
  Ok (scheduleCashFlows (config this) m (TableRow.endingPrinciple row),
      scheduleDates (config this) m).
Proof.
  intros Hzero Hrow. unfold buildCashFlowSchedule.
  rewrite Hzero. cbv [negb].
  rewrite (schedule_loop _
             (fun i => setMonth (Global.start_date
                                   (InvestmentConfig.global (config this)))
                         (getMonth (Global.start_date
                                      (InvestmentConfig.global (config this)))
                          + i))).
  pose proof (lookup_lt_Some _ _ _ Hrow) as Hlt.
  destruct (Z.gtb_spec (Z.of_nat (length (tableData this))) (Z.of_nat m));
    [|lia].
  rewrite at_index_nat, Hrow. reflexivity.
Qed.

Lemma calculateImprovedIRR_run cashFlows dates :
  length cashFlows = length dates ->
  exists rate,
    calculateImprovedIRR cashFlows dates = Ok rate /\
    SolverRun cashFlows (datesToYearFractions dates) 100 0.1%float rate.
Proof.
  intros Hlen. unfold calculateImprovedIRR, calculateImprovedIRR_counted.
  rewrite Hlen, Nat.eqb_refl. cbv [negb].
  pose proof (newtonRaphson_run MAX_ITERATIONS 0 cashFlows
                (datesToYearFractions dates) 0.1%float) as Hrun.
  destruct (newtonRaphson MAX_ITERATIONS 0 cashFlows
              (datesToYearFractions dates) 0.1%float) as [rate n].
  exists rate. split; [reflexivity | exact Hrun].
Qed.

(** X4. With a monthly contribution that is not zero, the money-weighted
    return of row [m], for [m] from 1 to the month count, is 100 times the
    rate that the Newton-Raphson run (guess 0.1, budget 100) returns on
    this schedule: the starting principal out at the start date, the
    contribution out at each of the [m] dates 1..m months after it, and
    the ending principal of row [m] in at [m] months after it. *)
Theorem moneyWeightedReturn_schedule (cfg : InvestmentConfig.t) (m : nat) :
  isZero (Global.monthly_contribution (InvestmentConfig.global cfg))
    = false ->
  (1 <= m <= Z.to_nat (calculateMonthDifference cfg))%nat ->
  exists rows row rate,
    calculateInvestment cfg = Ok rows /\
    rows !! m = Some row /\
    SolverRun (scheduleCashFlows cfg m (TableRow.endingPrinciple row))
              (datesToYearFractions (scheduleDates cfg m))
              100 0.1%float rate /\
    TableRow.moneyWeightedReturn row = mul (ofNumber rate) (ofZ 100).
Proof.
  intros Hzero Hm.
  destruct (calculateInvestment_spec cfg) as [rows [Hcalc Hrows]].
  destruct (upto_step _ _ _ Hrows m)
    as [p [row [_ [Hrow [_ [_ Hmwr]]]]]]; [lia|].
  revert Hmwr. unfold calculateMoneyWeightedReturn.
  destruct (Z.eqb_spec (Z.of_nat m) 0); [lia|].
  simpl config. rewrite Hzero.
  rewrite (buildCashFlowSchedule_closed _ m row);
    [| exact Hzero | simpl; rewrite lookup_take_lt by lia; exact Hrow ].
  simpl config.
  destruct (calculateImprovedIRR_run
              (scheduleCashFlows cfg m (TableRow.endingPrinciple row))
              (scheduleDates cfg m)) as [rate [Hirr Hrun]].
  { unfold scheduleCashFlows, scheduleDates. simpl.
    rewrite !length_app, length_replicate, length_fmap, length_seq.
    reflexivity. }
  cbn [mbind result_bind]. rewrite Hirr. cbn [mbind result_bind].
  intros Heq. inversion Heq as [Heq'].
  exists rows, row, rate. auto.
Qed.


(** X5. The two ways [calculateMoneyWeightedReturn] has of finding the
    final value agree on a month stepped at the default rate: called on
    the table before row [m] is pushed, where the final value is replayed
    from row [m - 1], it returns what row [m] holds, where the final value
    was read from the row. *)
Theorem moneyWeightedReturn_before_push (cfg : InvestmentConfig.t)
    (m : nat) :
  getMonthlyReturnRate (new cfg) (Z.of_nat m)
    = defaultMonthlyReturnRate (new cfg) ->
  (1 <= m <= Z.to_nat (calculateMonthDifference cfg))%nat ->
  exists rows row,
    calculateInvestment cfg = Ok rows /\
    rows !! m = Some row /\
    calculateMoneyWeightedReturn
      (with_tableData (new cfg) (take m rows)) (Z.of_nat m) =
    Ok (TableRow.moneyWeightedReturn row).
Proof.
  intros Hrate Hm.
  destruct (calculateInvestment_spec cfg) as [rows [Hcalc Hrows]].
  destruct (upto_step _ _ _ Hrows m)
    as [p [row [Hp [Hrow [Hstep [_ Hmwr]]]]]]; [lia|].
  exists rows, row. split; [exact Hcalc|]. split; [exact Hrow|].
  rewrite <- Hmwr. clear Hmwr.
  pose proof (upto_length _ _ _ Hrows) as Hlen.
  assert (Hreplay :
            endingPrincipleAtDefaultRate (new cfg)
              (if gt (Global.monthly_contribution
                        (InvestmentConfig.global cfg)) (ofZ 0)
               then plus (TableRow.endingPrinciple p)
                         (Global.monthly_contribution
                            (InvestmentConfig.global cfg))
               else TableRow.endingPrinciple p) =
            TableRow.endingPrinciple row).
  { rewrite (step_endingPrinciple _ _ _ _ Hstep), (step_fees _ _ _ _ Hstep),
      (step_returns _ _ _ _ Hstep), (step_startingPrinciple _ _ _ _ Hstep).
    simpl config. rewrite Hrate. reflexivity. }
  unfold calculateMoneyWeightedReturn, buildCashFlowSchedule.
  simpl config. simpl tableData.
  replace (Z.of_nat m - 1) with (Z.of_nat (m - 1)) by lia.
  rewrite !at_index_nat, !length_take.
  rewrite (lookup_take_lt rows m (m - 1)),
    (lookup_take_lt rows (S m) (m - 1)), (lookup_take_lt rows (S m) m)
    by lia.
  rewrite Hp, Hrow.
  destruct (Z.eqb_spec (Z.of_nat m) 0); [lia|].
  destruct (isZero _); [reflexivity|].
  destruct (foldl _ _ _) as [cfs ds].
  destruct (Z.gtb_spec (Z.of_nat (m `min` length rows)) (Z.of_nat m));
    [lia|].
  destruct (Z.gtb_spec (Z.of_nat (S m `min` length rows)) (Z.of_nat m));
    [|lia].
  cbn [defined mbind result_bind].
  change (endingPrincipleAtDefaultRate
            (with_tableData (new cfg) (take m rows)))
    with (endingPrincipleAtDefaultRate (new cfg)).
  now rewrite Hreplay.
Qed.

(** *** Two calculators that read the same numbers *)

Lemma TableRow_eq (r1 r2 : TableRow.t) :
  trajectory r1 = trajectory r2 ->
  TableRow.moneyWeightedReturn r1 = TableRow.moneyWeightedReturn r2 ->
  r1 = r2.
Proof.
  destruct r1, r2. unfold trajectory. simpl.
  intros Heq Hm. inversion Heq. subst. reflexivity.
Qed.

Lemma RowStep_unset this p m r :
  RowStep this p m r ->
  RowStep this p m
    (TableRow.set_moneyWeightedReturn (ofZ 0)
       (TableRow.set_timeWeightedReturn (ofZ 0) r)).
Proof. intros []. constructor; assumption. Qed.

Section SameNumbers.
Variables this1 this2 : InvestmentCalculator.
Hypothesis Hfee :
  forall x, calculateMonthlyFees this1 x = calculateMonthlyFees this2 x.
Hypothesis Hdefault :
  defaultMonthlyReturnRate this1 = defaultMonthlyReturnRate this2.
Variable bound : Z.
Hypothesis Hrate :
  forall m, 1 <= m <= bound ->
            getMonthlyReturnRate this1 m = getMonthlyReturnRate this2 m.
Hypothesis Hcontribution :
  Global.monthly_contribution (InvestmentConfig.global (config this1)) =
  Global.monthly_contribution (InvestmentConfig.global (config this2)).
Hypothesis Hstart :
  Global.start_date (InvestmentConfig.global (config this1)) =
  Global.start_date (InvestmentConfig.global (config this2)).
Hypothesis Hprincipal :
  Global.starting_principle (InvestmentConfig.global (config this1)) =
  Global.starting_principle (InvestmentConfig.global (config this2)).

Lemma endingPrincipleAtDefaultRate_same_numbers rows x :
  endingPrincipleAtDefaultRate (with_tableData this1 rows) x =
  endingPrincipleAtDefaultRate (with_tableData this2 rows) x.
Proof.
  change (endingPrincipleAtDefaultRate this1 x =
          endingPrincipleAtDefaultRate this2 x).
  unfold endingPrincipleAtDefaultRate. now rewrite Hdefault, Hfee.
Qed.

Lemma calculateTimeWeightedReturn_same_numbers rows month :
  calculateTimeWeightedReturn (with_tableData this1 rows) month =
  calculateTimeWeightedReturn (with_tableData this2 rows) month.
Proof.
  unfold calculateTimeWeightedReturn.
  destruct (month =? 0); [reflexivity|].
  rewrite (mapM_result_ext
             (calculateSinglePeriodReturn (with_tableData this1 rows))
             (calculateSinglePeriodReturn (with_tableData this2 rows))).
  2:{ intros i _. apply calculateSinglePeriodReturn_same_view;
        [|reflexivity].
      unfold effectiveContribution. simpl. now rewrite Hcontribution. }
  destruct (mapM _ _) as [periodReturns|e]; [|reflexivity].
  cbn [mbind result_bind]. destruct (month >? 0); [|reflexivity].
  simpl tableData. simpl config.
  destruct (at_index rows (month - 1)) as [p|]; [|reflexivity].
  cbn [defined mbind result_bind]. rewrite Hcontribution.
  now rewrite (endingPrincipleAtDefaultRate_same_numbers rows).
Qed.

Lemma buildCashFlowSchedule_same_numbers rows month :
  buildCashFlowSchedule (with_tableData this1 rows) month =
  buildCashFlowSchedule (with_tableData this2 rows) month.
Proof.
  unfold buildCashFlowSchedule. simpl config. simpl tableData.
  rewrite Hcontribution, Hstart, Hprincipal.
  destruct (foldl _ _ _) as [cfs ds].
  destruct (_ >? _); [reflexivity|].
  destruct (at_index rows (month - 1)) as [p|]; [|reflexivity].
  cbn [defined mbind result_bind].
  now rewrite (endingPrincipleAtDefaultRate_same_numbers rows).
Qed.

Lemma calculateMoneyWeightedReturn_same_numbers rows month :
  calculateMoneyWeightedReturn (with_tableData this1 rows) month =
  calculateMoneyWeightedReturn (with_tableData this2 rows) month.
Proof.
  unfold calculateMoneyWeightedReturn.
  rewrite buildCashFlowSchedule_same_numbers.
  simpl config. simpl tableData. rewrite Hcontribution, Hprincipal.
  destruct (month =? 0); [reflexivity|].
  destruct (isZero _); [|reflexivity].
  destruct (at_index rows (month - 1)) as [p|]; [|reflexivity].
  cbn [defined mbind result_bind].
  now rewrite (endingPrincipleAtDefaultRate_same_numbers rows).
Qed.

Lemma RowStep_same_numbers p m r1 r2 :
  1 <= m <= bound ->
  RowStep this1 p m r1 -> RowStep this2 p m r2 ->
  TableRow.timeWeightedReturn r1 = TableRow.timeWeightedReturn r2 ->
  TableRow.moneyWeightedReturn r1 = TableRow.moneyWeightedReturn r2 ->
  r1 = r2.
Proof.
  intros Hm
         [m1 d1 s1 c1 ret1 f1 e1 cf1 v1 fp1 mg1 tg1 mn1 mx1 tn1]
         [m2 d2 s2 c2 ret2 f2 e2 cf2 v2 fp2 mg2 tg2 mn2 mx2 tn2] Htwr Hmwr.
  rewrite <- Hcontribution, <- Hstart, <- (Hrate m Hm) in *.
  assert (TableRow.startingPrinciple r1 = TableRow.startingPrinciple r2)
    as Hs by congruence.
  assert (TableRow.returns r1 = TableRow.returns r2) as Hret by congruence.
  assert (TableRow.fees r1 = TableRow.fees r2) as Hf
      by (rewrite f1, f2, Hfee; congruence).
  apply TableRow_eq; [apply trajectory_eq; congruence | exact Hmwr].
Qed.

Lemma tables_equal_prefix k1 k2 rows1 rows2 :
  TableUpTo this1 k1 rows1 -> TableUpTo this2 k2 rows2 ->
  forall n, (n <= S k1)%nat -> (n <= S k2)%nat ->
            Z.of_nat n <= bound + 1 ->
            take n rows1 = take n rows2.
Proof.
  intros H1 H2 n. induction n as [|n IH]; intros Hn1 Hn2 Hb; [reflexivity|].
  specialize (IH ltac:(lia) ltac:(lia) ltac:(lia)).
  destruct (lookup_lt_is_Some_2 rows1 n) as [r1 Hr1];
    [rewrite (upto_length _ _ _ H1); lia|].
  destruct (lookup_lt_is_Some_2 rows2 n) as [r2 Hr2];
    [rewrite (upto_length _ _ _ H2); lia|].
  rewrite (take_S_r _ _ _ Hr1), (take_S_r _ _ _ Hr2), IH.
  f_equal. f_equal.
  destruct n as [|n].
  - rewrite (upto_first _ _ _ H1) in Hr1.
    rewrite (upto_first _ _ _ H2) in Hr2.
    simpl in Hr1, Hr2. inversion Hr1. inversion Hr2.
    now rewrite Hstart, Hprincipal.
  - destruct (table_lookup_step _ _ _ _ _ H1 Hr1)
      as [p1 [Hp1 [Hs1 [Ht1 Hm1]]]].
    destruct (table_lookup_step _ _ _ _ _ H2 Hr2)
      as [p2 [Hp2 [Hs2 [Ht2 Hm2]]]].
    assert (Hp : p1 = p2).
    { assert (Hl : take (S n) rows1 !! n = take (S n) rows2 !! n)
        by now rewrite IH.
      rewrite !lookup_take_lt in Hl by lia.
      rewrite Hp1, Hp2 in Hl. exact (Some_inj _ _ Hl). }
    subst p2.
    assert (Hmb : 1 <= Z.of_nat (S n) <= bound) by lia.
    assert (He : TableRow.endingPrinciple r1 = TableRow.endingPrinciple r2).
    { pose proof (RowStep_same_numbers _ _ _ _ Hmb
                    (RowStep_unset _ _ _ _ Hs1)
                    (RowStep_unset _ _ _ _ Hs2) eq_refl eq_refl) as Hu.
      exact (f_equal TableRow.endingPrinciple Hu). }
    assert (Hends :
              TableRow.endingPrinciple <$> take (S (S n)) rows1 =
              TableRow.endingPrinciple <$> take (S (S n)) rows2).
    { rewrite (take_S_r _ _ _ Hr1), (take_S_r _ _ _ Hr2), !fmap_app, IH.
      simpl. now rewrite He. }
    apply (RowStep_same_numbers p1 (Z.of_nat (S n))); try assumption.
    + rewrite (calculateTimeWeightedReturn_endings _ _ _ _ Hends),
        calculateTimeWeightedReturn_same_numbers, Ht2 in Ht1.
      now inversion Ht1.
    + rewrite (calculateMoneyWeightedReturn_endings _ _ _ _ Hends),
        calculateMoneyWeightedReturn_same_numbers, Hm2 in Hm1.
      now inversion Hm1.
Qed.

Lemma tables_equal k rows1 rows2 :
  Z.of_nat k <= bound ->
  TableUpTo this1 k rows1 -> TableUpTo this2 k rows2 -> rows1 = rows2.
Proof.
  intros Hk H1 H2.
  pose proof (tables_equal_prefix k k rows1 rows2 H1 H2 (S k)
                (le_n _) (le_n _) ltac:(lia)) as Hp.
  rewrite !take_ge in Hp
    by (rewrite ?(upto_length _ _ _ H1), ?(upto_length _ _ _ H2); lia).
  exact Hp.
Qed.
End SameNumbers.

(** X6. A longer horizon only adds rows: for [0 < n <= n'], the table for
    [num_months = n] is the first [n + 1] rows of the table for
    [num_months = n'], every field included. *)
Theorem calculateInvestment_prefix (cfg : InvestmentConfig.t) (n n' : Z) :
  0 < n <= n' ->
  exists rows rows',
    calculateInvestment (withNumMonths cfg n) = Ok rows /\
    calculateInvestment (withNumMonths cfg n') = Ok rows' /\
    rows = take (Z.to_nat n + 1) rows'.
Proof.
  intros Hn.
  destruct (calculateInvestment_spec (withNumMonths cfg n))
    as [rows [Hcalc Hrows]].
  destruct (calculateInvestment_spec (withNumMonths cfg n'))
    as [rows' [Hcalc' Hrows']].
  exists rows, rows'. split; [exact Hcalc|]. split; [exact Hcalc'|].
  assert (Hk : calculateMonthDifference (withNumMonths cfg n) = n).
  { unfold calculateMonthDifference. simpl.
    destruct (Z.ltb_spec 0 n); [reflexivity | lia]. }
  assert (Hk' : calculateMonthDifference (withNumMonths cfg n') = n').
  { unfold calculateMonthDifference. simpl.
    destruct (Z.ltb_spec 0 n'); [reflexivity | lia]. }
  rewrite Hk in Hrows. rewrite Hk' in Hrows'.
  rewrite <- (take_ge rows (Z.to_nat n + 1))
    by (rewrite (upto_length _ _ _ Hrows); lia).
  apply (tables_equal_prefix (new (withNumMonths cfg n))
           (new (withNumMonths cfg n')))
    with (bound := n) (k1 := Z.to_nat n) (k2 := Z.to_nat n');
    try reflexivity; try assumption; lia.
Qed.

Lemma calculateMonthlyFees_rates this1 this2 x :
  feeRate <$> InvestmentConfig.fees (config this1) =
  feeRate <$> InvestmentConfig.fees (config this2) ->
  calculateMonthlyFees this1 x = calculateMonthlyFees this2 x.
Proof.
  unfold calculateMonthlyFees. generalize (ofZ 0).
  generalize (InvestmentConfig.fees (config this2)).
  induction (InvestmentConfig.fees (config this1)) as [|f1 l1 IH];
    intros [|f2 l2] total Heq; try discriminate; [reflexivity|].
  simpl in Heq. inversion Heq as [[Hv Ha Hl]]. simpl.
  rewrite Hv, Ha. now apply IH.
Qed.

Lemma find_override_numbers (l1 l2 : list MonthlyReturn.t) (m : Z) :
  overrideNumbers <$> l1 = overrideNumbers <$> l2 ->
  overrideNumbers <$>
    List.find (fun r => MonthlyReturn.month r =? m) l1 =
  overrideNumbers <$>
    List.find (fun r => MonthlyReturn.month r =? m) l2.
Proof.
  revert l2. induction l1 as [|r1 l1 IH]; intros [|r2 l2] Heq;
    try discriminate; [reflexivity|].
  simpl in Heq. inversion Heq as [[Hm Hv He Hl]]. simpl.
  rewrite Hm. destruct (_ =? _).
  - simpl. unfold overrideNumbers. now rewrite Hm, Hv, He.
  - now apply IH.
Qed.

Lemma getMonthlyReturnRate_numbers this1 this2 m :
  fmap (M := option) (fmap (M := list) overrideNumbers)
       (InvestmentConfig.monthlyReturns (config this1)) =
  fmap (M := option) (fmap (M := list) overrideNumbers)
       (InvestmentConfig.monthlyReturns (config this2)) ->
  defaultMonthlyReturnRate this1 = defaultMonthlyReturnRate this2 ->
  getMonthlyReturnRate this1 m = getMonthlyReturnRate this2 m.
Proof.
  intros Heq Hd. unfold getMonthlyReturnRate.
  destruct (InvestmentConfig.monthlyReturns (config this1)) as [l1|],
           (InvestmentConfig.monthlyReturns (config this2)) as [l2|];
    try discriminate; [|exact Hd].
  simpl in Heq. inversion Heq as [Hl].
  assert (Hlen : length l1 = length l2).
  { rewrite <- (length_fmap overrideNumbers l1), Hl. apply length_fmap. }
  rewrite Hlen. destruct (_ <? _); [|exact Hd].
  pose proof (find_override_numbers l1 l2 m Hl) as Hfind.
  destruct (List.find _ l1) as [r1|], (List.find _ l2) as [r2|];
    try discriminate; [|exact Hd].
  simpl in Hfind. inversion Hfind as [[Hm Hv He]].
  now rewrite Hv, He.
Qed.

(** X8. The table is a function of the numbers of the configuration: the
    value and applied time unit of each fee in order, those of the return,
    the month, value and empty marker of each monthly return in order, the
    start date, the starting principal, the monthly contribution and the
    month count. The names, descriptions, types and quote time units, the
    currency and the time unit, the [date] of a monthly return, and what
    [end_date] and [num_months] hold beyond the month count are not
    read. *)
Theorem calculateInvestment_reads_numbers (cfg1 cfg2 : InvestmentConfig.t) :
  readByCalculator cfg1 = readByCalculator cfg2 ->
  calculateInvestment cfg1 = calculateInvestment cfg2.
Proof.
  unfold readByCalculator. intros Heq.
  inversion Heq as [[Hfees Hrv Hra Hover Hstart Hsp Hc Hk]]. clear Heq.
  destruct (calculateInvestment_spec cfg1) as [rows1 [Hcalc1 Hrows1]].
  destruct (calculateInvestment_spec cfg2) as [rows2 [Hcalc2 Hrows2]].
  rewrite Hcalc1, Hcalc2. f_equal. rewrite <- Hk in Hrows2.
  assert (Hd : defaultMonthlyReturnRate (new cfg1) =
               defaultMonthlyReturnRate (new cfg2)).
  { simpl. unfold calculateDefaultMonthlyReturnRate. now rewrite Hrv, Hra. }
  apply (tables_equal (new cfg1) (new cfg2))
    with (bound := Z.of_nat (Z.to_nat (calculateMonthDifference cfg1)))
         (k := Z.to_nat (calculateMonthDifference cfg1));
    try assumption; try lia.
  - intros x. now apply calculateMonthlyFees_rates.
  - intros m _. now apply getMonthlyReturnRate_numbers.
Qed.


(** X7. No row looks ahead: two lists of monthly returns that give the
    same override, or none, for every month from 1 to [j] give tables that
    agree on the rows 0..j, whatever they say of later months. *)
Theorem calculateInvestment_no_lookahead (cfg : InvestmentConfig.t)
    (monthlyReturns1 monthlyReturns2 : option (list MonthlyReturn.t))
    (j : nat) :
  (forall m, 1 <= m <= Z.of_nat j ->
             overrideFor (withMonthlyReturns cfg monthlyReturns1) m =
             overrideFor (withMonthlyReturns cfg monthlyReturns2) m) ->
  exists rows1 rows2,
    calculateInvestment (withMonthlyReturns cfg monthlyReturns1) = Ok rows1 /\
    calculateInvestment (withMonthlyReturns cfg monthlyReturns2) = Ok rows2 /\
    take (S j) rows1 = take (S j) rows2.
Proof.
  intros Hover.
  destruct (calculateInvestment_spec (withMonthlyReturns cfg monthlyReturns1))
    as [rows1 [Hcalc1 Hrows1]].
  destruct (calculateInvestment_spec (withMonthlyReturns cfg monthlyReturns2))
    as [rows2 [Hcalc2 Hrows2]].
  exists rows1, rows2. split; [exact Hcalc1|]. split; [exact Hcalc2|].
  change (calculateMonthDifference (withMonthlyReturns cfg monthlyReturns1))
    with (calculateMonthDifference cfg) in Hrows1.
  change (calculateMonthDifference (withMonthlyReturns cfg monthlyReturns2))
    with (calculateMonthDifference cfg) in Hrows2.
  set (k := Z.to_nat (calculateMonthDifference cfg)) in *.
  assert (Hprefix : forall n, (n <= S k)%nat -> (n <= S j)%nat ->
                              take n rows1 = take n rows2).
  { intros n Hn Hj.
    apply (tables_equal_prefix
             (new (withMonthlyReturns cfg monthlyReturns1))
             (new (withMonthlyReturns cfg monthlyReturns2)))
      with (bound := Z.of_nat j) (k1 := k) (k2 := k);
      try reflexivity; try assumption; try lia.
    intros m Hm. rewrite !getMonthlyReturnRate_cases.
    simpl config. now rewrite (Hover m Hm). }
  destruct (Nat.le_gt_cases (S j) (S k)) as [Hle|Hgt].
  - now apply Hprefix.
  - rewrite !take_ge
      by (rewrite ?(upto_length _ _ _ Hrows1), ?(upto_length _ _ _ Hrows2);
          lia).
    rewrite <- (take_ge rows1 (S k))
      by (rewrite (upto_length _ _ _ Hrows1); lia).
    rewrite <- (take_ge rows2 (S k))
      by (rewrite (upto_length _ _ _ Hrows2); lia).
    apply Hprefix; lia.
Qed.

(** X14. [calculateMoneyWeightedReturn] over a table of [n] rows returns
    0 for month 0, returns for every month from 1 to [n], and throws a
    TypeError for a month below 0 or beyond [n]. *)
Theorem calculateMoneyWeightedReturn_domain (this : InvestmentCalculator)
    (currentMonth : Z) :
  let n := Z.of_nat (length (tableData this)) in
  (currentMonth = 0 ->
   calculateMoneyWeightedReturn this currentMonth = Ok (ofZ 0)) /\
  (1 <= currentMonth <= n ->
   exists r, calculateMoneyWeightedReturn this currentMonth = Ok r) /\
  (currentMonth < 0 \/ n < currentMonth ->
   calculateMoneyWeightedReturn this currentMonth = Throw TypeError).
Proof.
  intros n. split; [|split].
  - intros ->. reflexivity.
  - intros Hm. unfold calculateMoneyWeightedReturn.
    destruct (Z.eqb_spec currentMonth 0); [lia|].
    destruct (at_index_lt (tableData this) (currentMonth - 1)) as [p Hp];
      [fold n; lia|].
    destruct (isZero _).
    + rewrite Hp. simpl. eauto.
    + assert (Hs : exists schedule,
                 buildCashFlowSchedule this currentMonth = Ok schedule).
      { unfold buildCashFlowSchedule.
        destruct (foldl _ _ _) as [cfs ds]. fold n.
        destruct (Z.gtb_spec n currentMonth).
        - destruct (at_index_lt (tableData this) currentMonth) as [r Hr];
            [fold n; lia|].
          rewrite Hr. simpl. eauto.
        - rewrite Hp. simpl. eauto. }
      destruct Hs as [[cashFlows dates] Hs]. rewrite Hs.
      cbn [mbind result_bind].
      apply buildCashFlowSchedule_lengths in Hs.
      destruct (calculateImprovedIRR_run _ _ Hs) as [rate [Hirr _]].
      rewrite Hirr. cbn [mbind result_bind]. eauto.
  - intros Hm. unfold calculateMoneyWeightedReturn.
    destruct (Z.eqb_spec currentMonth 0); [lia|].
    assert (Hp : at_index (tableData this) (currentMonth - 1) = None).
    { unfold at_index. destruct (Z.ltb_spec (currentMonth - 1) 0);
        [reflexivity|].
      apply lookup_ge_None_2. fold n in Hm |- *. lia. }
    destruct (isZero _).
    + now rewrite Hp.
    + unfold buildCashFlowSchedule.
      destruct (foldl _ _ _) as [cfs ds]. fold n.
      destruct (Z.gtb_spec n currentMonth).
      * assert (Hr : at_index (tableData this) currentMonth = None).
        { unfold at_index. destruct (Z.ltb_spec currentMonth 0);
            [reflexivity | lia]. }
        now rewrite Hr.
      * now rewrite Hp.
Qed.

(** *** A starting principal of zero *)

Lemma rate_not_finite x y :
  isZero y = true ->
  isFinite (mul (minus (div x y) (ofZ 1)) (ofZ 100)) = false.
Proof.
  intros Hy. now apply mul_not_finite_l, minus_not_finite, div_zero_not_finite.
Qed.

Lemma periodReturn_not_finite contribution startValue endValue :
  isZero startValue = true ->
  isFinite (periodReturn contribution startValue endValue) = false.
Proof.
  intros Hs. destruct contribution; simpl; now apply rate_not_finite.
Qed.

Lemma linkReturns_not_finite (periodReturns : list Decimal) r :
  r ∈ periodReturns -> isFinite r = false ->
  isFinite (linkReturns periodReturns) = false.
Proof.
  intros Hin Hr. unfold linkReturns.
  apply mul_not_finite_l, minus_not_finite.
  set (link := fun cumulativeReturn returnRate : Decimal =>
                 mul cumulativeReturn
                     (plus (ofZ 1) (div returnRate (ofZ 100)))).
  assert (Hstays : forall l x, isFinite x = false ->
                               isFinite (foldl link x l) = false).
  { induction l as [|y l IH]; intros x Hx; [exact Hx|].
    simpl. apply IH. now apply mul_not_finite_l. }
  generalize (ofZ 1).
  induction Hin as [r l|r y l Hin IH]; intros x; simpl.
  - apply Hstays.
    now apply mul_not_finite_r, plus_not_finite_r, div_not_finite.
  - now apply IH.
Qed.

(** X12. With a starting principal of zero, the time-weighted return of
    every row from month 1 on is NaN or an infinity, whatever the
    contribution: the first period divides by the zero the account starts
    with. So is the month-over-month net rate excluding contributions of
    row 1; so are the total net and gross return rates of every such row
    when the contribution is not above zero, and its money-weighted return
    when the contribution is zero. *)
Theorem zero_starting_principle (cfg : InvestmentConfig.t) :
  let global := InvestmentConfig.global cfg in
  isZero (Global.starting_principle global) = true ->
  exists rows,
    calculateInvestment cfg = Ok rows /\
    forall (m : nat) row,
      rows !! S m = Some row ->
      isFinite (TableRow.timeWeightedReturn row) = false /\
      (m = 0%nat ->
       isFinite (TableRow.momNetExclContribReturnRate row) = false) /\
      (gt (Global.monthly_contribution global) (ofZ 0) = false ->
       isFinite (TableRow.totalNetReturnRate row) = false /\
       isFinite (TableRow.totalGrossReturnRate row) = false) /\
      (isZero (Global.monthly_contribution global) = true ->
       isFinite (TableRow.moneyWeightedReturn row) = false).
Proof.
  intros global Hsp.
  destruct (calculateInvestment_spec cfg) as [rows [Hcalc Hrows]].
  exists rows. split; [exact Hcalc|].
  intros m row Hrow.
  destruct (table_lookup_step _ _ _ _ _ Hrows Hrow)
    as [p [Hp [Hstep [Htwr Hmwr]]]].
  destruct (lookup_lt_is_Some_2 rows 0) as [row0 Hrow0];
    [apply lookup_lt_Some in Hrow; lia|].
  assert (Hend0 : TableRow.endingPrinciple row0 =
                  Global.starting_principle global).
  { now rewrite (table_lookup_first _ _ _ _ Hrows Hrow0). }
  split; [|split; [|split]].
  - apply calculateTimeWeightedReturn_linked in Htwr
      as [completed [p' [Hcompleted [Hp' ->]]]]; [|lia].
    replace (S m - 1)%nat with m in Hp' by lia.
    rewrite Hp in Hp'. inversion Hp'. subst p'.
    destruct m as [|m].
    + apply (linkReturns_not_finite _ (defaultRatePeriodReturn (new cfg) p)).
      * apply elem_of_app. right. left.
      * apply periodReturn_not_finite.
        rewrite Hrow0 in Hp. inversion Hp. subst p. now rewrite Hend0.
    + unfold completedPeriodReturns in Hcompleted.
      replace (S (S m) - 1)%nat with (S m) in Hcompleted by lia.
      apply mapM_Some_1 in Hcompleted.
      inversion Hcompleted as [|i r l k Hr _]. subst.
      apply (linkReturns_not_finite _ r); [apply elem_of_app; left; left|].
      simpl in Hr. rewrite Hrow0 in Hr. simpl in Hr.
      destruct (rows !! 1%nat) as [row1|]; [|discriminate].
      simpl in Hr. inversion Hr.
      apply periodReturn_not_finite. now rewrite Hend0.
  - intros ->. rewrite Hrow0 in Hp. inversion Hp. subst p.
    rewrite (step_momNetExclContribReturnRate _ _ _ _ Hstep).
    apply rate_not_finite. now rewrite Hend0.
  - intros Hgt.
    assert (Hnone : effectiveContribution (new cfg) = None).
    { unfold effectiveContribution. simpl. fold global. now rewrite Hgt. }
    pose proof (cumulativeContributions_constant _ _ _ Hrows Hnone _ _ Hrow)
      as Hcc.
    rewrite (step_totalNetReturnRate _ _ _ _ Hstep),
      (step_totalGrossReturnRate _ _ _ _ Hstep), Hcc.
    split; now apply rate_not_finite.
  - intros Hzero. revert Hmwr. unfold calculateMoneyWeightedReturn.
    destruct (Z.eqb_spec (Z.of_nat (S m)) 0); [lia|].
    simpl config. fold global. rewrite Hzero.
    destruct (at_index _ _); [|discriminate].
    cbn [defined mbind result_bind]. intros Heq. inversion Heq.
    now apply rate_not_finite.
Qed.

(** *** The net present value *)

Lemma npvAndDerivativeFrom_app cashFlows1 cashFlows2 yearFractions rate
    npv derivative :
  npvAndDerivativeFrom (cashFlows1 ++ cashFlows2) yearFractions rate
                       npv derivative =
  npvAndDerivativeFrom cashFlows2 (drop (length cashFlows1) yearFractions)
    rate
    (fst (npvAndDerivativeFrom cashFlows1 yearFractions rate npv derivative))
    (snd (npvAndDerivativeFrom cashFlows1 yearFractions rate npv derivative)).
Proof.
  revert yearFractions npv derivative.
  induction cashFlows1 as [|cf cashFlows1 IH];
    intros yearFractions npv derivative; [reflexivity|].
  cbn [app npvAndDerivativeFrom length]. rewrite IH.
  destruct yearFractions; cbn [tl drop]; rewrite ?drop_nil; reflexivity.
Qed.

Lemma npvAndDerivativeFrom_take cashFlows yearFractions rate npv derivative :
  npvAndDerivativeFrom cashFlows
    (take (length cashFlows) yearFractions) rate npv derivative =
  npvAndDerivativeFrom cashFlows yearFractions rate npv derivative.
Proof.
  revert yearFractions npv derivative.
  induction cashFlows as [|cf cashFlows IH];
    intros yearFractions npv derivative; [reflexivity|].
  destruct yearFractions as [|t yearFractions]; [reflexivity|].
  cbn [length take npvAndDerivativeFrom tl]. now rewrite IH.
Qed.

(** X16. [calculateNPVAndDerivative] sums from the left: a cash flow [cf]
    at the year fraction [t], appended to arrays of one length, adds
    [cf * Math.pow(1 + rate, -t)] to the net present value and takes
    [t * cf * Math.pow(1 + rate, -t) / (1 + rate)] off the derivative,
    unless [t] is 0, where the derivative stays as it was. *)
Theorem calculateNPVAndDerivative_snoc (cashFlows yearFractions : list float)
    (cf t rate : float) :
  length cashFlows = length yearFractions ->
  calculateNPVAndDerivative (cashFlows ++ [cf]) (yearFractions ++ [t]) rate =
  let '(npv, derivative) :=
    calculateNPVAndDerivative cashFlows yearFractions rate in
  let discountFactor := Math_pow (1 + rate)%float (- t)%float in
  ((npv + cf * discountFactor)%float,
   if PrimFloat.eqb t 0 then derivative
   else (derivative - t * cf * discountFactor / (1 + rate))%float).
Proof.
  intros Hlen. unfold calculateNPVAndDerivative.
  rewrite npvAndDerivativeFrom_app.
  rewrite Hlen, drop_app_length.
  rewrite <- (npvAndDerivativeFrom_take cashFlows (yearFractions ++ [t])).
  rewrite Hlen, take_app_length.
  destruct (npvAndDerivativeFrom cashFlows yearFractions rate 0 0)
    as [npv derivative].
  cbn [fst snd npvAndDerivativeFrom].
  now destruct (PrimFloat.eqb t 0).
Qed.

Lemma npvFrom_app cashFlows1 cashFlows2 rate i npv :
  npvFrom (cashFlows1 ++ cashFlows2) rate i npv =
  npvFrom cashFlows2 rate (i + Z.of_nat (length cashFlows1))
          (npvFrom cashFlows1 rate i npv).
Proof.
  revert i npv. induction cashFlows1 as [|cf cashFlows1 IH]; intros i npv.
  - simpl. now rewrite Z.add_0_r.
  - cbn [app npvFrom length]. rewrite IH. f_equal. lia.
Qed.

(** X17. [calculateNPV] of no flow is 0; it discounts the flow at index
    [i] by [Math.pow(1 + rate, i)] and sums from the left: a flow [cf]
    appended to [k] flows adds [cf / Math.pow(1 + rate, k)]. *)
Theorem calculateNPV_snoc (rate : float) :
  calculateNPV [] rate = 0%float /\
  forall (cashFlows : list float) (cf : float),
    calculateNPV (cashFlows ++ [cf]) rate =
    (calculateNPV cashFlows rate
     + cf / Math_pow (1 + rate)
                     (floatOfZ (Z.of_nat (length cashFlows))))%float.
Proof.
  split; [reflexivity|].
  intros cashFlows cf. unfold calculateNPV.
  rewrite npvFrom_app. reflexivity.
Qed.

(** X15. Of the table, the two return calculators read the ending
    principals only: on two tables with the same column of ending
    principals each returns, or throws, the same. *)
Theorem analytics_read_endings (this : InvestmentCalculator)
    (rows1 rows2 : list TableRow.t) (month : Z) :
  TableRow.endingPrinciple <$> rows1 = TableRow.endingPrinciple <$> rows2 ->
  calculateTimeWeightedReturn (with_tableData this rows1) month =
  calculateTimeWeightedReturn (with_tableData this rows2) month /\
  calculateMoneyWeightedReturn (with_tableData this rows1) month =
  calculateMoneyWeightedReturn (with_tableData this rows2) month.
Proof.
  intros Heq. split.
  - now apply calculateTimeWeightedReturn_endings.
  - now apply calculateMoneyWeightedReturn_endings.
Qed.

End TableProperties.

(** ** On the sample configurations *)

Section OnSamples.
Import Decimal.
#[local] Existing Instance UTCHost.host.

(** C3 holds of [Samples.returnsThenFees]. *)
Lemma C3_witness :
  exists rows row1,
    calculateInvestment Samples.returnsThenFees = Ok rows /\
    rows !! 1%nat = Some row1 /\
    TableRow.startingPrinciple row1 = ofZ 100 /\
    TableRow.returns row1 = ofZ 1 /\
    TableRow.fees row1 = dec false 101 (-2) /\
    TableRow.fees row1 =
      mul (ofZ 101) (div (dec false 12 (-2)) (ofZ 12)) /\
    TableRow.endingPrinciple row1 = dec false 9999 (-2).
Proof.
  apply (C3_returns_then_fees Samples.returnsThenFees
           (Samples.annualFee (dec false 12 (-2)))); try reflexivity.
  vm_compute. discriminate.
Defined.

(** C4 on a schedule of two flows a year apart: 100 out, 110 in. *)
Lemma C4_witness :
  (exists rate iterations,
     calculateImprovedIRR_counted
       [ (-100)%float; 110%float ]
       [ UTCHost.utc 2024 1 1; UTCHost.utc 2025 1 1 ]
       = (Ok rate, iterations) /\
     calculateImprovedIRR
       [ (-100)%float; 110%float ]
       [ UTCHost.utc 2024 1 1; UTCHost.utc 2025 1 1 ] = Ok rate /\
     (iterations <= 100)%nat /\
     SolverRun [ (-100)%float; 110%float ]
       (datesToYearFractions [ UTCHost.utc 2024 1 1; UTCHost.utc 2025 1 1 ])
       100 0.1%float rate) /\
  PRECISION = 0.0000001%float /\
  forall r,
    ((r <? -0.99)%float = true -> boundRate r = (-0.99)%float) /\
    ((100 <? r)%float = true -> boundRate r = 100%float) /\
    ((r <? -0.99)%float = false -> (100 <? r)%float = false ->
     boundRate r = r) /\
    (is_nan r = false ->
     (-0.99 <=? boundRate r)%float = true /\
     (boundRate r <=? 100)%float = true) /\
    (is_nan r = true -> boundRate r = r) /\
    (boundRate r <? -0.99)%float = false /\
    (100 <? boundRate r)%float = false.
Proof.
  apply (C4_irr_terminates
           [ (-100)%float; 110%float ]
           [ UTCHost.utc 2024 1 1; UTCHost.utc 2025 1 1 ]).
  reflexivity.
Defined.

(** C7 on month 1 of [Samples.overriddenMonth]. *)
Lemma C7_witness :
  exists rows row rate,
    calculateInvestment Samples.overriddenMonth = Ok rows /\
    rows !! 1%nat = Some row /\
    TableRow.returns row = mul (TableRow.startingPrinciple row) rate /\
    TableRow.momGrossReturnRate row = mul rate (ofZ 100) /\
    (forall r, overrideFor Samples.overriddenMonth 1 = Some r ->
               MonthlyReturn.isEmpty r = true -> rate = ofZ 0) /\
    (forall r, overrideFor Samples.overriddenMonth 1 = Some r ->
               MonthlyReturn.isEmpty r = false ->
               rate = div (MonthlyReturn.value r) (ofZ 100)) /\
    (overrideFor Samples.overriddenMonth 1 = None ->
     rate = div (Returns.value
                   (InvestmentConfig.returns Samples.overriddenMonth))
                (Returns.applied_time_unit
                   (InvestmentConfig.returns Samples.overriddenMonth))).
Proof.
  apply (C7_monthly_rate Samples.overriddenMonth 1).
  vm_compute. split; discriminate.
Defined.

(** C10 on [Samples.withdrawal], whose contribution is -10. *)
Lemma C10_witness :
  exists rows rows0,
    calculateInvestment Samples.withdrawal = Ok rows /\
    calculateInvestment (withContribution Samples.withdrawal (ofZ 0))
      = Ok rows0 /\
    trajectory <$> rows = trajectory <$> rows0 /\
    forall (m : nat) prevRow row,
      (1 <= m)%nat ->
      rows !! (m - 1)%nat = Some prevRow ->
      rows !! m = Some row ->
      TableRow.startingPrinciple row = TableRow.endingPrinciple prevRow /\
      TableRow.cumulativeContributions row =
        TableRow.cumulativeContributions prevRow /\
      TableRow.valueWithoutFees row =
        plus (TableRow.valueWithoutFees prevRow)
             (mul (TableRow.valueWithoutFees prevRow)
                  (getMonthlyReturnRate (new Samples.withdrawal)
                                        (Z.of_nat m))).
Proof.
  apply (C10_negative_contribution Samples.withdrawal).
  vm_compute. reflexivity.
Defined.

Lemma twoMonths_table :
  calculateInvestment Samples.twoMonths = Ok Samples.twoMonthsTable.
Proof. vm_compute. reflexivity. Qed.

Lemma rebate_table :
  calculateInvestment Samples.rebate = Ok Samples.rebateTable.
Proof. vm_compute. reflexivity. Qed.

Lemma overriddenMonth_table :
  calculateInvestment Samples.overriddenMonth
  = Ok Samples.overriddenMonthTable.
Proof. vm_compute. reflexivity. Qed.

(** C8 on rows 0 and 1 of [Samples.twoMonths]: no fee below zero, a
    starting principal of one digit. *)
Lemma C8_witness :
  exists prevRow row,
    calculateInvestment Samples.twoMonths = Ok Samples.twoMonthsTable /\
    Samples.twoMonthsTable !! 0%nat = Some prevRow /\
    Samples.twoMonthsTable !! 1%nat = Some row /\
    (forall k r, (k <= 1)%nat -> Samples.twoMonthsTable !! k = Some r ->
                 gte (TableRow.fees r) (ofZ 0) = true) /\
    wellRounded (Global.starting_principle
                   (InvestmentConfig.global Samples.twoMonths)) = true /\
    gte (TableRow.cumulativeFees row) (TableRow.cumulativeFees prevRow)
      = true /\
    gte (TableRow.cumulativeContributions row)
        (TableRow.cumulativeContributions prevRow) = true.
Proof.
  eexists _, _.
  split; [exact twoMonths_table|].
  split; [reflexivity|]. split; [reflexivity|].
  assert (Hfees : forall k r, (k <= 1)%nat ->
                    Samples.twoMonthsTable !! k = Some r ->
                    gte (TableRow.fees r) (ofZ 0) = true).
  { intros k r Hk Hr.
    destruct k as [|[|k]]; [| |lia];
      injection Hr as <-; vm_compute; reflexivity. }
  split; [exact Hfees|]. split; [reflexivity|].
  pose proof (C8_monotonic_accumulators Samples.twoMonths
                Samples.twoMonthsTable 0 _ _ twoMonths_table
                eq_refl eq_refl) as [Hf Hc].
  split; [exact (Hf Hfees) | exact (Hc eq_refl)].
Defined.

Lemma longPrincipal_table :
  calculateInvestment Samples.longPrincipal = Ok Samples.longPrincipalTable.
Proof. vm_compute. reflexivity. Qed.

(** C8 as the specification words it fails on either accumulator. Where
    a fee is a rebate, quoted at -12% a year on 100, the cumulative fees
    go from 0 in row 0 to -1 in row 1. Where the starting principal has
    more digits than the precision, 100000000000000000000.4 with 0.01
    contributed a month, the cumulative contributions go from the
    starting principal in row 0 to the rounded sum 1e20 in row 1. *)
Lemma C8_counterexample :
  (exists rows prevRow row,
     calculateInvestment Samples.rebate = Ok rows /\
     rows !! 0%nat = Some prevRow /\
     rows !! 1%nat = Some row /\
     TableRow.cumulativeFees prevRow = ofZ 0 /\
     TableRow.cumulativeFees row = ofZ (-1) /\
     gte (TableRow.cumulativeFees row) (TableRow.cumulativeFees prevRow)
       = false) /\
  (exists rows prevRow row,
     calculateInvestment Samples.longPrincipal = Ok rows /\
     rows !! 0%nat = Some prevRow /\
     rows !! 1%nat = Some row /\
     TableRow.cumulativeContributions prevRow =
       dec false 1000000000000000000004 (-1) /\
     TableRow.cumulativeContributions row = dec false 1 20 /\
     gte (TableRow.cumulativeContributions row)
         (TableRow.cumulativeContributions prevRow) = false).
Proof.
  split.
  - exists Samples.rebateTable. eexists _, _.
    split; [exact rebate_table|].
    split; [reflexivity|]. split; [reflexivity|].
    split; [reflexivity|]. split; reflexivity.
  - exists Samples.longPrincipalTable. eexists _, _.
    split; [exact longPrincipal_table|].
    split; [reflexivity|]. split; [reflexivity|].
    split; [reflexivity|]. split; reflexivity.
Qed.

Lemma zeroUnitFee_table :
  calculateInvestment Samples.zeroUnitFee = Ok Samples.zeroUnitFeeTable.
Proof. vm_compute. reflexivity. Qed.

(** C4 as the specification words it fails on the clamp. With a fee whose
    applied time unit is 0 the fee is infinite, row 2 of the table ends on
    NaN, and the schedule that [calculate] hands the solver for month 2
    ends on a NaN flow. In the first iteration the net present value and
    the derivative are NaN, no exit is taken, and the rate carried into
    the second iteration is NaN, which is not within [-0.99, 100]; the
    solver runs its 100 iterations and returns NaN. *)
Lemma C4_counterexample :
  exists rows cashFlows dates npv derivative,
    calculateInvestment Samples.zeroUnitFee = Ok rows /\
    buildCashFlowSchedule
      (with_tableData (new Samples.zeroUnitFee) rows) 2
      = Ok (cashFlows, dates) /\
    length cashFlows = length dates /\
    calculateNPVAndDerivative cashFlows (datesToYearFractions dates)
                              0.1%float = (npv, derivative) /\
    (abs npv <? 0.0000001)%float = false /\
    (abs derivative <? 0.0000001)%float = false /\
    (abs (0.1 - npv / derivative - 0.1) <? 0.0000001)%float = false /\
    boundRate (0.1 - npv / derivative)%float = nan /\
    (-0.99 <=? nan)%float = false /\
    (nan <=? 100)%float = false /\
    calculateImprovedIRR_counted cashFlows dates = (Ok nan, 100%nat).
Proof.
  exists Samples.zeroUnitFeeTable,
    [ (-1)%float; (-1000)%float; (-1000)%float; nan ],
    [ UTCHost.utc 2024 1 1; UTCHost.utc 2024 2 1; UTCHost.utc 2024 3 1;
      UTCHost.utc 2024 3 1 ],
    nan, nan.
  split; [exact zeroUnitFee_table|].
  repeat split; vm_compute; reflexivity.
Qed.

(** C1, where the code parts from it. With a return of 5% given for month
    1 against a default of 1% a month, row 1 ends on 105, and the
    time-weighted return the code writes into it is 1 (the default rate
    replayed), where the linking of section 4.4, which replays month 1 at
    the rate resolved for it, gives 5. Row 2, whose first period is read
    from the table, links 5% and 1% to 6.05 on both sides. *)
Theorem C1_twrr_replays_default_rate :
  exists rows row1 row2,
    calculateInvestment Samples.overriddenMonth = Ok rows /\
    rows !! 1%nat = Some row1 /\
    rows !! 2%nat = Some row2 /\
    TableRow.endingPrinciple row1 = ofZ 105 /\
    TableRow.timeWeightedReturn row1 = ofZ 1 /\
    linkedPeriodReturns (new Samples.overriddenMonth) rows 1
      = Some (ofZ 5) /\
    TableRow.timeWeightedReturn row2 = dec false 605 (-2) /\
    linkedPeriodReturns (new Samples.overriddenMonth) rows 2
      = Some (dec false 605 (-2)).
Proof.
  exists Samples.overriddenMonthTable. eexists _, _.
  split; [exact overriddenMonth_table|].
  split; [reflexivity|]. split; [reflexivity|].
  split; [reflexivity|]. split; [reflexivity|].
  split; [vm_compute; reflexivity|].
  split; [reflexivity|]. vm_compute; reflexivity.
Qed.

(** C2, where the code parts from it. On the same configuration, whose
    contribution is zero, row 1 has a total net return rate of 5, which
    is (105 / 100 - 1) * 100, and a money-weighted return of 1. *)
Theorem C2_mwrr_replays_default_rate :
  exists rows row1,
    calculateInvestment Samples.overriddenMonth = Ok rows /\
    rows !! 1%nat = Some row1 /\
    isZero (Global.monthly_contribution
              (InvestmentConfig.global Samples.overriddenMonth)) = true /\
    TableRow.endingPrinciple row1 = ofZ 105 /\
    TableRow.totalNetReturnRate row1 = ofZ 5 /\
    mul (minus (div (TableRow.endingPrinciple row1)
                    (Global.starting_principle
                       (InvestmentConfig.global Samples.overriddenMonth)))
               (ofZ 1))
        (ofZ 100) = ofZ 5 /\
    TableRow.moneyWeightedReturn row1 = ofZ 1.
Proof.
  exists Samples.overriddenMonthTable. eexists _.
  split; [exact overriddenMonth_table|].
  split; [reflexivity|]. split; [reflexivity|].
  split; [reflexivity|]. split; [reflexivity|].
  split; [vm_compute; reflexivity|]. reflexivity.
Qed.

(** X1 on month 2 of [Samples.twoMonths]. *)
Lemma timeWeightedReturn_linked_witness :
  exists rows prevRow row completed,
    calculateInvestment Samples.twoMonths = Ok rows /\
    rows !! (2 - 1)%nat = Some prevRow /\
    rows !! 2%nat = Some row /\
    completedPeriodReturns (new Samples.twoMonths) rows 2 = Some completed /\
    TableRow.timeWeightedReturn row =
    linkReturns (completed ++
                 [defaultRatePeriodReturn (new Samples.twoMonths) prevRow]).
Proof.
  apply (timeWeightedReturn_linked Samples.twoMonths 2).
  vm_compute. lia.
Defined.

(** X2 on month 2 of [Samples.twoMonths], whose contribution is 1000 and
    which overrides no month. *)
Lemma timeWeightedReturn_at_default_rate_witness :
  exists rows row periodReturns,
    calculateInvestment Samples.twoMonths = Ok rows /\
    rows !! 2%nat = Some row /\
    completedPeriodReturns (new Samples.twoMonths) rows 3
      = Some periodReturns /\
    TableRow.timeWeightedReturn row = linkReturns periodReturns.
Proof.
  apply (timeWeightedReturn_at_default_rate Samples.twoMonths 2).
  - vm_compute. reflexivity.
  - reflexivity.
  - vm_compute. lia.
Defined.

(** X3 on month 1 of [Samples.returnsThenFees], whose contribution is
    zero. *)
Lemma moneyWeightedReturn_at_default_rate_witness :
  exists rows row,
    calculateInvestment Samples.returnsThenFees = Ok rows /\
    rows !! 1%nat = Some row /\
    TableRow.moneyWeightedReturn row = TableRow.totalNetReturnRate row.
Proof.
  apply (moneyWeightedReturn_at_default_rate Samples.returnsThenFees 1).
  - reflexivity.
  - reflexivity.
  - vm_compute. lia.
Defined.

(** X4 on month 2 of [Samples.twoMonths]. *)
Lemma moneyWeightedReturn_schedule_witness :
  exists rows row rate,
    calculateInvestment Samples.twoMonths = Ok rows /\
    rows !! 2%nat = Some row /\
    SolverRun (scheduleCashFlows Samples.twoMonths 2
                 (TableRow.endingPrinciple row))
              (datesToYearFractions (scheduleDates Samples.twoMonths 2))
              100 0.1%float rate /\
    TableRow.moneyWeightedReturn row = mul (ofNumber rate) (ofZ 100).
Proof.
  apply (moneyWeightedReturn_schedule Samples.twoMonths 2).
  - reflexivity.
  - vm_compute. lia.
Defined.

(** X5 on month 2 of [Samples.twoMonths]. *)
Lemma moneyWeightedReturn_before_push_witness :
  exists rows row,
    calculateInvestment Samples.twoMonths = Ok rows /\
    rows !! 2%nat = Some row /\
    calculateMoneyWeightedReturn
      (with_tableData (new Samples.twoMonths) (take 2 rows)) (Z.of_nat 2) =
    Ok (TableRow.moneyWeightedReturn row).
Proof.
  apply (moneyWeightedReturn_before_push Samples.twoMonths 2).
  - reflexivity.
  - vm_compute. lia.
Defined.

(** X6 on [Samples.twoMonths], cut to one month. *)
Lemma calculateInvestment_prefix_witness :
  exists rows rows',
    calculateInvestment (withNumMonths Samples.twoMonths 1) = Ok rows /\
    calculateInvestment (withNumMonths Samples.twoMonths 2) = Ok rows' /\
    rows = take (Z.to_nat 1 + 1) rows'.
Proof.
  apply (calculateInvestment_prefix Samples.twoMonths 1 2). lia.
Defined.

(** X7: a return of 7% entered for month 2 leaves the rows 0 and 1
    alone. *)
Lemma calculateInvestment_no_lookahead_witness :
  exists rows1 rows2,
    calculateInvestment
      (withMonthlyReturns Samples.overriddenMonth
         (Some [ Samples.percentInMonth 1 5 ])) = Ok rows1 /\
    calculateInvestment
      (withMonthlyReturns Samples.overriddenMonth
         (Some [ Samples.percentInMonth 1 5;
                 Samples.percentInMonth 2 7 ])) = Ok rows2 /\
    take 2 rows1 = take 2 rows2.
Proof.
  apply (calculateInvestment_no_lookahead Samples.overriddenMonth
           (Some [ Samples.percentInMonth 1 5 ])
           (Some [ Samples.percentInMonth 1 5;
                   Samples.percentInMonth 2 7 ]) 1).
  intros m Hm. assert (m = 1) as -> by lia. reflexivity.
Defined.

(** X8 on [Samples.twoMonths] and [Samples.relabelled]. *)
Lemma calculateInvestment_reads_numbers_witness :
  calculateInvestment Samples.twoMonths =
  calculateInvestment Samples.relabelled.
Proof.
  apply (calculateInvestment_reads_numbers Samples.twoMonths
           Samples.relabelled).
  vm_compute. reflexivity.
Defined.

(** X10 on [Samples.overriddenMonth], which has no fee. *)
Lemma no_fees_rows_witness :
  exists rows,
    calculateInvestment Samples.overriddenMonth = Ok rows /\
    forall (m : nat) row,
      rows !! m = Some row ->
      TableRow.fees row = ofZ 0 /\
      TableRow.cumulativeFees row = ofZ 0 /\
      TableRow.endingPrinciple row =
        (if m is O
         then Global.starting_principle
                (InvestmentConfig.global Samples.overriddenMonth)
         else plus (TableRow.startingPrinciple row) (TableRow.returns row)) /\
      TableRow.valueWithoutFees row = TableRow.endingPrinciple row /\
      TableRow.totalGrossReturnRate row = TableRow.totalNetReturnRate row.
Proof.
  apply (no_fees_rows Samples.overriddenMonth). reflexivity.
Defined.

(** X11 on [Samples.returnsThenFees]. *)
Lemma no_contribution_rows_witness :
  exists rows,
    calculateInvestment Samples.returnsThenFees = Ok rows /\
    forall (m : nat) prevRow row,
      rows !! m = Some prevRow ->
      rows !! S m = Some row ->
      TableRow.startingPrinciple row = TableRow.endingPrinciple prevRow /\
      TableRow.cumulativeContributions row =
        Global.starting_principle
          (InvestmentConfig.global Samples.returnsThenFees) /\
      TableRow.momNetReturnRate row =
        TableRow.momNetExclContribReturnRate row /\
      TableRow.totalNetReturnRate row =
        mul (minus (div (TableRow.endingPrinciple row)
                        (Global.starting_principle
                           (InvestmentConfig.global Samples.returnsThenFees)))
                   (ofZ 1))
            (ofZ 100).
Proof.
  apply (no_contribution_rows Samples.returnsThenFees). reflexivity.
Defined.

(** X12 on [Samples.fromNothing]. *)
Lemma zero_starting_principle_witness :
  exists rows,
    calculateInvestment Samples.fromNothing = Ok rows /\
    forall (m : nat) row,
      rows !! S m = Some row ->
      isFinite (TableRow.timeWeightedReturn row) = false /\
      (m = 0%nat ->
       isFinite (TableRow.momNetExclContribReturnRate row) = false) /\
      (gt (Global.monthly_contribution
             (InvestmentConfig.global Samples.fromNothing)) (ofZ 0) = false ->
       isFinite (TableRow.totalNetReturnRate row) = false /\
       isFinite (TableRow.totalGrossReturnRate row) = false) /\
      (isZero (Global.monthly_contribution
                 (InvestmentConfig.global Samples.fromNothing)) = true ->
       isFinite (TableRow.moneyWeightedReturn row) = false).
Proof.
  apply (zero_starting_principle Samples.fromNothing). reflexivity.
Defined.

(** X15 on the table of [Samples.twoMonths] and on the same table with
    the money-weighted returns wiped. *)
Lemma analytics_read_endings_witness :
  calculateTimeWeightedReturn
    (with_tableData (new Samples.twoMonths) Samples.twoMonthsTable) 2 =
  calculateTimeWeightedReturn
    (with_tableData (new Samples.twoMonths)
       (trajectory <$> Samples.twoMonthsTable)) 2 /\
  calculateMoneyWeightedReturn
    (with_tableData (new Samples.twoMonths) Samples.twoMonthsTable) 2 =
  calculateMoneyWeightedReturn
    (with_tableData (new Samples.twoMonths)
       (trajectory <$> Samples.twoMonthsTable)) 2.
Proof.
  apply (analytics_read_endings (new Samples.twoMonths)
           Samples.twoMonthsTable (trajectory <$> Samples.twoMonthsTable) 2).
  reflexivity.
Defined.

(** X16 on one flow of -100 at 0, with 110 a year later appended. *)
Lemma calculateNPVAndDerivative_snoc_witness :
  calculateNPVAndDerivative ([ (-100)%float ] ++ [ 110%float ])
                            ([ 0%float ] ++ [ 1%float ]) 0.1%float =
  let '(npv, derivative) :=
    calculateNPVAndDerivative [ (-100)%float ] [ 0%float ] 0.1%float in
  let discountFactor := Math_pow (1 + 0.1)%float (- 1)%float in
  ((npv + 110 * discountFactor)%float,
   if PrimFloat.eqb 1 0 then derivative
   else (derivative - 1 * 110 * discountFactor / (1 + 0.1))%float).
Proof.
  apply (calculateNPVAndDerivative_snoc [ (-100)%float ] [ 0%float ]
           110%float 1%float 0.1%float).
  reflexivity.
Defined.

End OnSamples.
